(** * datarecovery: the recovery pipeline, embedded and verified

    A shallow embedding of the Python sources of the data-recovery
    application (ddrescue imaging helper, PhotoRec scanning, rdfind
    de-duplication, file organisation, mounted-partition check) together
    with the properties its specification states about them.

    Conventions of the embedding:
    - Python [str] values are Rocq strings (byte strings); [str.lower]
      changes the ASCII letters only.
    - A path names a file by its text: no normalisation, no symbolic links.
    - External processes and the cancellation flag are observations the
      code makes of its environment; they are arguments of the model.
    - [sys.exit] and exceptions are explicit results, never silent. *)

From Stdlib Require Import ZArith Ascii String Lia.
From stdpp Require Import gmap strings list pretty sorting.

Local Open Scope Z_scope.

(** ** Python string primitives *)

Module PyStr.

(** [c.lower()] for one byte. *)
Definition lower_ascii (c : ascii) : ascii :=
  let n := N_of_ascii c in
  if ((65 <=? n) && (n <=? 90))%N then ascii_of_N (n + 32) else c.

(** [s.lower()] on ASCII text: the letters A to Z change, every other
    byte stays.  (Python's [str.lower] also changes letters outside
    ASCII, and there the result can depend on the letter's place in the
    word.) *)
Fixpoint lower (s : string) : string :=
  match s with
  | EmptyString => EmptyString
  | String c s' => String (lower_ascii c) (lower s')
  end.

(** [s.isascii()]: every byte of [s] is below 128. *)
Fixpoint isascii (s : string) : bool :=
  match s with
  | EmptyString => true
  | String c s' => (N_of_ascii c <? 128)%N && isascii s'
  end.

(** [s.startswith(p)] *)
Fixpoint startswith (s p : string) {struct p} : bool :=
  match p, s with
  | EmptyString, _ => true
  | String _ _, EmptyString => false
  | String b p', String a s' => Ascii.eqb a b && startswith s' p'
  end.

(** [s.endswith(p)] *)
Fixpoint endswith (s p : string) : bool :=
  String.eqb s p ||
  match s with
  | EmptyString => false
  | String _ s' => endswith s' p
  end.

(** [c in s] for a one-character [c]. *)
Fixpoint contains (c : ascii) (s : string) : bool :=
  match s with
  | EmptyString => false
  | String a s' => Ascii.eqb a c || contains c s'
  end.

(** Truthiness of a string: [bool(s)]. *)
Definition truthy (s : string) : bool :=
  match s with EmptyString => false | _ => true end.

(** [s[1:]] *)
Definition drop1 (s : string) : string :=
  match s with EmptyString => EmptyString | String _ s' => s' end.

(** Split at the last occurrence of [c]: [(s[:i], s[i:])] with
    [i = s.rfind(c)], or [None] when [c] does not occur. *)
Fixpoint rsplit (c : ascii) (s : string) : option (string * string) :=
  match s with
  | EmptyString => None
  | String a s' =>
      match rsplit c s' with
      | Some (pre, suf) => Some (String a pre, suf)
      | None => if Ascii.eqb a c then Some (EmptyString, s) else None
      end
  end.

(** [any(ch != c for ch in s)] *)
Fixpoint has_other (c : ascii) (s : string) : bool :=
  match s with
  | EmptyString => false
  | String a s' => negb (Ascii.eqb a c) || has_other c s'
  end.

(** [any(ch.isdigit() for ch in s)] on bytes. *)
Fixpoint any_digit (s : string) : bool :=
  match s with
  | EmptyString => false
  | String a s' =>
      let n := N_of_ascii a in ((48 <=? n) && (n <=? 57))%N || any_digit s'
  end.

(** [s.replace(old, "")] for a non-empty [old]; [skip] counts the
    characters of a match still to be dropped. *)
Fixpoint remove_all_from (old : string) (skip : nat) (s : string) : string :=
  match s with
  | EmptyString => EmptyString
  | String a s' =>
      match skip with
      | S k => remove_all_from old k s'
      | O =>
          if startswith s old then remove_all_from old (String.length old - 1) s'
          else String a (remove_all_from old 0 s')
      end
  end.
Definition remove_all (old s : string) : string := remove_all_from old 0 s.

(** [s.rstrip(c)] for one character [c]. *)
Fixpoint lstrip_char (c : ascii) (s : string) : string :=
  match s with
  | String a s' => if Ascii.eqb a c then lstrip_char c s' else s
  | EmptyString => EmptyString
  end.
Definition rstrip_char (c : ascii) (s : string) : string :=
  String.rev (lstrip_char c (String.rev s)).

(** The line feed. *)
Definition nl : string := String (ascii_of_nat 10) EmptyString.

(** [sep.join(l)] *)
Definition join (sep : string) (l : list string) : string :=
  String.concat sep l.

(** [repr(l)] for a list of strings without quotes or escapes in them. *)
Definition repr_list (l : list string) : string :=
  "[" +:+ join ", " (map (fun s => "'" +:+ s +:+ "'") l) +:+ "]".

End PyStr.

(** ** [os.path] on POSIX *)

Module OsPath.
Import PyStr.

Definition sep : ascii := "/"%char.
Definition extsep : ascii := "."%char.

(** [os.path.join(a, b)] *)
Definition join (a b : string) : string :=
  if startswith b "/" then b
  else if negb (truthy a) || endswith a "/" then a +:+ b
  else a +:+ "/" +:+ b.

(** What [join a b] puts before a relative [b]. *)
Definition join_prefix (a : string) : string :=
  if negb (truthy a) || endswith a "/" then a else a +:+ "/".

(** [(head, tail)] with [tail] the text after the last separator. *)
Definition split_last_sep (p : string) : string * string :=
  match rsplit sep p with
  | Some (pre, suf) => (pre +:+ "/", drop1 suf)
  | None => (EmptyString, p)
  end.

(** [os.path.dirname(p)] *)
Definition dirname (p : string) : string :=
  let head := (split_last_sep p).1 in
  if has_other sep head then rstrip_char sep head else head.

(** [os.path.basename(p)] *)
Definition basename (p : string) : string := snd (split_last_sep p).

(** [os.path.splitext(p)]: the extension starts at the last dot of the
    last component, unless only dots precede it there. *)
Definition splitext (p : string) : string * string :=
  let '(head, tail) := split_last_sep p in
  match rsplit extsep tail with
  | Some (stem, ext) =>
      if has_other extsep stem then (head +:+ stem, ext) else (p, EmptyString)
  | None => (p, EmptyString)
  end.

End OsPath.

(** ** The privileged imaging helper ([image_helper.py])

    The helper script that [DDRescueHelper.create_helper_script] writes out
    and [run_with_pkexec] runs as root.  What the helper observes of the
    outside world during one iteration of its loops (one ladder stage or
    one partition) is a [step_env]; the [world] gives one per iteration,
    numbered from the first ladder stage. *)

Module ImageHelper.

Record Args := {
  device : string;
  dest : string;
  partitions : list string;
  owner_uid : Z;
  owner_gid : Z;
  cancel_file : string
}.

Record step_env := {
  (** [check_cancel()] at the top of the loop body in [main] *)
  cancel_at_loop : bool;
  (** [check_cancel()] at the start of [run] *)
  cancel_at_run : bool;
  (** [check_cancel()] after each one-second sleep while the child runs;
      the child has exited once the list is used up *)
  polls : list bool;
  (** whether the child is gone within five seconds of [terminate()] *)
  exits_on_terminate : bool;
  (** [current_process.returncode] *)
  returncode : Z;
  (** the message of the exception [os.chown] raises, if it does *)
  chown_error : option string
}.

Definition world := nat -> step_env.

Inductive event :=
| Stdout (msg : string)
| Stderr (msg : string)
| Popen (cmd : list string)
| Sleep
| Terminate
| Kill
| Chown (img mapf : string) (uid gid : Z)
| Cleanup.

(** How a piece of the helper ends: it falls through, or [sys.exit(code)]
    unwinds it. *)
Inductive result (A : Type) :=
| Done (a : A)
| SysExit (code : Z).
Arguments Done {A} a.
Arguments SysExit {A} code.

Definition helper (A : Type) : Type := list event * result A.

Definition ret {A} (a : A) : helper A := ([], Done a).
Definition bind {A B} (m : helper A) (k : A -> helper B) : helper B :=
  match m with
  | (ev, Done a) => let '(ev', r) := k a in (ev ++ ev', r)
  | (ev, SysExit c) => (ev, SysExit c)
  end.
Definition emit (e : event) : helper unit := ([e], Done tt).
Definition sys_exit {A} (code : Z) : helper A := ([], SysExit code).
(** [try: m finally: emit e] *)
Definition finally {A} (m : helper A) (e : event) : helper A :=
  (fst m ++ [e], snd m).

Declare Scope helper_scope.
Delimit Scope helper_scope with helper.
Notation "m ;; k" := (bind m (fun _ => k))
  (at level 100, k at level 200, right associativity) : helper_scope.
Local Open Scope helper_scope.

(** [for x in l: body(i, x)], the iterations numbered from [i]. *)
Fixpoint for_each {X} (i : nat) (l : list X) (body : nat -> X -> helper unit)
  : helper unit :=
  match l with
  | [] => ret tt
  | x :: l' => body i x ;; for_each (S i) l' body
  end.

(** The [while current_process.poll() is None] loop of [run]. *)
Fixpoint poll_loop (w : step_env) (obs : list bool) : helper unit :=
  match obs with
  | [] => ret tt
  | cancelled :: obs' =>
      emit Sleep ;;
      if cancelled then
        emit (Stderr "Cancellation requested during ddrescue execution, terminating...") ;;
        emit Terminate ;;
        (if exits_on_terminate w then ret tt
         else emit (Stderr "Force killing ddrescue process...") ;; emit Kill) ;;
        emit (Stderr "ddrescue imaging cancelled") ;;
        sys_exit 1
      else poll_loop w obs'
  end.

(** [run(cmd)] *)
Definition run (w : step_env) (cmd : list string) : helper unit :=
  emit (Stdout ("RUN: " +:+ PyStr.join " " cmd)) ;;
  (if cancel_at_run w then
     emit (Stderr "Cancellation requested before ddrescue execution, stopping") ;;
     sys_exit 1
   else ret tt) ;;
  emit (Popen cmd) ;;
  poll_loop w (polls w) ;;
  if negb (returncode w =? 0) then
    emit (Stderr ("Command failed: " +:+ PyStr.join " " cmd)) ;;
    sys_exit (returncode w)
  else ret tt.

Definition dd : string := "ddrescue".
Definition img_of (dest dev : string) : string :=
  OsPath.join dest (OsPath.basename dev +:+ ".img").
Definition map_of (dest dev : string) : string :=
  OsPath.join dest (OsPath.basename dev +:+ ".map").

(** The four-stage retry ladder. *)
Definition stages (a : Args) : list (list string) :=
  let dev := device a in
  let img := img_of (dest a) dev in
  let mapf := map_of (dest a) dev in
  [ [dd; "--force"; "--no-scrape"; "--verbose"; dev; img; mapf];
    [dd; "--force"; "--idirect"; "--retry-passes=3"; "--no-scrape"; "--verbose"; dev; img; mapf];
    [dd; "--force"; "--idirect"; "--retry-passes=3"; "--reverse"; "--verbose"; dev; img; mapf];
    [dd; "--force"; "--idirect"; "--retry-passes=3"; "--verbose"; dev; img; mapf] ].

Definition partition_cmd (a : Args) (ppath : string) : list string :=
  [dd; "--force"; "--verbose"; ppath; img_of (dest a) ppath; map_of (dest a) ppath].

(** The body of [for cmd in stages], in iteration [i]. *)
Definition stage_body (W : world) (a : Args) (i : nat) (cmd : list string)
  : helper unit :=
  (if cancel_at_loop (W i) then
     emit (Stderr "Cancellation requested before ddrescue stage, stopping") ;;
     sys_exit 1
   else ret tt) ;;
  run (W i) cmd ;;
  match chown_error (W i) with
  | None => emit (Chown (img_of (dest a) (device a)) (map_of (dest a) (device a))
                    (owner_uid a) (owner_gid a))
  | Some e => emit (Stderr ("chown failed: " +:+ e))
  end.

(** [for cmd in stages: ...] *)
Definition ladder (W : world) (a : Args) : helper unit :=
  for_each 0%nat (stages a) (stage_body W a).

(** The body of [for ppath in args.partitions], in iteration [i]. *)
Definition partition_body (W : world) (a : Args) (i : nat) (ppath : string)
  : helper unit :=
  (if cancel_at_loop (W i) then
     emit (Stderr "Cancellation requested before partition imaging, stopping") ;;
     sys_exit 1
   else ret tt) ;;
  run (W i) (partition_cmd a ppath) ;;
  match chown_error (W i) with
  | None => emit (Chown (img_of (dest a) ppath) (map_of (dest a) ppath)
                    (owner_uid a) (owner_gid a))
  | Some _ => ret tt
  end.

(** [for ppath in args.partitions: ...] *)
Definition partition_loop (W : world) (a : Args) : helper unit :=
  for_each (length (stages a)) (partitions a) (partition_body W a).

(** [main()], from the [try] on; the [finally] removes the pid file and
    the cancel flag whichever way the body ends. *)
Definition main (W : world) (a : Args) : helper unit :=
  finally (ladder W a ;; partition_loop W a) Cleanup.

(** Exit status of the helper process: 0 when [main] returns, the low
    byte of the argument of [sys.exit] otherwise. *)
Definition exit_status (r : helper unit) : Z :=
  match snd r with
  | Done _ => 0
  | SysExit c => c mod 256
  end.

(** [DDRescueHelper.run_with_pkexec]: [False] when the temporary files
    cannot be created or starting pkexec raises, else whether the
    result code is zero. *)
Definition run_with_pkexec (temp_files_ok : bool) (result_code : option Z) : bool :=
  if temp_files_ok then
    match result_code with
    | Some c => c =? 0
    | None => false
    end
  else false.

(** One invocation in which pkexec hands on the helper's exit status. *)
Definition helper_succeeds (W : world) (a : Args) : bool :=
  run_with_pkexec true (Some (exit_status (main W a))).

(** The commands started, in order. *)
Definition launched (ev : list event) : list (list string) :=
  omap (fun e => match e with Popen c => Some c | _ => None end) ev.

(** Stage [k] (from 0) was attempted: its command was started as the
    [k]-th child. *)
Definition stage_attempted (k : nat) (W : world) (a : Args) : Prop :=
  is_Some (stages a !! k) /\ launched (fst (main W a)) !! k = stages a !! k.

(** No cancellation is seen at any check of the iteration. *)
Definition never_cancelled (w : step_env) : Prop :=
  cancel_at_loop w = false /\ cancel_at_run w = false /\
  Forall (fun b : bool => b = false) (polls w).

(** The iteration starts its child. *)
Definition starts (w : step_env) : Prop :=
  cancel_at_loop w = false /\ cancel_at_run w = false.

(** The iteration runs to its end and lets the loop go on. *)
Definition passes (w : step_env) : Prop :=
  never_cancelled w /\ returncode w = 0.

(** *** What one iteration amounts to

    Summaries of a loop iteration, read off the world alone; the
    properties relate the helper to them. *)

Definition startsb (w : step_env) : bool :=
  negb (cancel_at_loop w) && negb (cancel_at_run w).

Definition step_result (w : step_env) : result unit :=
  if cancel_at_loop w then SysExit 1
  else if cancel_at_run w then SysExit 1
  else if forallb negb (polls w) then
    (if returncode w =? 0 then Done tt else SysExit (returncode w))
  else SysExit 1.

Fixpoint loop_result (W : world) (i n : nat) : result unit :=
  match n with
  | O => Done tt
  | S n' =>
      match step_result (W i) with
      | Done _ => loop_result W (S i) n'
      | SysExit c => SysExit c
      end
  end.

Fixpoint started (W : world) (i : nat) (cmds : list (list string))
  : list (list string) :=
  match cmds with
  | [] => []
  | c :: cs =>
      if startsb (W i) then
        c :: match step_result (W i) with
             | Done _ => started W (S i) cs
             | SysExit _ => []
             end
      else []
  end.

(** Every command the helper may start, in program order. *)
Definition all_commands (a : Args) : list (list string) :=
  stages a ++ map (partition_cmd a) (partitions a).

End ImageHelper.

(** ** The mount-safety gate ([mounted_check.py]) *)

Module MountedCheck.

(** One entry of [block_devices]: the keys the checker reads. *)
Record block_device := {
  path : string;
  mounted : bool;
  mount_path : option string
}.

Inductive event :=
| LogInfo (msg : string)
| LogWarning (msg : string)
| LogError (msg : string)
| Toast (msg : string)
| SuccessCallback
| ShowUnmountDialog (mounted_partitions : list (string * string))
| Unmount (partition_path : string).

(** [if self.logger: self.logger.<level>(msg)] *)
Definition log (logger : bool) (e : event) : list event :=
  if logger then [e] else [].

Definition critical_mounts : list string :=
  ["/"; "/home"; "/boot"; "/usr"; "/var"; "/tmp"; "/opt"].

(** [block_device['path'] == device_path or
     block_device['path'].startswith(device_path)] *)
Definition in_scope (device_path : string) (bd : block_device) : bool :=
  String.eqb (path bd) device_path || PyStr.startswith (path bd) device_path.

(** Truthiness of [block_device.get('mount_path')]. *)
Definition mount_path_truthy (bd : block_device) : bool :=
  match mount_path bd with
  | Some s => PyStr.truthy s
  | None => false
  end.

(** The [for block_device in self.block_devices] loop: [None] when it
    returns [False] from inside, else the list it has built. *)
Fixpoint scan_devices (logger : bool) (device_path : string)
    (bds : list block_device) (mounted_partitions : list (string * string))
  : list event * option (list (string * string)) :=
  match bds with
  | [] => ([], Some mounted_partitions)
  | bd :: rest =>
      if in_scope device_path bd && mounted bd && mount_path_truthy bd then
        let mp := default "" (mount_path bd) in
        if bool_decide (mp ∈ critical_mounts) then
          (log logger (LogError ("Critical system partition detected: " +:+ path bd
                                   +:+ " mounted at " +:+ mp))
             ++ [Toast ("Cannot proceed: Critical system partition " +:+ path bd
                          +:+ " is mounted at " +:+ mp)],
           None)
        else
          let device_type :=
            if String.eqb (path bd) device_path then "device" else "partition" in
          let '(ev, r) :=
            scan_devices logger device_path rest (mounted_partitions ++ [(path bd, mp)]) in
          (log logger (LogWarning ("Found mounted " +:+ device_type +:+ ": "
                                     +:+ path bd +:+ " → " +:+ mp)) ++ ev, r)
      else scan_devices logger device_path rest mounted_partitions
  end.

(** [check_and_handle_mounted_partitions(device_path, dest, success_callback)] *)
Definition check_and_handle_mounted_partitions (logger : bool)
    (block_devices : list block_device) (device_path : string)
  : list event * bool :=
  let start :=
    log logger (LogInfo ("Checking for mounted devices/partitions on device: "
                           +:+ device_path)) in
  match scan_devices logger device_path block_devices [] with
  | (ev, None) => (start ++ ev, false)
  | (ev, Some []) =>
      (start ++ ev
         ++ log logger (LogInfo "No mounted devices/partitions found, proceeding with recovery")
         ++ [SuccessCallback], true)
  | (ev, Some mps) =>
      (start ++ ev
         ++ log logger (LogInfo ("Found " +:+ pretty (length mps)
                                   +:+ " mounted partitions, showing unmount dialog"))
         ++ [ShowUnmountDialog mps], false)
  end.

(** [on_response] of the unmount dialog; [unmounts p] is whether
    [udisksctl unmount -b p] exits with 0. *)
Definition on_response (logger : bool) (unmounts : string -> bool)
    (mounted_partitions : list (string * string)) (response : string)
  : list event :=
  log logger (LogInfo ("User selected dialog response: " +:+ response)) ++
  if String.eqb response "unmount" then
    let failed_partitions :=
      filter (fun p => unmounts p = false) (map fst mounted_partitions) in
    map Unmount (map fst mounted_partitions) ++
    match failed_partitions with
    | [] =>
        log logger (LogInfo "All partitions unmounted successfully, proceeding with recovery")
          ++ [SuccessCallback]
    | _ =>
        log logger (LogError ("Failed to unmount partitions: " +:+ PyStr.repr_list failed_partitions))
          ++ [Toast ("Failed to unmount: " +:+ PyStr.join ", " failed_partitions)]
    end
  else if String.eqb response "continue" then
    log logger (LogWarning
      "User chose to continue with mounted partitions - this may cause data corruption")
      ++ [SuccessCallback]
  else
    log logger (LogInfo "User cancelled recovery due to mounted partitions").

(** The gate from the check to the operator's answer: the dialog's
    response handler runs only for a dialog that was shown. *)
Definition gate (logger : bool) (unmounts : string -> bool) (response : string)
    (block_devices : list block_device) (device_path : string) : list event :=
  let '(ev, _) := check_and_handle_mounted_partitions logger block_devices device_path in
  ev ++ flat_map (fun e => match e with
                           | ShowUnmountDialog mps => on_response logger unmounts mps response
                           | _ => []
                           end) ev.

(** [bd] is in scope for [device_path] and mounted at a critical path. *)
Definition critically_mounted (device_path : string) (bd : block_device) : Prop :=
  in_scope device_path bd = true /\ mounted bd = true /\
  exists mp, mount_path bd = Some mp /\ mp ∈ critical_mounts.

Definition is_dialog (e : event) : Prop :=
  match e with ShowUnmountDialog _ => True | _ => False end.

(** Neither the job's start nor the unmount dialog. *)
Definition harmless (e : event) : Prop := e <> SuccessCallback /\ ~ is_dialog e.

End MountedCheck.
(** ** Preflight checks ([preflight.py]) *)

Module Preflight.

(** [check_tools_exist(tools)]; [which t] is whether [shutil.which(t)]
    finds the tool. *)
Definition check_tools_exist (which : string -> bool) (tools : list string)
  : bool * list string :=
  let missing := List.filter (fun t => negb (which t)) tools in
  (Nat.eqb (length missing) 0, missing).

(** [validate_partition_paths(paths)]; [present p] is [os.path.exists(p)]. *)
Definition validate_partition_paths (present : string -> bool) (paths : list string)
  : list string * list string :=
  (List.filter (fun p => PyStr.startswith p "/dev/" || present p) paths,
   List.filter (fun p => negb (PyStr.startswith p "/dev/" || present p)) paths).

End Preflight.

(** ** Child processes and logging

    What the phases that drive a child process have in common: the log
    lines and process operations they leave behind, and the exceptions
    that may unwind them. *)

Module Proc.

Inductive exn :=
| ValueError (msg : string)
| OSError (msg : string)
| UnicodeDecodeError (msg : string)
| TimeoutExpired.

(** [str(e)] *)
Definition message (e : exn) : string :=
  match e with
  | ValueError msg | OSError msg | UnicodeDecodeError msg => msg
  | TimeoutExpired => "Command timed out"
  end.

(** [isinstance(e, subprocess.TimeoutExpired)] *)
Definition is_timeout_expired (e : exn) : bool :=
  match e with TimeoutExpired => true | _ => false end.

Inductive level := Debug | Info | Warning | Error.

Inductive event :=
| Log (l : level) (msg : string)
| MakeDirs (p : string)
| Popen (cmd : list string)
| Terminate
| Kill
| Sleep.

Inductive result (A : Type) :=
| Returned (a : A)
| Raised (e : exn).
Arguments Returned {A} a.
Arguments Raised {A} e.

Definition proc (A : Type) : Type := list event * result A.

Definition ret {A} (a : A) : proc A := ([], Returned a).
Definition bind {A B} (m : proc A) (k : A -> proc B) : proc B :=
  match m with
  | (ev, Returned a) => let '(ev', r) := k a in (ev ++ ev', r)
  | (ev, Raised e) => (ev, Raised e)
  end.
Definition emit (e : event) : proc unit := ([e], Returned tt).
Definition raise {A} (e : exn) : proc A := ([], Raised e).
Definition try_except {A} (m : proc A) (handler : exn -> proc A) : proc A :=
  match m with
  | (ev, Raised e) => let '(ev', r) := handler e in (ev ++ ev', r)
  | r => r
  end.

(** [for x in l: body(x)] *)
Fixpoint for_each {X} (l : list X) (body : X -> proc unit) : proc unit :=
  match l with
  | [] => ret tt
  | x :: l' => bind (body x) (fun _ => for_each l' body)
  end.

(** The commands started, in order. *)
Definition commands (ev : list event) : list (list string) :=
  omap (fun e => match e with Popen c => Some c | _ => None end) ev.

Declare Scope proc_scope.
Delimit Scope proc_scope with proc.
Notation "x <- m ;; k" := (bind m (fun x => k))
  (at level 100, m at next level, k at level 200, right associativity) : proc_scope.
Notation "m ;; k" := (bind m (fun _ => k))
  (at level 100, k at level 200, right associativity) : proc_scope.

End Proc.

(** ** Removing duplicates ([duplicates.py]) *)

Module Duplicates.

Import Proc.
Local Open Scope proc_scope.

(** One turn of the polling loop, the child still running: the flag of
    the controller and the clock, in seconds. *)
Record tick := {
  cancel_requested : bool;
  clock : Z
}.

Record env := {
  (** [shutil.which] *)
  which : string -> bool;
  (** [os.environ.get('DATARECOVERY_RDFIND_TIMEOUT')] *)
  timeout_var : option string;
  (** the exception [subprocess.Popen] raises, if it does *)
  popen_error : option exn;
  (** [time.time()] before the loop *)
  start_time : Z;
  (** the turns of the loop until the child has exited *)
  ticks : list tick;
  (** whether the child is gone within five seconds of [terminate()] *)
  exits_on_terminate : bool;
  (** the exception [process.communicate()] raises, if it does *)
  communicate_error : option exn;
  returncode : Z;
  stderr : string;
  (** the files rdfind has deleted by the time it is gone *)
  deleted : list string
}.

(** *** [int(text)] for decimal text *)

Definition digit_value (c : ascii) : option Z :=
  let n := N_of_ascii c in
  if ((48 <=? n) && (n <=? 57))%N then Some (Z.of_N (n - 48)) else None.

(** Digits, single underscores between them allowed. *)
Fixpoint parse_digits (s : string) (acc : Z) (after_digit : bool) : option Z :=
  match s with
  | EmptyString => if after_digit then Some acc else None
  | String c s' =>
      match digit_value c with
      | Some d => parse_digits s' (10 * acc + d) true
      | None =>
          if Ascii.eqb c "_" && after_digit then parse_digits s' acc false else None
      end
  end.

Fixpoint lstrip (s : string) : string :=
  match s with
  | String c s' => if Ascii.is_space c then lstrip s' else s
  | EmptyString => EmptyString
  end.

Definition strip (s : string) : string :=
  String.rev (lstrip (String.rev (lstrip s))).

Definition py_int (text : string) : option Z :=
  match strip text with
  | String "-" s => Z.opp <$> parse_digits s 0 false
  | String "+" s => parse_digits s 0 false
  | s => parse_digits s 0 false
  end.

(** [int(os.environ.get('DATARECOVERY_RDFIND_TIMEOUT', '1800'))] *)
Definition rdfind_timeout (E : env) : proc Z :=
  let text := default "1800" (timeout_var E) in
  match py_int text with
  | Some t => ret t
  | None => raise (ValueError ("invalid literal for int() with base 10: " +:+ text))
  end.

(** [terminate()], then [kill()] when the child outlives the grace of
    five seconds; [warn] is what the code logs before it kills. *)
Definition stop_child (E : env) (warn : list event) : proc unit :=
  emit Terminate ;;
  if exits_on_terminate E then ret tt
  else (warn, Returned tt) ;; emit Kill.

(** The [while process.poll() is None] loop; [true] when the function
    returns from inside it. *)
Fixpoint poll_loop (E : env) (controller : bool) (timeout : Z) (turns : list tick)
  : proc bool :=
  match turns with
  | [] => ret false
  | t :: turns' =>
      if controller && cancel_requested t then
        emit (Log Info "Cancellation requested, terminating rdfind duplicate removal") ;;
        stop_child E [Log Warning "rdfind didn't terminate gracefully, killing it"] ;;
        emit (Log Info "Duplicate removal cancelled") ;;
        ret true
      else if (timeout <? clock t - start_time E)%Z then
        emit (Log Error ("rdfind timed out after " +:+ pretty timeout +:+ " seconds")) ;;
        stop_child E [] ;;
        ret true
      else emit Sleep ;; poll_loop E controller timeout turns'
  end.

(** The body of the [try] of [remove_duplicates_with_rdfind]. *)
Definition rdfind_body (recovery_dir : string) (controller : bool) (E : env)
  : proc unit :=
  emit (Log Info "=== Scanning For Duplicates ===") ;;
  emit (Log Info ("Scanning for duplicates in: " +:+ recovery_dir)) ;;
  let '(ok, missing) := Preflight.check_tools_exist (which E) ["rdfind"] in
  if negb ok then
    emit (Log Warning ("Missing required tools: " +:+ PyStr.join ", " missing
                         +:+ "; skipping duplicate removal"))
  else
    timeout <- rdfind_timeout E ;;
    let cmd := ["rdfind"; "-deleteduplicates"; "true"; recovery_dir] in
    emit (Log Info "Running rdfind to remove duplicates...") ;;
    emit (Popen cmd) ;;
    match popen_error E with Some e => raise e | None => ret tt end ;;
    returned <- poll_loop E controller timeout (ticks E) ;;
    if returned : bool then ret tt
    else
      match communicate_error E with Some e => raise e | None => ret tt end ;;
      if (returncode E =? 0)%Z then
        emit (Log Info "rdfind completed successfully - duplicates removed")
      else
        emit (Log Warning ("rdfind failed with return code " +:+ pretty (returncode E))) ;;
        if PyStr.truthy (stderr E)
        then emit (Log Warning ("rdfind error: " +:+ stderr E))
        else ret tt.

(** [remove_duplicates_with_rdfind(recovery_dir, controller)]: the body
    under its two [except] clauses. *)
Definition remove_duplicates_with_rdfind (recovery_dir : string) (controller : bool)
    (E : env) : proc unit :=
  try_except (rdfind_body recovery_dir controller E) (fun e =>
    if is_timeout_expired e then
      emit (Log Error ("rdfind timed out after "
                         +:+ from_option pretty "" (py_int (default "1800" (timeout_var E)))
                         +:+ " seconds"))
    else
      emit (Log Error ("Failed to remove duplicates: " +:+ message e)) ;;
      emit (Log Debug "traceback") ;;
      emit (Log Info "Continuing with recovery process")).

(** rdfind was started. *)
Definition launched (ev : list event) : bool :=
  existsb (fun e => match e with Popen _ => true | _ => false end) ev.

End Duplicates.
(** ** Scanning the images ([recover.py]) *)

Module Recover.
Import PyStr Proc.
Local Open Scope proc_scope.

(** One entry of [partitions_data]: the keys the scanner reads. *)
Record partition := {
  part_path : string;
  id_type : string
}.

(** What running PhotoRec on one image turns out to be. *)
Record scan_env := {
  (** the exception [subprocess.Popen] raises, if it does *)
  popen_error : option exn;
  (** [controller.cancel_requested] at each turn while the child runs *)
  ticks : list bool;
  (** whether the child is gone within five seconds of [terminate()] *)
  exits_on_terminate : bool;
  returncode : Z;
  stderr : string
}.

Record env := {
  (** [os.path.isdir] *)
  is_dir : string -> bool;
  (** [os.listdir]; [None] when it raises *)
  listdir : string -> option (list string);
  (** whether [os.makedirs(p, exist_ok=True)] succeeds *)
  makedirs_ok : string -> bool;
  (** [os.path.exists] and [os.getcwd()], for the child's directory *)
  path_exists : string -> bool;
  getcwd : string;
  (** the scan of each image, by its path *)
  scan : string -> scan_env
}.

(** [a or b] for a path that may be [None] or empty. *)
Definition or_else (a : option string) (b : string) : string :=
  match a with
  | Some s => if truthy s then s else b
  | None => b
  end.

(** [os.makedirs(p, exist_ok=True)] *)
Definition os_makedirs (E : env) (p : string) : proc unit :=
  if makedirs_ok E p then emit (MakeDirs p)
  else raise (OSError ("[Errno 17] File exists: '" +:+ p +:+ "'")).

(** [_find_image_files(working_dir)] *)
Definition _find_image_files (E : env) (working_dir : string) : list event * list string :=
  if negb (truthy working_dir) || negb (is_dir E working_dir) then
    ([Log Info ("No working directory available to search for images: " +:+ working_dir)],
     [])
  else
    match listdir E working_dir with
    | Some names =>
        let found := List.filter (fun filename => endswith filename ".img") names in
        (map (fun filename => Log Info ("Found image file: " +:+ filename)) found,
         merge_sort String.le (map (OsPath.join working_dir) found))
    | None =>
        ([Log Error ("Failed to list image files in " +:+ working_dir)], [])
    end.

(** [_get_filesystem_type_for_image(filename, partitions_data)] *)
Definition _get_filesystem_type_for_image (filename : string)
    (partitions_data : list partition) : list event * option string :=
  match partitions_data with
  | [] => ([Log Info "No partitions_data provided for filesystem detection"], None)
  | _ =>
      if any_digit filename then
        let device_name := remove_all ".img" filename in
        let device_path := "/dev/" +:+ device_name in
        let looking :=
          Log Info ("Looking for filesystem type of partition: " +:+ device_path) in
        match List.find (fun p => String.eqb (part_path p) device_path) partitions_data with
        | Some p =>
            ([looking;
              Log Info ("Found filesystem type: " +:+ id_type p +:+ " for " +:+ device_name)],
             Some (id_type p))
        | None =>
            ([looking; Log Info ("No filesystem data found for " +:+ device_name)], None)
        end
      else
        ([Log Info ("Whole device image detected (" +:+ filename
                      +:+ "), no specific filesystem type")], None)
  end.

(** The options string of [run_photorec_on_source]. *)
Definition options_string (keep_corrupted_files : bool) (filesystem_type : option string)
  : string :=
  "options"
    +:+ (match filesystem_type with
         | Some t => if truthy t && startswith t "ext" then ",mode_ext2" else ""
         | None => ""
         end)
    +:+ (if keep_corrupted_files then ",keep_corrupted_file" else "")
    +:+ ",search".

(** The command of [run_photorec_on_source]. *)
Definition photorec_cmd (source_file output_dir : string)
    (enable_logs keep_corrupted_files : bool) (filesystem_type : option string)
  : list string :=
  ["photorec"] ++ (if enable_logs then ["/log"] else [])
    ++ ["/d"; output_dir; "/cmd"; source_file;
        options_string keep_corrupted_files filesystem_type].

(** The [while process.poll() is None] loop; [true] when the function
    returns [False] from inside it. *)
Fixpoint poll_loop (S : scan_env) (controller : bool) (description : string)
    (turns : list bool) : proc bool :=
  match turns with
  | [] => ret false
  | cancel_requested :: turns' =>
      if controller && cancel_requested then
        emit (Log Info ("Cancellation requested, terminating PhotoRec scan of "
                          +:+ description)) ;;
        emit Terminate ;;
        (if exits_on_terminate S then ret tt
         else
           emit (Log Warning ("PhotoRec scan of " +:+ description
                                +:+ " didn't terminate gracefully, killing it")) ;;
           emit Kill) ;;
        emit (Log Info ("PhotoRec scan of " +:+ description +:+ " cancelled")) ;;
        ret true
      else emit Sleep ;; poll_loop S controller description turns'
  end.

(** [run_photorec_on_source(source_file, output_dir, description, enable_logs,
     keep_corrupted_files, filesystem_type, controller)] *)
Definition run_photorec_on_source (E : env) (source_file output_dir description : string)
    (enable_logs keep_corrupted_files : bool) (filesystem_type : option string)
    (controller : bool) : proc bool :=
  let S := scan E source_file in
  try_except
    (emit (Log Info ("Scanning " +:+ description +:+ ": " +:+ OsPath.basename source_file)) ;;
     let cmd := photorec_cmd source_file output_dir enable_logs keep_corrupted_files
                  filesystem_type in
     emit (Log Info ("Command: " +:+ join " " cmd)) ;;
     let outdir := if truthy (OsPath.dirname output_dir)
                   then OsPath.dirname output_dir else output_dir in
     let cwd := if path_exists E outdir then outdir else getcwd E in
     emit (Log Info ("Running PhotoRec with cwd=" +:+ cwd)) ;;
     emit (Popen cmd) ;;
     match popen_error S with Some e => raise e | None => ret tt end ;;
     cancelled <- poll_loop S controller description (ticks S) ;;
     if cancelled : bool then ret false
     else
       (if truthy (stderr S) then
          emit (Log Warning (nl +:+ "PhotoRec errors for " +:+ description +:+ ":")) ;;
          emit (Log Warning (stderr S))
        else ret tt) ;;
       if (returncode S =? 0)%Z then
         emit (Log Info ("PhotoRec scan of " +:+ description +:+ " completed successfully")) ;;
         ret true
       else
         emit (Log Error ("PhotoRec scan of " +:+ description
                            +:+ " failed with error code " +:+ pretty (returncode S))) ;;
         ret false)
    (fun e =>
       emit (Log Error ("PhotoRec scan of " +:+ description
                          +:+ " failed with error: " +:+ message e)) ;;
       emit (Log Debug "traceback") ;;
       ret false).

(** The directory PhotoRec writes the files of [image_file] to. *)
Definition output_dir_of (recovery_dir image_file : string) : string :=
  OsPath.join recovery_dir (OsPath.splitext (OsPath.basename image_file)).1.

(** [_scan_image_file(image_file, recovery_dir, partitions_data, enable_logs,
     keep_corrupted_files, controller)] *)
Definition _scan_image_file (E : env) (image_file recovery_dir : string)
    (partitions_data : list partition) (enable_logs keep_corrupted_files controller : bool)
  : proc bool :=
  let filename := OsPath.basename image_file in
  emit (Log Info (nl +:+ "=== Scanning " +:+ filename +:+ " ===")) ;;
  let output_dir := output_dir_of recovery_dir image_file in
  os_makedirs E output_dir ;;
  let '(fs_log, filesystem_type) :=
    _get_filesystem_type_for_image filename partitions_data in
  (fs_log, Returned tt) ;;
  success <- run_photorec_on_source E image_file output_dir filename enable_logs
               keep_corrupted_files filesystem_type controller ;;
  (if success : bool then ret tt
   else emit (Log Warning ("Scan of " +:+ filename +:+ " failed, continuing..."))) ;;
  ret success.

(** [photorec_recover(dest_path, working_dir, partitions_data, enable_logs,
     keep_corrupted_files, controller)] *)
Definition photorec_recover (E : env) (dest_path : string) (working_dir : option string)
    (partitions_data : list partition) (enable_logs keep_corrupted_files controller : bool)
  : proc bool :=
  try_except
    (emit (Log Info (nl +:+ "Initializing PhotoRec recovery...")) ;;
     let recovery_dir := OsPath.join (or_else working_dir dest_path) "recovered_files" in
     os_makedirs E recovery_dir ;;
     emit (Log Info ("Recovery directory: " +:+ recovery_dir)) ;;
     let '(find_log, image_files) := _find_image_files E (or_else working_dir dest_path) in
     (find_log, Returned tt) ;;
     match image_files with
     | [] =>
         emit (Log Error "No image files found to scan") ;;
         ret false
     | _ =>
         emit (Log Info ("Found " +:+ pretty (length image_files)
                           +:+ " image files to scan")) ;;
         for_each image_files (fun image_file =>
           _ <- _scan_image_file E image_file recovery_dir partitions_data enable_logs
                  keep_corrupted_files controller ;;
           ret tt) ;;
         emit (Log Info (nl +:+ "PhotoRec recovery completed successfully")) ;;
         ret true
     end)
    (fun e =>
       emit (Log Error ("PhotoRec recovery failed with error: " +:+ message e)) ;;
       ret false).

(** The command the phase runs for [image_file]. *)
Definition command_for (recovery_dir : string) (partitions_data : list partition)
    (enable_logs keep_corrupted_files : bool) (image_file : string) : list string :=
  photorec_cmd image_file (output_dir_of recovery_dir image_file) enable_logs
    keep_corrupted_files
    (_get_filesystem_type_for_image (OsPath.basename image_file) partitions_data).2.

End Recover.
(** ** The file system seen by the organiser

    The organiser works on one working directory.  The model keeps, for
    that directory, its entries in listing order and, for each entry that
    is a directory, what [os.walk] yields under it; every other path that
    exists (the destination side, the current directory) is an element of
    [files] or [dirs].  Files are created outside the working directory
    only.  Every operation that changes the disk appends to [trace]. *)

Module Fs.

Inductive exn :=
| FileNotFoundError (p : string)
| FileExistsError (p : string)
| DirectoryNotEmpty (p : string)
| ForeignError (msg : string).

(** How a computation ends: with a value, with an exception, or, for a
    loop, without an end within the bound the model gives it. *)
Inductive res (A : Type) :=
| Ok (a : A)
| Raise (e : exn)
| OutOfFuel.
Arguments Ok {A} a.
Arguments Raise {A} e.
Arguments OutOfFuel {A}.

Inductive event :=
| Copied (src dst : string)
| Moved (src dst : string)
| Removed (p : string)
| MadeDirs (p : string)
| RemovedDir (p : string)
| RemovedTree (p : string)
| Rdfind (log : list Proc.event) (deleted : list string).

(** One step of [os.walk]: [(root, dirs, files)]. *)
Definition walk_step : Type := string * list string * list string.

Inductive entry :=
| RegularFile
| Directory (walk : list walk_step).

Record state := {
  wd : string;
  entries : list (string * entry);
  files : gset string;
  dirs : gset string;
  cwd : string;
  trace : list event
}.

Definition step_files (s : walk_step) : list string :=
  map (OsPath.join s.1.1) s.2.
Definition entry_files (w : string) (e : string * entry) : list string :=
  match e.2 with
  | RegularFile => [OsPath.join w e.1]
  | Directory walk => flat_map step_files walk
  end.
Definition entry_dirs (w : string) (e : string * entry) : list string :=
  match e.2 with
  | RegularFile => []
  | Directory walk => OsPath.join w e.1 :: map (fun s : walk_step => s.1.1) walk
  end.

(** The regular files under the working directory, in listing order. *)
Definition working_files (σ : state) : list string :=
  flat_map (entry_files (wd σ)) (entries σ).

Definition all_files (σ : state) : gset string :=
  files σ ∪ list_to_set (working_files σ).
Definition all_dirs (σ : state) : gset string :=
  dirs σ ∪ {[wd σ]} ∪ list_to_set (flat_map (entry_dirs (wd σ)) (entries σ)).
Definition all_paths (σ : state) : gset string := all_files σ ∪ all_dirs σ.

Definition path_exists (σ : state) (p : string) : bool :=
  bool_decide (p ∈ all_paths σ).

(** *** The monad of file-system computations *)

Definition M (A : Type) : Type := state -> res A * state.

Definition ret {A} (a : A) : M A := fun σ => (Ok a, σ).
Definition bind {A B} (m : M A) (k : A -> M B) : M B :=
  fun σ =>
    match m σ with
    | (Ok a, σ') => k a σ'
    | (Raise e, σ') => (Raise e, σ')
    | (OutOfFuel, σ') => (OutOfFuel, σ')
    end.
Definition raise {A} (e : exn) : M A := fun σ => (Raise e, σ).
Definition out_of_fuel {A} : M A := fun σ => (OutOfFuel, σ).
Definition get : M state := fun σ => (Ok σ, σ).
Definition log (e : event) : M unit :=
  fun σ => (Ok tt, {| wd := wd σ; entries := entries σ; files := files σ;
                      dirs := dirs σ; cwd := cwd σ; trace := trace σ ++ [e] |}).

(** [try: m except Exception: handler] *)
Definition try_except {A} (m : M A) (handler : exn -> M A) : M A :=
  fun σ =>
    match m σ with
    | (Raise e, σ') => handler e σ'
    | r => r
    end.

Declare Scope fs_scope.
Delimit Scope fs_scope with fs.
Notation "x <- m ;; k" := (bind m (fun x => k))
  (at level 100, m at next level, k at level 200, right associativity) : fs_scope.
Notation "m ;; k" := (bind m (fun _ => k))
  (at level 100, k at level 200, right associativity) : fs_scope.
Local Open Scope fs_scope.

(** [for x in l: body(x)] *)
Fixpoint for_each {X} (l : list X) (body : X -> M unit) : M unit :=
  match l with
  | [] => ret tt
  | x :: l' => body x ;; for_each l' body
  end.

(** A [for] loop that updates local variables [acc]. *)
Fixpoint fold_each {X S} (l : list X) (acc : S) (body : X -> S -> M S) : M S :=
  match l with
  | [] => ret acc
  | x :: l' => acc' <- body x acc ;; fold_each l' acc' body
  end.

(** *** Operations of [os], [os.path] and [shutil] *)

Definition os_path_exists (p : string) : M bool :=
  fun σ => (Ok (path_exists σ p), σ).

Definition os_path_isdir (p : string) : M bool :=
  fun σ => (Ok (bool_decide (p ∈ all_dirs σ)), σ).

Definition os_getcwd : M string := fun σ => (Ok (cwd σ), σ).

(** [os.listdir(p)]: only the working directory can be listed. *)
Definition os_listdir (p : string) : M (list string) :=
  fun σ => if String.eqb p (wd σ) then (Ok (map fst (entries σ)), σ)
           else (Raise (FileNotFoundError p), σ).

(** [os.walk(p)] for an entry of the working directory; nothing for
    anything else. *)
Definition os_walk (p : string) : M (list walk_step) :=
  fun σ =>
    (Ok (flat_map (fun e : string * entry =>
           match e.2 with
           | Directory walk => if String.eqb (OsPath.join (wd σ) e.1) p then walk else []
           | RegularFile => []
           end) (entries σ)), σ).

Definition keep_other (root p : string) (name : string) : bool :=
  negb (String.eqb (OsPath.join root name) p).

Definition remove_from_entry (w p : string) (e : string * entry)
  : list (string * entry) :=
  match e.2 with
  | RegularFile => if String.eqb (OsPath.join w e.1) p then [] else [e]
  | Directory walk =>
      [(e.1, Directory (map (fun s : walk_step =>
                               (s.1.1, s.1.2, List.filter (keep_other s.1.1 p) s.2)) walk))]
  end.

(** [os.remove(p)] *)
Definition os_remove (p : string) : M unit :=
  fun σ =>
    if bool_decide (p ∈ all_files σ) then
      (Ok tt, {| wd := wd σ;
                 entries := flat_map (remove_from_entry (wd σ) p) (entries σ);
                 files := files σ ∖ {[p]};
                 dirs := dirs σ; cwd := cwd σ;
                 trace := trace σ ++ [Removed p] |})
    else (Raise (FileNotFoundError p), σ).

(** Where a copy to [dst] lands: inside [dst] when that is a directory. *)
Definition copy_target (σ : state) (src dst : string) : string :=
  if bool_decide (dst ∈ all_dirs σ) then OsPath.join dst (OsPath.basename src) else dst.

(** [shutil.copy2(src, dst)] *)
Definition shutil_copy2 (src dst : string) : M unit :=
  fun σ =>
    if bool_decide (src ∈ all_files σ) then
      let target := copy_target σ src dst in
      (Ok tt, {| wd := wd σ; entries := entries σ;
                 files := files σ ∪ {[target]};
                 dirs := dirs σ; cwd := cwd σ;
                 trace := trace σ ++ [Copied src target] |})
    else (Raise (FileNotFoundError src), σ).

(** [shutil.move(src, dst)] for a regular file [src]. *)
Definition shutil_move (src dst : string) : M unit :=
  fun σ =>
    if bool_decide (src ∈ all_files σ) then
      let target := copy_target σ src dst in
      (Ok tt, {| wd := wd σ;
                 entries := flat_map (remove_from_entry (wd σ) src) (entries σ);
                 files := (files σ ∖ {[src]}) ∪ {[target]};
                 dirs := dirs σ; cwd := cwd σ;
                 trace := trace σ ++ [Moved src target] |})
    else (Raise (FileNotFoundError src), σ).

(** [os.makedirs(p, exist_ok=True)] *)
Definition os_makedirs (p : string) : M unit :=
  fun σ =>
    if bool_decide (p ∈ all_dirs σ) then (Ok tt, σ)
    else if bool_decide (p ∈ all_files σ) then (Raise (FileExistsError p), σ)
    else (Ok tt, {| wd := wd σ; entries := entries σ; files := files σ;
                    dirs := dirs σ ∪ {[p]}; cwd := cwd σ;
                    trace := trace σ ++ [MadeDirs p] |}).

Definition step_empty (s : walk_step) : bool :=
  match s.1.2, s.2 with
  | [], [] => true
  | _, _ => false
  end.

(** [p] is a directory of the working tree with nothing left in it. *)
Definition removable (σ : state) (p : string) : bool :=
  existsb (fun e : string * entry =>
             match e.2 with
             | RegularFile => false
             | Directory walk =>
                 existsb (fun s : walk_step => String.eqb s.1.1 p && step_empty s) walk
             end) (entries σ).

Definition rmdir_in_walk (p : string) (walk : list walk_step) : list walk_step :=
  map (fun s : walk_step => (s.1.1, List.filter (keep_other s.1.1 p) s.1.2, s.2))
      (List.filter (fun s : walk_step => negb (String.eqb s.1.1 p)) walk).

Definition rmdir_in_entry (w p : string) (e : string * entry)
  : list (string * entry) :=
  match e.2 with
  | RegularFile => [e]
  | Directory walk =>
      if String.eqb (OsPath.join w e.1) p then []
      else [(e.1, Directory (rmdir_in_walk p walk))]
  end.

(** [os.rmdir(p)] *)
Definition os_rmdir (p : string) : M unit :=
  fun σ =>
    if removable σ p then
      (Ok tt, {| wd := wd σ;
                 entries := flat_map (rmdir_in_entry (wd σ) p) (entries σ);
                 files := files σ; dirs := dirs σ; cwd := cwd σ;
                 trace := trace σ ++ [RemovedDir p] |})
    else (Raise (DirectoryNotEmpty p), σ).

(** [shutil.rmtree(p)] of the working directory. *)
Definition shutil_rmtree (p : string) : M unit :=
  fun σ =>
    if String.eqb p (wd σ) then
      (Ok tt, {| wd := wd σ; entries := []; files := files σ; dirs := dirs σ;
                 cwd := cwd σ; trace := trace σ ++ [RemovedTree p] |})
    else (Raise (FileNotFoundError p), σ).

(** What rdfind leaves behind: the files in [deleted] are gone. *)
Definition rdfind_disk (log : list Proc.event) (deleted : list string) : M unit :=
  fun σ =>
    (Ok tt, {| wd := wd σ;
               entries := foldl (fun es p => flat_map (remove_from_entry (wd σ) p) es)
                                (entries σ) deleted;
               files := files σ ∖ list_to_set deleted;
               dirs := dirs σ; cwd := cwd σ;
               trace := trace σ ++ [Rdfind log deleted] |}).

End Fs.

(** ** Organising the recovered files ([organise_files.py]) *)

Module OrganiseFiles.
Import PyStr Fs.
Local Open Scope fs_scope.
Local Open Scope nat_scope.

(** The [while os.path.exists(dest_path)] loop of [_get_unique_path]. *)
Fixpoint unique_path_loop (fuel : nat) (directory base_name ext : string)
    (counter : nat) (dest_path : string) : M string :=
  match fuel with
  | O => out_of_fuel
  | S fuel' =>
      taken <- os_path_exists dest_path ;;
      if taken : bool then
        let new_name := base_name +:+ "_" +:+ pretty counter +:+ ext in
        unique_path_loop fuel' directory base_name ext (S counter)
          (OsPath.join directory new_name)
      else ret dest_path
  end.

(** [_get_unique_path(directory, filename)]; the loop may turn once per
    existing path and once more. *)
Definition _get_unique_path (directory filename : string) : M string :=
  σ <- get ;;
  let dest_path := OsPath.join directory filename in
  let '(base_name, ext) := OsPath.splitext filename in
  unique_path_loop (S (S (size (all_paths σ)))) directory base_name ext 1 dest_path.

(** [file in ["report.xml"] or file.endswith("_report.xml")] *)
Definition is_report (file : string) : bool :=
  String.eqb file "report.xml" || endswith file "_report.xml".

(** [filename.lower().startswith('b')] *)
Definition is_corrupted_name (filename : string) : bool :=
  startswith (lower filename) "b".

(** [os.path.splitext(file)[1][1:].lower()] *)
Definition extension_of (file : string) : string :=
  lower (drop1 (OsPath.splitext file).2).

(** The local variables of one scan: [current_ext] and [files_no_ext]. *)
Definition scan_vars : Type := option string * list string.

(** The body of [for file in files] in the scan of [organize_files_by_type]. *)
Definition scan_file (root file : string) (v : scan_vars) : M scan_vars :=
  if is_report file then
    try_except (os_remove (OsPath.join root file)) (fun _ => ret tt) ;;
    ret v
  else if contains "." file && negb (startswith file ".") then
    let ext := extension_of file in
    if truthy ext && negb (bool_decide (is_Some v.1)) then ret (Some ext, v.2)
    else ret v
  else ret (v.1, v.2 ++ [OsPath.join root file]).

(** [for dir_path in photorec_dirs: for root, dirs, files in os.walk(dir_path):
     for file in files: ...] *)
Definition scan (photorec_dirs : list string) : M scan_vars :=
  fold_each photorec_dirs (None, []) (fun dir_path v =>
    walk <- os_walk dir_path ;;
    fold_each walk v (fun s v => fold_each s.2 v (scan_file s.1.1))).

(** The body of the loop of [_process_files_without_extension]. *)
Definition move_file_without_extension (no_ext_dir corrupted_dir file_path : string)
    (processed : nat) : M nat :=
  let filename := OsPath.basename file_path in
  dest <- (if is_corrupted_name filename then
             os_makedirs corrupted_dir ;;
             _get_unique_path corrupted_dir filename
           else _get_unique_path no_ext_dir filename) ;;
  shutil_copy2 file_path dest ;;
  os_remove file_path ;;
  ret (processed + 1).

(** [_process_files_without_extension(files, dest_path)] *)
Definition _process_files_without_extension (files : list string) (dest_path : string)
  : M nat :=
  let no_ext_dir := OsPath.join dest_path "no_file_type" in
  let corrupted_dir := OsPath.join dest_path "corrupted" in
  os_makedirs no_ext_dir ;;
  fold_each files 0 (move_file_without_extension no_ext_dir corrupted_dir).

(** The body of [for file in files] in [_process_files_with_extension]. *)
Definition move_file_with_extension (filetype_dir corrupted_dir extension root file : string)
    (processed : nat) : M nat :=
  if endswith (lower file) ("." +:+ extension) then
    let src := OsPath.join root file in
    dest <- (if is_corrupted_name file then
               os_makedirs corrupted_dir ;;
               _get_unique_path corrupted_dir file
             else _get_unique_path filetype_dir file) ;;
    shutil_copy2 src dest ;;
    os_remove src ;;
    ret (processed + 1)
  else ret processed.

(** [_process_files_with_extension(photorec_dirs, extension, dest_path)] *)
Definition _process_files_with_extension (photorec_dirs : list string)
    (extension dest_path : string) : M nat :=
  let filetype_dir := OsPath.join dest_path extension in
  let corrupted_dir := OsPath.join dest_path "corrupted" in
  os_makedirs filetype_dir ;;
  fold_each photorec_dirs 0 (fun dir_path processed =>
    walk <- os_walk dir_path ;;
    fold_each walk processed (fun s processed =>
      fold_each s.2 processed
        (move_file_with_extension filetype_dir corrupted_dir extension s.1.1))).

(** [_cleanup_empty_dirs(photorec_dirs)]; bottom-up, a directory comes
    after everything below it. *)
Definition _cleanup_empty_dirs (photorec_dirs : list string) : M unit :=
  for_each photorec_dirs (fun dir_path =>
    walk <- os_walk dir_path ;;
    for_each (rev walk) (fun s =>
      for_each s.1.2 (fun dirname =>
        try_except (os_rmdir (OsPath.join s.1.1 dirname)) (fun _ => ret tt))) ;;
    try_except (os_rmdir dir_path) (fun _ => ret tt)).

(** The [while True] loop of [organize_files_by_type]. *)
Fixpoint organize_loop (fuel : nat) (photorec_dirs : list string) (dest_path : string)
    (processed : nat) : M nat :=
  match fuel with
  | O => out_of_fuel
  | S fuel' =>
      v <- scan photorec_dirs ;;
      match v with
      | (None, []) => ret processed
      | (None, files_no_ext) =>
          n <- _process_files_without_extension files_no_ext dest_path ;;
          organize_loop fuel' photorec_dirs dest_path (processed + n)
      | (Some current_ext, _) =>
          n <- _process_files_with_extension photorec_dirs current_ext dest_path ;;
          organize_loop fuel' photorec_dirs dest_path (processed + n)
      end
  end.

(** The directories of the working directory whose names start with
    [recovered_files]. *)
Definition find_photorec_dirs (working_path : string) : M (list string) :=
  items <- os_listdir working_path ;;
  fold_each items [] (fun item photorec_dirs =>
    let item_path := OsPath.join working_path item in
    d <- os_path_isdir item_path ;;
    if (d : bool) && startswith item "recovered_files"
    then ret (photorec_dirs ++ [item_path]) else ret photorec_dirs).

(** [organize_files_by_type(working_path, dest_path, enable_logs)]; the
    loop may turn once per file under the working directory and twice
    more. *)
Definition organize_files_by_type (working_path dest_path : string)
    (enable_logs : bool) : M bool :=
  try_except
    (photorec_dirs <- find_photorec_dirs working_path ;;
     match photorec_dirs with
     | [] => ret false
     | _ =>
         σ <- get ;;
         processed <- organize_loop (S (S (length (working_files σ))))
                        photorec_dirs dest_path 0 ;;
         _cleanup_empty_dirs photorec_dirs ;;
         ret (bool_decide (0 < processed))
     end)
    (fun _ => ret false).

(** The paths [_get_unique_path] tries, in order: the plain one, then
    the numbered ones. *)
Definition candidate (directory filename : string) (k : nat) : string :=
  match k with
  | O => OsPath.join directory filename
  | S _ =>
      let '(base_name, ext) := OsPath.splitext filename in
      OsPath.join directory (base_name +:+ "_" +:+ pretty k +:+ ext)
  end.

(** [a or b] for a path that may be [None] or empty. *)
Definition or_else (a : option string) (b : string) : string :=
  match a with
  | Some s => if truthy s then s else b
  | None => b
  end.

(** [filename.endswith(('.img', '.map'))] *)
Definition is_image_or_map (filename : string) : bool :=
  endswith filename ".img" || endswith filename ".map".

(** [move_image_files_to_destination(working_dir, dest_path, device_path)] *)
Definition move_image_files_to_destination (working_dir dest_path : string)
    (device_path : option string) : M unit :=
  try_except
    (let working_dest := OsPath.join dest_path "WORKING" in
     os_makedirs working_dest ;;
     let target_files : option (list string) :=
       match device_path with
       | Some dp =>
           if truthy dp then
             let device_name := OsPath.basename dp in
             if negb (any_digit device_name)
             then Some [device_name +:+ ".img"; device_name +:+ ".map"]
             else None
           else None
       | None => None
       end in
     names <- os_listdir working_dir ;;
     for_each names (fun filename =>
       if is_image_or_map filename then
         let src_file := OsPath.join working_dir filename in
         if match target_files with
            | None => true
            | Some l => bool_decide (filename ∈ l)
            end
         then shutil_move src_file (OsPath.join working_dest filename)
         else os_remove src_file
       else ret tt))
    (fun _ => ret tt).

(** [_cleanup_image_files(working_dir)] *)
Definition _cleanup_image_files (working_dir : string) : M unit :=
  try_except
    (names <- os_listdir working_dir ;;
     for_each names (fun filename =>
       if is_image_or_map filename
       then os_remove (OsPath.join working_dir filename)
       else ret tt))
    (fun _ => ret tt).

(** [potential_log_locations] of [_handle_log_files]. *)
Definition potential_log_locations (current_dir working_path : string)
  : list (string * string) :=
  let recovery_dir := OsPath.join working_path "recovered_files" in
  [ (OsPath.join current_dir "photorec.log", "recovery_results.log");
    (OsPath.join working_path "photorec.log", "recovery_results.log");
    (OsPath.join recovery_dir "photorec.log", "recovery_results.log");
    (OsPath.join current_dir "results.txt", "duplicates_results.log");
    (OsPath.join working_path "results.txt", "duplicates_results.log");
    (OsPath.join recovery_dir "results.txt", "duplicates_results.log");
    (OsPath.join working_path "DataRecovery.log", "DataRecovery.log") ].

(** [_handle_log_files(working_path, dest_path, enable_logs)] *)
Definition _handle_log_files (working_path dest_path : string) (enable_logs : bool)
  : M unit :=
  current_dir <- os_getcwd ;;
  let locations := potential_log_locations current_dir working_path in
  let logs_dir := OsPath.join (OsPath.join dest_path "WORKING") "logs" in
  if enable_logs then
    os_makedirs logs_dir ;;
    _ <- fold_each locations [] (fun loc (processed_files : list string) =>
           present <- os_path_exists loc.1 ;;
           if (present : bool) && negb (bool_decide (loc.1 ∈ processed_files)) then
             dest_path_full <- _get_unique_path logs_dir loc.2 ;;
             shutil_move loc.1 dest_path_full ;;
             ret (processed_files ++ [loc.1])
           else ret processed_files) ;;
    ret tt
  else
    _ <- fold_each locations [] (fun loc (processed_files : list string) =>
           try_except
             (present <- os_path_exists loc.1 ;;
              if (present : bool) && negb (bool_decide (loc.1 ∈ processed_files)) then
                os_remove loc.1 ;;
                ret (processed_files ++ [loc.1])
              else ret processed_files)
             (fun _ => ret processed_files)) ;;
    ret tt.

(** The call of [remove_duplicates_with_rdfind] inside the organiser: an
    exception of it would unwind the organiser; rdfind, once started,
    leaves its deletions on the disk. *)
Definition dedup_step (recovery_dir : string) (controller : bool) (E : Duplicates.env)
  : M unit :=
  let '(log, r) := Duplicates.remove_duplicates_with_rdfind recovery_dir controller E in
  (if Duplicates.launched log then rdfind_disk log (Duplicates.deleted E)
   else rdfind_disk log []) ;;
  match r with
  | Proc.Returned _ => ret tt
  | Proc.Raised e => raise (ForeignError (Proc.message e))
  end.

(** What [organize_and_cleanup] does after the duplicate removal. *)
Definition after_dedup (working_dir : option string) (dest_path : string)
    (enable_logs : bool) : M bool :=
  let wd := or_else working_dir dest_path in
  _handle_log_files wd dest_path enable_logs ;;
  success <- organize_files_by_type wd dest_path enable_logs ;;
  (if (success : bool) && from_option truthy false working_dir then
     try_except (shutil_rmtree (default "" working_dir)) (fun _ => ret tt)
   else ret tt) ;;
  ret success.

(** What [organize_and_cleanup] does with the image files. *)
Definition image_step (working_dir : option string) (dest_path : string)
    (save_image : bool) (device_path : option string) : M unit :=
  let wd := or_else working_dir dest_path in
  if save_image then move_image_files_to_destination wd dest_path device_path
  else _cleanup_image_files wd.

(** [organize_and_cleanup(working_dir, dest_path, save_image, enable_logs,
     remove_duplicates, device_path, controller)] *)
Definition organize_and_cleanup (working_dir : option string) (dest_path : string)
    (save_image enable_logs remove_duplicates : bool) (device_path : option string)
    (controller : bool) (E : Duplicates.env) : M bool :=
  let recovery_dir := OsPath.join (or_else working_dir dest_path) "recovered_files" in
  image_step working_dir dest_path save_image device_path ;;
  (if remove_duplicates then dedup_step recovery_dir controller E else ret tt) ;;
  after_dedup working_dir dest_path enable_logs.

(** *** Vocabulary of the properties *)

(** File names as [os.walk] gives them hold no separator. *)
Definition clean_step (s : walk_step) : Prop :=
  Forall (fun file => contains OsPath.sep file = false) s.2.
Definition clean_entry (e : string * entry) : Prop :=
  match e.2 with
  | RegularFile => True
  | Directory walk => Forall clean_step walk
  end.
Definition wf_entries (es : list (string * entry)) : Prop := Forall clean_entry es.
Definition wf_names (σ : state) : Prop := wf_entries (entries σ).

(** [p] lies in the bucket [bucket] of the destination, under a
    relative name. *)
Definition in_bucket (dest_path bucket p : string) : Prop :=
  exists name, startswith name "/" = false /\
               p = OsPath.join (OsPath.join dest_path bucket) name.

(** A copy of a file with a corrupted-output name lands in the bucket
    [corrupted] and in no other bucket. *)
Definition routed (dest_path : string) (e : event) : Prop :=
  match e with
  | Copied src dst =>
      is_corrupted_name (OsPath.basename src) = true ->
      in_bucket dest_path "corrupted" dst /\
      forall bucket, bucket <> "" -> contains OsPath.sep bucket = false ->
                     bucket <> "corrupted" -> ~ in_bucket dest_path bucket dst
  | _ => True
  end.

(** What the organiser keeps true of the file system: names stay free of
    separators and everything done since the trace [t0] is well routed. *)
Definition routing_inv (dest_path : string) (t0 : list event) (σ : state) : Prop :=
  wf_names σ /\
  exists new, trace σ = t0 ++ new /\ Forall (routed dest_path) new.

(** [m] ends within the bound the model gives its loops. *)
Definition in_time {A} (m : M A) : Prop :=
  forall σ, (m σ).1 <> OutOfFuel.

(** The copies made, in order. *)
Definition copies (t : list event) : list (string * string) :=
  omap (fun e => match e with Copied src dst => Some (src, dst) | _ => None end) t.

(** Hoare triples: from a state in [P], [m] ends in [Q] with its value,
    or in [E] when it raises or runs out of fuel. *)
Definition hoare {A} (P : state -> Prop) (m : M A)
    (Q : A -> state -> Prop) (E : state -> Prop) : Prop :=
  forall σ, P σ ->
    match m σ with
    | (Ok a, σ') => Q a σ'
    | (_, σ') => E σ'
    end.

End OrganiseFiles.
(** ** The job controller ([application.py]) *)

Module Application.

(** The switches of the window, as [_run_recovery_process] reads them. *)
Record options := {
  save_image : bool;
  enable_logs : bool;
  keep_corrupted_files : bool;
  remove_duplicates : bool;
  scan_partitions : bool
}.

(** Phase 3 of [_run_recovery_process]:
    [organize_and_cleanup(working_dir, dest, save_image, enable_logs,
     remove_duplicates, device, self)]. *)
Definition organise_phase (o : options) (working_dir dest device : string)
    (E : Duplicates.env) : Fs.M bool :=
  OrganiseFiles.organize_and_cleanup (Some working_dir) dest
    (save_image o) (enable_logs o) (remove_duplicates o) (Some device) true E.

End Application.
(** ** The recovery job ([application.py], [_run_recovery_process]) *)

Module RecoveryProcess.
Import PyStr.

(** The places where the job reads [self.cancel_requested]. *)
Inductive checkpoint :=
| AtStart
| AsImageFile
| AsDevice
| BeforeImaging
| BeforeRecovery
| BeforeOrganise
| AfterOrganise.

Record env := {
  (** [self.cancel_requested] at each place it is read *)
  cancel_requested : checkpoint -> bool;
  (** the paths of [device_dropdown_manager.partitions] *)
  partition_paths : list string;
  (** the switches of the window *)
  options : Application.options;
  (** the exception [shutil.copy2] raises, if it does *)
  copy_error : option string;
  (** the result of [pkexec_ddrescue] for a list of partitions *)
  imaging_success : list string -> bool;
  (** the result of [photorec_recover] *)
  recovery_success : bool;
  (** the result of [organize_and_cleanup], [None] when it raises *)
  organise_result : option bool
}.

Inductive event :=
| Label (text : string)
| Info (msg : string)
| Error (msg : string)
| CopyImage (src dst : string)
| Imaging (device working_dir : string) (partitions : list string)
| Recovering (dest working_dir : string) (enable_logs keep_corrupted_files : bool)
| Organising (working_dir dest : string) (save_image enable_logs remove_duplicates : bool)
    (device : string)
| CloseDialog.

(** How a block ends: it goes on, the function returns, or an exception
    leaves it. *)
Inductive flow (A : Type) :=
| Go (a : A)
| Return
| Raise.
Arguments Go {A} a.
Arguments Return {A}.
Arguments Raise {A}.

Definition job (A : Type) : Type := list event * flow A.

Definition ret {A} (a : A) : job A := ([], Go a).
Definition bind {A B} (m : job A) (k : A -> job B) : job B :=
  match m with
  | (ev, Go a) => let '(ev', r) := k a in (ev ++ ev', r)
  | (ev, Return) => (ev, Return)
  | (ev, Raise) => (ev, Raise)
  end.
Definition emit (e : event) : job unit := ([e], Go tt).
Definition return_ {A} : job A := ([], Return).
Definition raise {A} : job A := ([], Raise).
Definition finally {A} (m : job A) (e : event) : job A := (fst m ++ [e], snd m).

Declare Scope job_scope.
Delimit Scope job_scope with job.
Notation "x <- m ;; k" := (bind m (fun x => k))
  (at level 100, m at next level, k at level 200, right associativity) : job_scope.
Notation "m ;; k" := (bind m (fun _ => k))
  (at level 100, k at level 200, right associativity) : job_scope.
Local Open Scope job_scope.

(** [if self.cancel_requested: self.set_output_label("Recovery cancelled"); return] *)
Definition check_cancel (E : env) (c : checkpoint) : job unit :=
  if cancel_requested E c then emit (Label "Recovery cancelled") ;; return_
  else ret tt.

(** [str(b)] for a boolean. *)
Definition str_bool (b : bool) : string := if b then "True" else "False".

(** The partitions of [device] to image on their own. *)
Definition device_partition_paths (E : env) (device : string) : list string :=
  List.filter (fun p => startswith p device && negb (String.eqb p device))
              (partition_paths E).

(** The branch for a source that is an image file. *)
Definition use_image_file (E : env) (device working_dir : string) : job unit :=
  check_cancel E AsImageFile ;;
  emit (Info "Source is an image file - skipping ddrescue phase") ;;
  let image_filename := OsPath.basename device in
  let working_image_path := OsPath.join working_dir image_filename in
  if negb (String.eqb device working_image_path) then
    emit (Label "Copying image file to working directory...") ;;
    emit (Info ("Copying " +:+ device +:+ " to " +:+ working_image_path)) ;;
    emit (CopyImage device working_image_path) ;;
    match copy_error E with
    | None => emit (Info "Image file copied successfully")
    | Some e =>
        emit (Label "Failed to copy image file. Aborting recovery process.") ;;
        emit (Error ("Failed to copy image file: " +:+ e)) ;;
        return_
    end
  else ret tt.

(** The branch for a source that is a device. *)
Definition image_device (E : env) (device working_dir : string) : job unit :=
  check_cancel E AsDevice ;;
  let scan_partitions := Application.scan_partitions (options E) in
  let paths := if scan_partitions then device_partition_paths E device else [] in
  (if scan_partitions then
     match paths with
     | [] => emit (Info "No partitions found for separate imaging")
     | _ => emit (Info ("Will create separate images for " +:+ pretty (length paths)
                          +:+ " partitions: " +:+ repr_list paths))
     end
   else emit (Info "Partition imaging disabled - will only image the whole device")) ;;
  check_cancel E BeforeImaging ;;
  emit (Label "Creating device image...") ;;
  emit (Info (nl +:+ "=== Phase 1: Creating Disk Image ===")) ;;
  emit (Imaging device working_dir paths) ;;
  if negb (imaging_success E paths) then
    emit (Label "Failed to create device image. Aborting recovery process.") ;;
    emit (Error "Failed to create device image. Aborting recovery process.") ;;
    return_
  else ret tt.

(** The part of the body from the scan on. *)
Definition scan_and_organise (E : env) (device dest working_dir : string) : job unit :=
  check_cancel E BeforeRecovery ;;
  emit (Label "Starting recovery from image...") ;;
  emit (Info (nl +:+ "=== Phase 2: Running File Recovery ===")) ;;
  let o := options E in
  emit (Info ("Save image files: " +:+ str_bool (Application.save_image o))) ;;
  emit (Info ("Enable PhotoRec logs: " +:+ str_bool (Application.enable_logs o))) ;;
  emit (Info ("Keep corrupted files: "
                +:+ str_bool (Application.keep_corrupted_files o))) ;;
  emit (Info ("Remove duplicate files: "
                +:+ str_bool (Application.remove_duplicates o))) ;;
  emit (Recovering dest working_dir (Application.enable_logs o)
          (Application.keep_corrupted_files o)) ;;
  (if negb (recovery_success E) then
     emit (Label "Recovery process failed.") ;;
     emit (Error "File recovery process failed") ;;
     return_
   else ret tt) ;;
  check_cancel E BeforeOrganise ;;
  emit (Label "Organising recovered files...") ;;
  emit (Info (nl +:+ "=== Phase 3: Organising Files ===")) ;;
  emit (Organising working_dir dest (Application.save_image o) (Application.enable_logs o)
          (Application.remove_duplicates o) device) ;;
  match organise_result E with None => raise | Some _ => ret tt end ;;
  check_cancel E AfterOrganise ;;
  emit (Label "File recovery process completed successfully") ;;
  emit (Info "File recovery process completed successfully") ;;
  emit (Info (nl +:+ "Recovery process finished.")).

(** The body of the [try] of [_run_recovery_process]. *)
Definition recovery_body (E : env) (device dest working_dir : string) : job unit :=
  check_cancel E AtStart ;;
  emit (Label "Starting data recovery...") ;;
  emit (Info (nl +:+ "Starting Data Recovery Process...")) ;;
  emit (Info ("Source: " +:+ device)) ;;
  emit (Info ("Destination path: " +:+ dest)) ;;
  emit (Info ("Using working directory: " +:+ working_dir)) ;;
  let is_image_file := negb (startswith device "/dev/") in
  (if is_image_file then use_image_file E device working_dir
   else image_device E device working_dir) ;;
  scan_and_organise E device dest working_dir.

(** [_run_recovery_process(device, dest, working_dir)]: the body under
    its [finally], which asks the main loop to close the dialog. *)
Definition _run_recovery_process (E : env) (device dest working_dir : string)
  : job unit :=
  finally (recovery_body E device dest working_dir) CloseDialog.

(** *** Vocabulary of the properties *)

Definition imaging_started (ev : list event) : bool :=
  existsb (fun e => match e with Imaging _ _ _ => true | _ => false end) ev.
Definition recovery_started (ev : list event) : bool :=
  existsb (fun e => match e with Recovering _ _ _ _ => true | _ => false end) ev.
Definition organising_started (ev : list event) : bool :=
  existsb (fun e => match e with Organising _ _ _ _ _ _ => true | _ => false end) ev.
Definition reports_success (ev : list event) : bool :=
  existsb (fun e => match e with
                    | Label text =>
                        String.eqb text "File recovery process completed successfully"
                    | _ => false
                    end) ev.
Definition dialog_closings (ev : list event) : nat :=
  length (List.filter (fun e => match e with CloseDialog => true | _ => false end) ev).

(** The source is ready for the scan: an image file in the working
    directory or copied to it, or a device that has been imaged. *)
Definition source_ready (E : env) (device working_dir : string) : bool :=
  if startswith device "/dev/" then
    negb (cancel_requested E AsDevice) && negb (cancel_requested E BeforeImaging) &&
    imaging_success E (if Application.scan_partitions (options E)
                       then device_partition_paths E device else [])
  else
    negb (cancel_requested E AsImageFile) &&
    (String.eqb device (OsPath.join working_dir (OsPath.basename device)) ||
     bool_decide (copy_error E = None)).

(** The same environment with another outcome of [organize_and_cleanup]. *)
Definition with_organise_result (E : env) (r : option bool) : env :=
  {| cancel_requested := cancel_requested E;
     partition_paths := partition_paths E;
     options := options E;
     copy_error := copy_error E;
     imaging_success := imaging_success E;
     recovery_success := recovery_success E;
     organise_result := r |}.

End RecoveryProcess.
(** ** Further vocabulary: the mount-safety gate *)

Module MountedCheckMore.
Import MountedCheck.

(** The entry counts for the gate: in scope, flagged mounted, with a
    mount path. *)
Definition counts (device_path : string) (bd : block_device) : bool :=
  in_scope device_path bd && mounted bd && mount_path_truthy bd.

(** The [{path, mount_path}] pairs of the entries that count, in the
    order of the device list. *)
Definition mounted_in_scope (device_path : string) (bds : list block_device)
  : list (string * string) :=
  omap (fun bd => if counts device_path bd
                  then Some (path bd, default "" (mount_path bd)) else None) bds.

(** No entry that counts sits on a critical path. *)
Definition no_critical (device_path : string) (bds : list block_device) : Prop :=
  forall bd, bd ∈ bds -> counts device_path bd = true ->
             default "" (mount_path bd) ∉ critical_mounts.

Definition is_unmount (e : event) : option string :=
  match e with Unmount p => Some p | _ => None end.

End MountedCheckMore.
(** ** Further vocabulary: the imaging helper *)

Module ImageHelperMore.
Import ImageHelper.

(** Two observations of an iteration that differ at most in what
    [os.chown] does. *)
Definition same_but_chown (w w' : step_env) : Prop :=
  cancel_at_loop w = cancel_at_loop w' /\ cancel_at_run w = cancel_at_run w' /\
  polls w = polls w' /\ exits_on_terminate w = exits_on_terminate w' /\
  returncode w = returncode w'.

(** The number of one-second sleeps in a trace. *)
Definition sleeps (ev : list event) : nat :=
  length (List.filter (fun e => match e with Sleep => true | _ => false end) ev).

Definition has_event (e : event) (ev : list event) : bool :=
  existsb (fun x => match e, x with
                    | Terminate, Terminate => true
                    | Kill, Kill => true
                    | _, _ => false
                    end) ev.

(** The number of times a trace removes the pid file and the cancel
    flag. *)
Definition cleanups (ev : list event) : nat :=
  length (List.filter (fun e => match e with Cleanup => true | _ => false end) ev).

End ImageHelperMore.
(** ** Further vocabulary: child processes *)

Module ProcMore.
Import Proc.

(** Whether a trace sends [terminate()] to a child. *)
Definition terminated (ev : list event) : bool :=
  existsb (fun e => match e with Terminate => true | _ => false end) ev.

(** Whether a trace sends [kill()] to a child. *)
Definition killed (ev : list event) : bool :=
  existsb (fun e => match e with Kill => true | _ => false end) ev.

(** The number of one-second sleeps in a trace. *)
Definition sleeps (ev : list event) : nat :=
  length (List.filter (fun e => match e with Sleep => true | _ => false end) ev).

(** The messages logged, in order. *)
Definition logged (ev : list event) : list string :=
  omap (fun e => match e with Log _ msg => Some msg | _ => None end) ev.

End ProcMore.

Module RecoverMore.
Import Proc ProcMore Recover.

(** Whether the scan of one image sees the cancellation flag while the
    child runs. *)
Definition cancel_seen (S : scan_env) (controller : bool) : bool :=
  controller && existsb id (ticks S).

Definition scan_verdict (S : scan_env) (controller : bool) : bool :=
  match popen_error S with
  | Some _ => false
  | None => negb (cancel_seen S controller) && (returncode S =? 0)%Z
  end.

End RecoverMore.

Module DuplicatesMore.
Import Proc Duplicates.

(** Whether the polling loop stops at a turn: the controller asks for
    it, or the clock has passed the timeout. *)
Definition stops (E : env) (controller : bool) (timeout : Z) (t : tick) : bool :=
  (controller && cancel_requested t) || (timeout <? clock t - start_time E)%Z.

(** The timeout the environment configures, when it parses. *)
Definition configured_timeout (E : env) : option Z :=
  py_int (default "1800" (timeout_var E)).

End DuplicatesMore.
(** ** Further vocabulary: the organiser *)

Module OrganiseMore.
Import PyStr Fs OrganiseFiles.

(** ['.' in file and not file.startswith('.')] *)
Definition has_dot (file : string) : bool :=
  contains "." file && negb (startswith file ".").

(** The state [os.remove(p)] leaves when it succeeds. *)
Definition without (σ : state) (p : string) : state :=
  {| wd := wd σ;
     entries := flat_map (remove_from_entry (wd σ) p) (entries σ);
     files := files σ ∖ {[p]};
     dirs := dirs σ; cwd := cwd σ;
     trace := trace σ ++ [Removed p] |}.

(** The state [shutil.copy2(src, dst)] leaves when it succeeds and [dst]
    is no directory. *)
Definition with_copy (σ : state) (src dst : string) : state :=
  {| wd := wd σ; entries := entries σ;
     files := files σ ∪ {[dst]};
     dirs := dirs σ; cwd := cwd σ;
     trace := trace σ ++ [Copied src dst] |}.

(** What [os.walk(p)] yields in a state. *)
Definition walk_of (σ : state) (p : string) : list walk_step :=
  flat_map (fun e : string * entry =>
    match e.2 with
    | Directory walk => if String.eqb (OsPath.join (wd σ) e.1) p then walk else []
    | RegularFile => []
    end) (entries σ).

(** The rule that picks the bucket of a file name: [corrupted] for a
    name that starts with b or B; otherwise [no_file_type] for a name the
    scan counts as having no extension, or the extension of a pass that
    the name ends in. *)
Definition bucket_for (name bucket : string) : Prop :=
  if is_corrupted_name name then bucket = "corrupted"
  else (bucket = "no_file_type" /\ has_dot name = false) \/
       (truthy bucket = true /\ endswith (lower name) ("." +:+ bucket) = true).

(** The shape of what [organize_files_by_type] does to the disk: it
    creates buckets, removes reports, moves files into their buckets by
    copy and removal, and removes directories. *)
Inductive organised (dest_path : string) : list event -> Prop :=
| organised_nil : organised dest_path []
| organised_bucket t bucket :
    organised dest_path t ->
    organised dest_path (t ++ [MadeDirs (OsPath.join dest_path bucket)])
| organised_report t p :
    is_report (OsPath.basename p) = true ->
    organised dest_path t ->
    organised dest_path (t ++ [Removed p])
| organised_file t src bucket k :
    bucket_for (OsPath.basename src) bucket ->
    organised dest_path t ->
    organised dest_path
      (t ++ [Copied src (candidate (OsPath.join dest_path bucket) (OsPath.basename src) k);
             Removed src])
| organised_rmdir t p :
    organised dest_path t ->
    organised dest_path (t ++ [RemovedDir p]).

Definition organised_inv (dest_path : string) (t0 : list event) (σ : state) : Prop :=
  wf_names σ /\ exists new, trace σ = t0 ++ new /\ organised dest_path new.

(** What a scan has in its local variables. *)
Definition scan_ok (v : scan_vars) : Prop :=
  (forall ext, v.1 = Some ext -> truthy ext = true) /\
  Forall (fun p => has_dot (OsPath.basename p) = false) v.2.

(** Whatever state [m] starts from, the events it adds all satisfy [P]. *)
Definition emits {A} (P : event -> Prop) (m : M A) : Prop :=
  forall σ, exists new, trace (m σ).2 = trace σ ++ new /\ Forall P new.

(** [target_files] of [move_image_files_to_destination]: the names a
    whole-device job keeps, or [None] when every image is kept. *)
Definition target_files (device_path : option string) : option (list string) :=
  match device_path with
  | Some dp =>
      if truthy dp then
        let device_name := OsPath.basename dp in
        if negb (any_digit device_name)
        then Some [device_name +:+ ".img"; device_name +:+ ".map"]
        else None
      else None
  | None => None
  end.

(** [target_files is None or filename in target_files] *)
Definition kept (device_path : option string) (filename : string) : bool :=
  match target_files device_path with
  | None => true
  | Some l => bool_decide (filename ∈ l)
  end.

(** What [move_image_files_to_destination] may do with the entry
    [filename] of the working directory. *)
Definition image_event (working_dir dest_path : string) (device_path : option string)
    (e : event) : Prop :=
  match e with
  | MadeDirs p => p = OsPath.join dest_path "WORKING"
  | Moved src dst =>
      exists filename,
        is_image_or_map filename = true /\ kept device_path filename = true /\
        src = OsPath.join working_dir filename /\
        let target := OsPath.join (OsPath.join dest_path "WORKING") filename in
        (dst = target \/ dst = OsPath.join target (OsPath.basename src))
  | Removed p =>
      exists filename,
        is_image_or_map filename = true /\ kept device_path filename = false /\
        p = OsPath.join working_dir filename
  | _ => False
  end.

(** What [_handle_log_files] may do, with [current_dir] the directory
    the process runs in. *)
Definition log_event (working_path dest_path current_dir : string) (enable_logs : bool)
    (e : event) : Prop :=
  let locations := potential_log_locations current_dir working_path in
  let logs_dir := OsPath.join (OsPath.join dest_path "WORKING") "logs" in
  match e with
  | MadeDirs p => enable_logs = true /\ p = logs_dir
  | Moved src dst =>
      enable_logs = true /\
      exists dest_name k,
        (src, dest_name) ∈ locations /\
        (dst = candidate logs_dir dest_name k \/
         dst = OsPath.join (candidate logs_dir dest_name k) (OsPath.basename src))
  | Removed p => enable_logs = false /\ p ∈ map fst locations
  | _ => False
  end.

(** [m] returns a value, whatever state it starts from. *)
Definition returns {A} (m : M A) : Prop :=
  forall σ, exists a σ', m σ = (Ok a, σ').

(** The file [file] is listed in the directory [root] by the walk of
    [dir_path]. *)
Definition listed (σ : state) (dir_path root file : string) : Prop :=
  exists s : walk_step, s ∈ walk_of σ dir_path /\ s.1.1 = root /\ file ∈ s.2.

(** [file.lower().endswith(f'.{extension}')] *)
Definition matches (extension file : string) : bool :=
  endswith (lower file) ("." +:+ extension).

(** A walk step without the files at the path [p]. *)
Definition strip (p : string) (s : walk_step) : walk_step :=
  (s.1.1, s.1.2, List.filter (keep_other s.1.1 p) s.2).

(** A name the scan passes over: it has a dot that is not its first
    character, and no extension after its last dot. *)
Definition passed_over (file : string) : Prop :=
  has_dot file = true /\ extension_of file = "".

(** What a scan keeps true of its local variables [v], from the state
    [σ0] it started in: no file has been added, the paths it has
    collected are files of the tree, and the extension it has chosen is
    the extension of a file that is still listed. *)
Definition scan_inv (photorec_dirs : list string) (σ0 : state) (v : scan_vars)
    (σ : state) : Prop :=
  wf_names σ /\
  (length (working_files σ) <= length (working_files σ0))%nat /\
  Forall (fun p => p ∈ working_files σ /\ is_report (OsPath.basename p) = false) v.2 /\
  (forall ext, v.1 = Some ext ->
     exists d root f,
       d ∈ photorec_dirs /\ listed σ d root f /\ matches ext f = true /\
       is_report f = false /\ contains OsPath.sep f = false).

(** The files of [walk] that are no reports are still listed. *)
Definition still_listed (walk : list walk_step) (d : string) (σ : state) : Prop :=
  forall (s : walk_step) f, s ∈ walk -> f ∈ s.2 -> is_report f = false ->
                            listed σ d s.1.1 f.

(** What a pass keeps true of its count [n], from the state [σ1] it
    started in: as long as nothing has been counted the tree is as it
    was, and once something has been counted the tree has fewer files. *)
Definition pass_inv (σ1 : state) (n : nat) (σ : state) : Prop :=
  wf_names σ /\
  (n = 0%nat -> entries σ = entries σ1 /\ wd σ = wd σ1) /\
  ((0 < n)%nat -> (length (working_files σ) < length (working_files σ1))%nat).

(** The directories [organize_files_by_type] works on. *)
Definition photorec_dirs_of (σ : state) (working_path : string) : list string :=
  match (find_photorec_dirs working_path σ).1 with
  | Ok l => l
  | _ => []
  end.

(** Every file the walks of [dirs] list has a name the scan passes
    over. *)
Definition all_passed_over (dirs : list string) (σ : state) : Prop :=
  forall d root f, d ∈ dirs -> listed σ d root f -> passed_over f.

(** The scan has found nothing to do. *)
Definition idle (v : scan_vars) : Prop := v = (None, []).

(** Of the files examined so far, those still listed are passed over,
    if the scan has found nothing to do. *)
Definition examined_ok (Ex : string -> string -> string -> Prop) (v : scan_vars)
    (σ : state) : Prop :=
  idle v -> forall d root f, Ex d root f -> listed σ d root f -> passed_over f.

Definition not_rmtree (e : event) : Prop :=
  match e with RemovedTree _ => False | _ => True end.

(** A tree is removed last, if at all, and then it is the working
    directory and the result is [True]. *)
Definition rmtree_last (working_dir : option string) (new : list event) (r : res bool)
  : Prop :=
  forall pre p post, new = pre ++ RemovedTree p :: post ->
    post = [] /\ working_dir = Some p /\ truthy p = true /\ r = Ok true.

(** The file names of the tree are ASCII text.  On such names Python's
    [str.lower] is [PyStr.lower], and the extension of the lowered name
    is the lowered extension of the name. *)
Definition ascii_step (s : walk_step) : Prop :=
  Forall (fun file => isascii file = true) s.2.
Definition ascii_entry (e : string * entry) : Prop :=
  match e.2 with
  | RegularFile => True
  | Directory walk => Forall ascii_step walk
  end.
Definition ascii_names (σ : state) : Prop := Forall ascii_entry (entries σ).

End OrganiseMore.
(** ** Starting the imaging helper ([image.py]) *)

Module Image.
Import Proc.

Record env := {
  (** [os.path.exists] *)
  present : string -> bool;
  (** [os.getuid()], [os.getgid()] *)
  uid : Z;
  gid : Z;
  (** whether [create_secure_temp_files] succeeds, and the cancel file
      it names *)
  temp_files_ok : bool;
  cancel_file_path : string;
  (** whether [subprocess.Popen] starts pkexec *)
  pkexec_starts : bool;
  (** what the helper observes while it runs *)
  world : ImageHelper.world
}.

(** What the helper's parser keeps of the partitions.
    [run_with_pkexec] writes one [--partitions p] on the command line
    for each path, in order; the helper declares the option with
    [nargs='*'] and the default action, so each occurrence replaces the
    value of the one before: [args.partitions] is the list of the one
    path given last, or the default [[]] when no path is given.  (For
    paths that do not start with "-", which the parser reads as
    options.) *)
Definition parsed_partitions (partition_paths : list string) : list string :=
  option_list (last partition_paths).

(** The helper's arguments, from the constructor of [DDRescueHelper],
    the command line of [run_with_pkexec] and the helper's parser. *)
Definition helper_args (E : env) (device_path dest_path : string)
    (partition_paths : list string) : ImageHelper.Args :=
  {| ImageHelper.device := device_path;
     ImageHelper.dest := dest_path;
     ImageHelper.partitions := parsed_partitions partition_paths;
     ImageHelper.owner_uid := uid E;
     ImageHelper.owner_gid := gid E;
     ImageHelper.cancel_file := cancel_file_path E |}.

(** [_create_and_run_helper(device_path, dest_path, partition_paths,
     owner_uid, owner_gid, controller)]: the helper's trace, empty when
    it is not started, and the result of [run_with_pkexec]. *)
Definition _create_and_run_helper (E : env) (device_path dest_path : string)
    (partition_paths : list string) : list ImageHelper.event * bool :=
  if temp_files_ok E then
    if pkexec_starts E then
      let run := ImageHelper.main (world E)
                   (helper_args E device_path dest_path partition_paths) in
      (fst run,
       ImageHelper.run_with_pkexec true (Some (ImageHelper.exit_status run)))
    else ([], ImageHelper.run_with_pkexec true None)
  else ([], ImageHelper.run_with_pkexec false None).

(** [pkexec_ddrescue(device_path, dest_path, partition_paths,
     partitions_data, controller)]: what it logs before the helper runs,
    the helper's trace, and its result. *)
Definition pkexec_ddrescue (E : env) (device_path dest_path : string)
    (partition_paths : option (list string))
  : list event * list ImageHelper.event * bool :=
  let '(validated_parts, skipped) :=
    Preflight.validate_partition_paths (present E) (default [] partition_paths) in
  let log :=
    Log Info "Attempting device access with ddrescue and pkexec..."
    :: map (fun p => Log Warning ("Partition/image path not valid, skipping: " +:+ p))
           skipped in
  let '(trace, ok) := _create_and_run_helper E device_path dest_path validated_parts in
  (log, trace, ok).

End Image.
(** ** Concrete inputs used by the examples *)

Module Fixtures.

(** A stage that runs for two seconds and exits with [rc]; nobody cancels. *)
Definition step_exits (rc : Z) : ImageHelper.step_env :=
  {| ImageHelper.cancel_at_loop := false;
     ImageHelper.cancel_at_run := false;
     ImageHelper.polls := [false; false];
     ImageHelper.exits_on_terminate := true;
     ImageHelper.returncode := rc;
     ImageHelper.chown_error := None |}.

Definition args_sdb : ImageHelper.Args :=
  {| ImageHelper.device := "/dev/sdb";
     ImageHelper.dest := "/home/u/.local/share/DataRecovery/working";
     ImageHelper.partitions := ["/dev/sdb1"; "/dev/sdb2"];
     ImageHelper.owner_uid := 1000;
     ImageHelper.owner_gid := 1000;
     ImageHelper.cancel_file := "/run/user/1000/datarecovery_cancel_k3x9.flag" |}.

(** Every child exits 0. *)
Definition world_all_ok : ImageHelper.world := fun _ => step_exits 0.

(** Only the child of iteration [k] fails, with exit code [rc]. *)
Definition world_fails_at (k : nat) (rc : Z) : ImageHelper.world :=
  fun i => if Nat.eqb i k then step_exits rc else step_exits 0.

(** A disk whose second partition carries the running system's [/home],
    next to a removable-media mount and an unrelated disk. *)
Definition devices_home_on_sdb : list MountedCheck.block_device :=
  [ {| MountedCheck.path := "/dev/sda"; MountedCheck.mounted := false;
       MountedCheck.mount_path := None |};
    {| MountedCheck.path := "/dev/sdb"; MountedCheck.mounted := false;
       MountedCheck.mount_path := None |};
    {| MountedCheck.path := "/dev/sda1"; MountedCheck.mounted := true;
       MountedCheck.mount_path := Some "/" |};
    {| MountedCheck.path := "/dev/sdb1"; MountedCheck.mounted := true;
       MountedCheck.mount_path := Some "/media/u/stick" |};
    {| MountedCheck.path := "/dev/sdb2"; MountedCheck.mounted := true;
       MountedCheck.mount_path := Some "/home" |} ].

(** A working directory with one image and one PhotoRec output tree
    [recovered_files/sdb/recup_dir.1] holding the given files. *)
Definition working_tree (names : list string) : Fs.state :=
  {| Fs.wd := "/w";
     Fs.entries :=
       [ ("sdb.img", Fs.RegularFile);
         ("recovered_files",
          Fs.Directory
            [ ("/w/recovered_files", ["sdb"], []);
              ("/w/recovered_files/sdb", ["recup_dir.1"], []);
              ("/w/recovered_files/sdb/recup_dir.1", [], names) ]) ];
     Fs.files := ∅;
     Fs.dirs := {["/dest"]};
     Fs.cwd := "/home/u";
     Fs.trace := [] |}.

(** The destination directory [/dest/jpg] already holds [x.jpg]. *)
Definition dest_with_x_jpg : Fs.state :=
  {| Fs.wd := "/w"; Fs.entries := [];
     Fs.files := {["/dest/jpg/x.jpg"]};
     Fs.dirs := {["/dest"; "/dest/jpg"]};
     Fs.cwd := "/home/u"; Fs.trace := [] |}.

(** rdfind is installed and runs past the default timeout. *)
Definition rdfind_hangs : Duplicates.env :=
  {| Duplicates.which := fun _ => true;
     Duplicates.timeout_var := None;
     Duplicates.popen_error := None;
     Duplicates.start_time := 1000;
     Duplicates.ticks :=
       [ {| Duplicates.cancel_requested := false; Duplicates.clock := 1000 |};
         {| Duplicates.cancel_requested := false; Duplicates.clock := 2801 |} ];
     Duplicates.exits_on_terminate := false;
     Duplicates.communicate_error := None;
     Duplicates.returncode := (-9);
     Duplicates.stderr := "";
     Duplicates.deleted := [] |}.

(** A PhotoRec run that ends after a second with exit code 1. *)
Definition scan_fails : Recover.scan_env :=
  {| Recover.popen_error := None;
     Recover.ticks := [false];
     Recover.exits_on_terminate := true;
     Recover.returncode := 1;
     Recover.stderr := "PhotoRec: cannot read image" |}.

(** A working directory that lists [names]; directories can be created
    except at the paths in [blocked], where a regular file is in the
    way; every scan fails. *)
Definition recover_env (names blocked : list string) : Recover.env :=
  {| Recover.is_dir := fun _ => true;
     Recover.listdir := fun _ => Some names;
     Recover.makedirs_ok := fun p => negb (bool_decide (p ∈ blocked));
     Recover.path_exists := fun _ => true;
     Recover.getcwd := "/home/u";
     Recover.scan := fun _ => scan_fails |}.

(** A session in which the helper can be started and every child exits
    0; of the paths that are not under [/dev/], only the image file
    exists. *)
Definition image_env : Image.env :=
  {| Image.present := fun p => String.eqb p "/home/u/old.img";
     Image.uid := 1000;
     Image.gid := 1000;
     Image.temp_files_ok := true;
     Image.cancel_file_path := "/run/user/1000/datarecovery_cancel_k3x9.flag";
     Image.pkexec_starts := true;
     Image.world := world_all_ok |}.

End Fixtures.
(** * Properties *)

(** ** [os.path] sanity checks *)

Example splitext_jpg : OsPath.splitext "x.jpg" = ("x", ".jpg").
Proof. reflexivity. Qed.
Example splitext_hidden : OsPath.splitext ".bashrc" = (".bashrc", "").
Proof. reflexivity. Qed.
Example splitext_dir : OsPath.splitext "a.b/c" = ("a.b/c", "").
Proof. reflexivity. Qed.
Example splitext_trailing : OsPath.splitext "foo." = ("foo", ".").
Proof. reflexivity. Qed.
Example basename_dev : OsPath.basename "/dev/sdb" = "sdb".
Proof. reflexivity. Qed.
Example join_plain : OsPath.join "/tmp/w" "sdb.img" = "/tmp/w/sdb.img".
Proof. reflexivity. Qed.

(** ** Strings *)

Section StringFacts.
Import PyStr.

Lemma str_app_cons a (s t : string) : String a s +:+ t = String a (s +:+ t).
Proof. reflexivity. Qed.

Lemma str_app_nil_l (s : string) : "" +:+ s = s.
Proof. reflexivity. Qed.

Lemma str_length_app (s t : string) :
  String.length (s +:+ t) = (String.length s + String.length t)%nat.
Proof.
  induction s as [|a s IH]; [reflexivity|].
  rewrite str_app_cons. cbn [String.length]. now rewrite IH.
Qed.

Lemma str_app_assoc (s t u : string) : (s +:+ t) +:+ u = s +:+ t +:+ u.
Proof.
  induction s as [|a s IH]; [reflexivity|]. rewrite !str_app_cons. now f_equal.
Qed.

Lemma str_app_nil_r (s : string) : s +:+ "" = s.
Proof.
  induction s as [|a s IH]; [reflexivity|]. rewrite str_app_cons. now f_equal.
Qed.

Lemma str_app_inj_r (s1 s2 e : string) : s1 +:+ e = s2 +:+ e -> s1 = s2.
Proof.
  revert s2. induction s1 as [|a s1 IH]; intros [|b s2] H.
  - reflexivity.
  - apply (f_equal String.length) in H. rewrite str_app_nil_l, str_app_cons in H.
    cbn [String.length] in H. rewrite str_length_app in H. lia.
  - apply (f_equal String.length) in H. rewrite str_app_nil_l, str_app_cons in H.
    cbn [String.length] in H. rewrite str_length_app in H. lia.
  - rewrite !str_app_cons in H. injection H as -> H. f_equal. now apply IH.
Qed.

Lemma startswith_app_char (b s t : string) (c : ascii) :
  startswith (b +:+ String c s) "/" = startswith (b +:+ String c t) "/".
Proof. destruct b; reflexivity. Qed.

Lemma join_inj (d x y : string) :
  startswith x "/" = startswith y "/" -> OsPath.join d x = OsPath.join d y -> x = y.
Proof.
  unfold OsPath.join. intros <-. destruct (startswith x "/"); [easy|].
  destruct (negb (truthy d) || endswith d "/"); intros H.
  - now apply (inj (String.app d)) in H.
  - apply (inj (String.app d)) in H. now apply (inj (String.app "/")) in H.
Qed.

Lemma endswith_spec (s p : string) :
  endswith s p = true <-> exists pre, s = pre +:+ p.
Proof.
  split.
  - induction s as [|a s IH]; cbn [endswith].
    + rewrite orb_false_r. intros H%String.eqb_eq. subst. now exists "".
    + intros [H%String.eqb_eq | H]%orb_true_iff.
      * subst. now exists "".
      * destruct (IH H) as [pre ->]. now exists (String a pre).
  - intros [pre ->]. induction pre as [|a pre IH].
    + rewrite str_app_nil_l. destruct p; cbn [endswith]; now rewrite String.eqb_refl.
    + rewrite str_app_cons. cbn [endswith]. rewrite IH. apply orb_true_r.
Qed.

Lemma lower_app (s t : string) : lower (s +:+ t) = lower s +:+ lower t.
Proof.
  induction s as [|a s IH]; [reflexivity|].
  rewrite str_app_cons. cbn [lower]. rewrite str_app_cons. now f_equal.
Qed.

Lemma rsplit_app (c : ascii) (s pre suf : string) :
  rsplit c s = Some (pre, suf) -> s = pre +:+ suf.
Proof.
  revert pre suf. induction s as [|a s IH]; intros pre suf; cbn [rsplit]; [discriminate|].
  destruct (rsplit c s) as [[pre' suf']|].
  - intros [= <- <-]. rewrite str_app_cons. f_equal. now apply IH.
  - destruct (Ascii.eqb a c); [|discriminate]. now intros [= <- <-].
Qed.

Lemma rsplit_head (c : ascii) (s pre suf : string) :
  rsplit c s = Some (pre, suf) -> exists suf', suf = String c suf'.
Proof.
  revert pre suf. induction s as [|a s IH]; intros pre suf; cbn [rsplit]; [discriminate|].
  destruct (rsplit c s) as [[pre' suf']|].
  - intros [= <- <-]. now apply (IH pre').
  - destruct (Ascii.eqb_spec a c); [|discriminate]. intros [= <- <-]. subst. eauto.
Qed.

(** [splitext] cuts its argument in two. *)
Lemma splitext_app (p : string) :
  (OsPath.splitext p).1 +:+ (OsPath.splitext p).2 = p.
Proof.
  unfold OsPath.splitext, OsPath.split_last_sep.
  destruct (rsplit OsPath.sep p) as [[pre suf]|] eqn:Hsep.
  - destruct (rsplit_head _ _ _ _ Hsep) as [suf' ->]. cbn [drop1].
    apply rsplit_app in Hsep.
    destruct (rsplit OsPath.extsep suf') as [[stem ext]|] eqn:Hext.
    + destruct (has_other OsPath.extsep stem); cbn [fst snd]; [|apply str_app_nil_r].
      apply rsplit_app in Hext. subst.
      rewrite !str_app_assoc. reflexivity.
    + cbn [fst snd]. apply str_app_nil_r.
  - destruct (rsplit OsPath.extsep p) as [[stem ext]|] eqn:Hext.
    + destruct (has_other OsPath.extsep stem); cbn [fst snd]; [|apply str_app_nil_r].
      now apply rsplit_app in Hext.
    + cbn [fst snd]. apply str_app_nil_r.
Qed.
End StringFacts.

Section PathFacts.
Import PyStr.

Lemma contains_app c (s t : string) : contains c (s +:+ t) = contains c s || contains c t.
Proof.
  induction s as [|a s IH]; [reflexivity|].
  rewrite str_app_cons. cbn [contains]. rewrite IH. apply orb_assoc.
Qed.

Lemma contains_startswith (s : string) :
  contains "/" s = false -> startswith s "/" = false.
Proof.
  destruct s as [|a s]; [reflexivity|]. cbn [contains startswith].
  intros [H _]%orb_false_iff. now rewrite H.
Qed.

Lemma join_relative d x :
  startswith x "/" = false -> OsPath.join d x = OsPath.join_prefix d +:+ x.
Proof.
  intros H. unfold OsPath.join, OsPath.join_prefix. rewrite H.
  destruct (negb (truthy d) || endswith d "/"); [reflexivity|].
  now rewrite str_app_assoc.
Qed.

Lemma endswith_app_slashless x b :
  b <> "" -> contains "/" b = false -> endswith (x +:+ b) "/" = false.
Proof.
  intros Hne Hb. destruct (endswith (x +:+ b) "/") eqn:He; [exfalso|reflexivity].
  apply endswith_spec in He as [y Hy]. revert y Hy.
  induction x as [|a x IH]; intros y Hy.
  - rewrite str_app_nil_l in Hy. subst b. rewrite contains_app in Hb.
    apply orb_false_iff in Hb as [_ Hb]. discriminate Hb.
  - rewrite str_app_cons in Hy. destruct y as [|a' y].
    + rewrite str_app_nil_l in Hy. injection Hy as _ Hy.
      destruct x; [|discriminate Hy]. rewrite str_app_nil_l in Hy. contradiction.
    + rewrite str_app_cons in Hy. injection Hy as _ Hy. now apply (IH y).
Qed.

Lemma truthy_app x b : b <> "" -> truthy (x +:+ b) = true.
Proof. intros Hne. destruct x; [destruct b; [contradiction|]|]; reflexivity. Qed.

(** Up to the first separator two texts agree. *)
Lemma first_slash b1 b2 n1 n2 :
  contains "/" b1 = false -> contains "/" b2 = false ->
  b1 +:+ "/" +:+ n1 = b2 +:+ "/" +:+ n2 -> b1 = b2.
Proof.
  revert b2. induction b1 as [|a b1 IH]; intros [|a' b2] H1 H2 H.
  - reflexivity.
  - rewrite str_app_nil_l, !str_app_cons in H. injection H as <- _.
    cbn [contains] in H2. discriminate H2.
  - rewrite str_app_nil_l, !str_app_cons in H. injection H as -> _.
    cbn [contains] in H1. discriminate H1.
  - rewrite !str_app_cons in H. injection H as -> H.
    cbn [contains] in H1, H2.
    apply orb_false_iff in H1 as [_ H1]. apply orb_false_iff in H2 as [_ H2].
    f_equal. now apply IH.
Qed.

(** Different buckets of one destination share no path. *)
Lemma bucket_paths_differ d b1 b2 n1 n2 :
  b1 <> "" -> b2 <> "" ->
  contains "/" b1 = false -> contains "/" b2 = false ->
  startswith n1 "/" = false -> startswith n2 "/" = false ->
  OsPath.join (OsPath.join d b1) n1 = OsPath.join (OsPath.join d b2) n2 ->
  b1 = b2.
Proof.
  intros Hne1 Hne2 Hb1 Hb2 Hn1 Hn2.
  rewrite (join_relative d b1), (join_relative d b2) by now apply contains_startswith.
  rewrite (join_relative _ n1), (join_relative _ n2) by assumption.
  unfold OsPath.join_prefix at 1 3.
  rewrite !truthy_app, !endswith_app_slashless by assumption. cbn [negb orb].
  rewrite !str_app_assoc. intros H%(inj (String.app _)).
  now apply (first_slash b1 b2 n1 n2).
Qed.

Lemma rsplit_none_iff c s : rsplit c s = None <-> contains c s = false.
Proof.
  induction s as [|a s IH]; cbn [rsplit contains]; [easy|].
  destruct (rsplit c s) as [[pre suf]|].
  - split; [discriminate|]. intros [_ H]%orb_false_iff. apply IH in H. discriminate H.
  - destruct (Ascii.eqb a c); cbn [orb]; [easy|]. split; [intros _|reflexivity].
    now apply IH.
Qed.

Lemma rsplit_tail_clean c s pre suf :
  rsplit c s = Some (pre, suf) -> contains c (drop1 suf) = false.
Proof.
  revert pre suf. induction s as [|a s IH]; intros pre suf; cbn [rsplit]; [discriminate|].
  destruct (rsplit c s) as [[pre' suf']|] eqn:Hr.
  - intros [= <- <-]. now apply (IH pre').
  - destruct (Ascii.eqb a c); [|discriminate]. intros [= <- <-]. cbn [drop1].
    now apply rsplit_none_iff.
Qed.

(** [os.path.basename] never returns a separator. *)
Lemma basename_clean p : contains "/" (OsPath.basename p) = false.
Proof.
  unfold OsPath.basename, OsPath.split_last_sep.
  destruct (rsplit OsPath.sep p) as [[pre suf]|] eqn:Hr; cbn [snd].
  - now apply (rsplit_tail_clean _ _ _ _ Hr).
  - now apply rsplit_none_iff.
Qed.

Lemma rsplit_app_clean c x t :
  contains c t = false -> rsplit c (x +:+ String c t) = Some (x, String c t).
Proof.
  intros Ht. induction x as [|a x IH].
  - rewrite str_app_nil_l. cbn [rsplit].
    apply rsplit_none_iff in Ht. rewrite Ht. now rewrite Ascii.eqb_refl.
  - rewrite str_app_cons. cbn [rsplit]. now rewrite IH.
Qed.

Lemma basename_app_slash x t :
  contains "/" t = false -> OsPath.basename (x +:+ "/" +:+ t) = t.
Proof.
  intros Ht. unfold OsPath.basename, OsPath.split_last_sep.
  change ("/" +:+ t) with (String OsPath.sep t).
  now rewrite (rsplit_app_clean OsPath.sep x t Ht).
Qed.

(** The last component of a joined path is the name joined on. *)
Lemma basename_join root file :
  contains "/" file = false -> OsPath.basename (OsPath.join root file) = file.
Proof.
  intros Hf. rewrite join_relative by now apply contains_startswith.
  unfold OsPath.join_prefix. destruct (truthy root) eqn:Ht; cbn [negb orb].
  - destruct (endswith root "/") eqn:He.
    + apply endswith_spec in He as [x ->]. rewrite str_app_assoc.
      now apply basename_app_slash.
    + rewrite str_app_assoc. now apply basename_app_slash.
  - destruct root; [|discriminate Ht]. rewrite str_app_nil_l.
    unfold OsPath.basename, OsPath.split_last_sep.
    apply rsplit_none_iff in Hf. unfold OsPath.sep. now rewrite Hf.
Qed.
End PathFacts.
(** ** The imaging helper *)

Section ImageHelperFacts.
Import ImageHelper.
Local Open Scope helper_scope.
Local Open Scope nat_scope.

Lemma launched_app ev ev' : launched (ev ++ ev') = launched ev ++ launched ev'.
Proof. apply omap_app. Qed.

Lemma snd_bind {A B} (m : helper A) (k : A -> helper B) :
  snd (bind m k) =
  match snd m with Done a => snd (k a) | SysExit c => SysExit c end.
Proof. destruct m as [ev [x|c]]; simpl; [destruct (k x)|]; reflexivity. Qed.

Lemma fst_bind {A B} (m : helper A) (k : A -> helper B) :
  fst (bind m k) =
  match snd m with Done a => fst m ++ fst (k a) | SysExit _ => fst m end.
Proof. destruct m as [ev [x|c]]; simpl; [destruct (k x)|]; reflexivity. Qed.

Lemma poll_loop_snd w obs :
  snd (poll_loop w obs) = if forallb negb obs then Done tt else SysExit 1%Z.
Proof.
  induction obs as [|b obs IH]; [reflexivity|].
  cbn [poll_loop]. rewrite snd_bind. destruct b; cbn [emit snd forallb negb andb].
  - destruct (exits_on_terminate w); reflexivity.
  - exact IH.
Qed.

Lemma poll_loop_launched w obs : launched (fst (poll_loop w obs)) = [].
Proof.
  induction obs as [|b obs IH]; [reflexivity|].
  cbn [poll_loop]. rewrite fst_bind. destruct b; cbn [emit snd fst].
  - destruct (exits_on_terminate w); reflexivity.
  - rewrite launched_app. exact IH.
Qed.

Lemma run_snd w cmd :
  snd (run w cmd) =
  if cancel_at_run w then SysExit 1%Z
  else if forallb negb (polls w) then
    (if (returncode w =? 0)%Z then Done tt else SysExit (returncode w))
  else SysExit 1%Z.
Proof.
  unfold run. rewrite snd_bind. cbn [emit snd]. rewrite snd_bind.
  destruct (cancel_at_run w); [reflexivity|].
  cbn [ret snd]. rewrite snd_bind. cbn [emit snd].
  rewrite snd_bind, poll_loop_snd.
  destruct (forallb negb (polls w)); [|reflexivity].
  destruct (returncode w =? 0)%Z; reflexivity.
Qed.

Lemma run_launched w cmd :
  launched (fst (run w cmd)) = if cancel_at_run w then [] else [cmd].
Proof.
  unfold run. rewrite fst_bind. cbn [emit snd fst]. rewrite fst_bind.
  destruct (cancel_at_run w); [reflexivity|].
  cbn [ret snd fst]. rewrite fst_bind. cbn [emit snd fst].
  rewrite fst_bind, poll_loop_snd.
  destruct (forallb negb (polls w)).
  - rewrite !launched_app, poll_loop_launched.
    destruct (returncode w =? 0)%Z; reflexivity.
  - rewrite !launched_app, poll_loop_launched. reflexivity.
Qed.

Lemma run_logs_failure w cmd :
  cancel_at_run w = false -> forallb negb (polls w) = true ->
  (returncode w =? 0)%Z = false ->
  Stderr ("Command failed: " +:+ PyStr.join " " cmd) ∈ fst (run w cmd).
Proof.
  intros Hc Hp Hr. unfold run. rewrite fst_bind. cbn [emit snd fst].
  rewrite fst_bind, Hc. cbn [ret snd fst]. rewrite fst_bind. cbn [emit snd fst].
  rewrite fst_bind, poll_loop_snd, Hp, Hr. cbn [negb].
  rewrite !elem_of_app. do 4 right. apply list_elem_of_here.
Qed.

Lemma step_result_starts w : step_result w = Done tt -> startsb w = true.
Proof.
  unfold step_result, startsb.
  destruct (cancel_at_loop w), (cancel_at_run w); cbn; congruence.
Qed.

Lemma polls_clean (obs : list bool) :
  forallb negb obs = true <-> Forall (fun b : bool => b = false) obs.
Proof.
  induction obs as [|b obs IH]; cbn.
  - split; [constructor | reflexivity].
  - rewrite Forall_cons, <- IH. destruct b; cbn; intuition congruence.
Qed.

Lemma step_result_passes w : step_result w = Done tt <-> passes w.
Proof.
  unfold step_result, passes, never_cancelled. rewrite <- polls_clean.
  destruct (cancel_at_loop w), (cancel_at_run w); cbn;
    try (split; [congruence | intros [(? & ? & ?) _]; congruence]).
  destruct (forallb negb (polls w)).
  - destruct (Z.eqb_spec (returncode w) 0); split; try tauto; congruence.
  - split; [congruence|]. intros [(_ & _ & ?) _]. congruence.
Qed.

Lemma startsb_starts w : startsb w = true <-> starts w.
Proof.
  unfold startsb, starts.
  destruct (cancel_at_loop w), (cancel_at_run w); cbn; intuition congruence.
Qed.

(** *** The loops *)

Section ForEach.
Context {X : Type} (W : world) (cmd_of : X -> list string)
        (body : nat -> X -> helper unit).
Hypothesis body_launched :
  forall i x, launched (fst (body i x)) = if startsb (W i) then [cmd_of x] else [].
Hypothesis body_result : forall i x, snd (body i x) = step_result (W i).

Lemma for_each_launched l i :
  launched (fst (for_each i l body)) = started W i (map cmd_of l).
Proof using body_launched body_result.
  revert i. induction l as [|x l IH]; intros i; [reflexivity|].
  cbn [for_each map started]. rewrite fst_bind, body_result.
  destruct (step_result (W i)) as [[]|c] eqn:Hr.
  - rewrite launched_app, body_launched, IH.
    rewrite (step_result_starts _ Hr). reflexivity.
  - rewrite body_launched. reflexivity.
Qed.

Lemma for_each_result l i :
  snd (for_each i l body) = loop_result W i (length l).
Proof using body_result.
  revert i. induction l as [|x l IH]; intros i; [reflexivity|].
  cbn [for_each length loop_result]. rewrite snd_bind, body_result.
  destruct (step_result (W i)) as [[]|c]; [apply IH | reflexivity].
Qed.

Lemma for_each_event l i k x e :
  l !! k = Some x ->
  (forall j, j < k -> step_result (W (i + j)) = Done tt) ->
  e ∈ fst (body (i + k) x) ->
  e ∈ fst (for_each i l body).
Proof using body_result.
  revert i k. induction l as [|y l IH]; intros i k Hk Hpre He; [discriminate|].
  cbn [for_each]. rewrite fst_bind, body_result.
  destruct k as [|k]; cbn in Hk.
  - injection Hk as ->. rewrite Nat.add_0_r in He.
    destruct (step_result (W i)) as [[]|c]; [apply elem_of_app; left|]; exact He.
  - pose proof (Hpre 0 ltac:(lia)) as H0. rewrite Nat.add_0_r in H0. rewrite H0.
    apply elem_of_app. right. apply (IH (S i) k Hk).
    + intros j Hj. replace (S i + j) with (i + S j) by lia. apply Hpre. lia.
    + replace (S i + k) with (i + S k) by lia. exact He.
Qed.
End ForEach.

Lemma for_each_ext {X} (body body' : nat -> X -> helper unit) l i :
  (forall j x, i <= j < i + length l -> body j x = body' j x) ->
  for_each i l body = for_each i l body'.
Proof.
  revert i. induction l as [|x l IH]; intros i H; [reflexivity|].
  cbn [for_each]. rewrite (H i x) by (cbn; lia).
  rewrite (IH (S i)); [reflexivity|].
  intros j y Hj. apply H. cbn. lia.
Qed.

Lemma started_lookup W cmds i k c :
  cmds !! k = Some c ->
  started W i cmds !! k = Some c <->
  (forall j, j < k -> step_result (W (i + j)) = Done tt) /\ startsb (W (i + k)) = true.
Proof.
  revert i k. induction cmds as [|c0 cmds IH]; intros i k Hk; [discriminate|].
  cbn [started]. destruct k as [|k]; cbn in Hk.
  - rewrite Nat.add_0_r. destruct (startsb (W i)); cbn.
    + split; [intros _; split; [lia | reflexivity] | intros _; congruence].
    + split; [discriminate | intros [_ ?]; discriminate].
  - destruct (startsb (W i)) eqn:Hs; cbn.
    + destruct (step_result (W i)) as [[]|code] eqn:Hr.
      * rewrite (IH (S i) k Hk). split; intros [Hpre Hst]; split.
        -- intros [|j] Hj; [now rewrite Nat.add_0_r|].
           replace (i + S j) with (S i + j) by lia. apply Hpre. lia.
        -- now replace (i + S k) with (S i + k) by lia.
        -- intros j Hj. replace (S i + j) with (i + S j) by lia. apply Hpre. lia.
        -- now replace (S i + k) with (i + S k) by lia.
      * split; [discriminate|]. intros [Hpre _].
        specialize (Hpre 0 ltac:(lia)). rewrite Nat.add_0_r in Hpre. congruence.
    + split; [discriminate|]. intros [Hpre _].
      specialize (Hpre 0 ltac:(lia)). rewrite Nat.add_0_r in Hpre.
      apply step_result_starts in Hpre. congruence.
Qed.

Lemma started_length_le W cmds i : length (started W i cmds) <= length cmds.
Proof.
  revert i. induction cmds as [|c cmds IH]; intros i; cbn; [lia|].
  destruct (startsb (W i)); cbn; [|lia].
  destruct (step_result (W i)); cbn; [specialize (IH (S i))|]; lia.
Qed.

Lemma started_app W l1 l2 i :
  started W i (l1 ++ l2) =
  started W i l1 ++
  match loop_result W i (length l1) with
  | Done _ => started W (i + length l1) l2
  | SysExit _ => []
  end.
Proof.
  revert i. induction l1 as [|c l1 IH]; intros i; cbn [started app length loop_result].
  - now rewrite Nat.add_0_r.
  - destruct (startsb (W i)) eqn:Hs.
    + destruct (step_result (W i)) as [[]|code]; cbn.
      * rewrite IH. now replace (S i + length l1) with (i + S (length l1)) by lia.
      * reflexivity.
    + destruct (step_result (W i)) as [[]|code] eqn:Hr; [|reflexivity].
      apply step_result_starts in Hr. congruence.
Qed.

Lemma loop_result_add W i n m :
  loop_result W i (n + m) =
  match loop_result W i n with
  | Done _ => loop_result W (i + n) m
  | SysExit c => SysExit c
  end.
Proof.
  revert i. induction n as [|n IH]; intros i; cbn [loop_result Nat.add].
  - now rewrite Nat.add_0_r.
  - destruct (step_result (W i)) as [[]|c]; [|reflexivity].
    rewrite IH. now replace (S i + n) with (i + S n) by lia.
Qed.

Lemma loop_result_Done W i n :
  loop_result W i n = Done tt <-> forall j, j < n -> passes (W (i + j)).
Proof.
  revert i. induction n as [|n IH]; intros i; cbn [loop_result].
  - split; [intros _ j Hj; lia | reflexivity].
  - destruct (step_result (W i)) as [[]|c] eqn:Hr.
    + rewrite IH. split; intros H j Hj.
      * destruct j as [|j]; [rewrite Nat.add_0_r; now apply step_result_passes|].
        replace (i + S j) with (S i + j) by lia. apply H. lia.
      * replace (S i + j) with (i + S j) by lia. apply H. lia.
    + split; [discriminate|]. intros H.
      specialize (H 0 ltac:(lia)). rewrite Nat.add_0_r in H.
      apply step_result_passes in H. congruence.
Qed.

Lemma loop_result_first_failure W i n k c :
  k < n ->
  (forall j, j < k -> step_result (W (i + j)) = Done tt) ->
  step_result (W (i + k)) = SysExit c ->
  loop_result W i n = SysExit c.
Proof.
  revert i k. induction n as [|n IH]; intros i k Hk Hpre Hc; [lia|].
  cbn [loop_result]. destruct k as [|k].
  - rewrite Nat.add_0_r in Hc. now rewrite Hc.
  - pose proof (Hpre 0 ltac:(lia)) as H0. rewrite Nat.add_0_r in H0. rewrite H0.
    apply (IH (S i) k); [lia| |].
    + intros j Hj. replace (S i + j) with (i + S j) by lia. apply Hpre. lia.
    + now replace (S i + k) with (i + S k) by lia.
Qed.

(** *** The helper as a whole *)

Lemma stage_body_result W a i cmd :
  snd (stage_body W a i cmd) = step_result (W i).
Proof.
  unfold stage_body, step_result. rewrite snd_bind.
  destruct (cancel_at_loop (W i)); [reflexivity|]. cbn [ret snd].
  rewrite snd_bind, run_snd.
  destruct (cancel_at_run (W i)); [reflexivity|].
  destruct (forallb negb (polls (W i))); [|reflexivity].
  destruct (returncode (W i) =? 0)%Z; [|reflexivity].
  destruct (chown_error (W i)); reflexivity.
Qed.

Lemma stage_body_launched W a i cmd :
  launched (fst (stage_body W a i cmd)) = if startsb (W i) then [cmd] else [].
Proof.
  unfold stage_body, startsb. rewrite fst_bind.
  destruct (cancel_at_loop (W i)); [reflexivity|]. cbn [ret snd fst app negb andb].
  rewrite fst_bind, run_snd.
  destruct (cancel_at_run (W i)) eqn:Hc; [now rewrite run_launched, Hc|].
  destruct (forallb negb (polls (W i))); [|now rewrite run_launched, Hc].
  destruct (returncode (W i) =? 0)%Z; [|now rewrite run_launched, Hc].
  rewrite launched_app, run_launched, Hc.
  destruct (chown_error (W i)); reflexivity.
Qed.

Lemma partition_body_result W a i ppath :
  snd (partition_body W a i ppath) = step_result (W i).
Proof.
  unfold partition_body, step_result. rewrite snd_bind.
  destruct (cancel_at_loop (W i)); [reflexivity|]. cbn [ret snd].
  rewrite snd_bind, run_snd.
  destruct (cancel_at_run (W i)); [reflexivity|].
  destruct (forallb negb (polls (W i))); [|reflexivity].
  destruct (returncode (W i) =? 0)%Z; [|reflexivity].
  destruct (chown_error (W i)); reflexivity.
Qed.

Lemma partition_body_launched W a i ppath :
  launched (fst (partition_body W a i ppath)) =
  if startsb (W i) then [partition_cmd a ppath] else [].
Proof.
  unfold partition_body, startsb. rewrite fst_bind.
  destruct (cancel_at_loop (W i)); [reflexivity|]. cbn [ret snd fst app negb andb].
  rewrite fst_bind, run_snd.
  destruct (cancel_at_run (W i)) eqn:Hc; [now rewrite run_launched, Hc|].
  destruct (forallb negb (polls (W i))); [|now rewrite run_launched, Hc].
  destruct (returncode (W i) =? 0)%Z; [|now rewrite run_launched, Hc].
  rewrite launched_app, run_launched, Hc.
  destruct (chown_error (W i)); reflexivity.
Qed.

Lemma main_result W a :
  snd (main W a) = loop_result W 0 (4 + length (partitions a)).
Proof.
  unfold main, finally. cbn [snd]. rewrite snd_bind.
  unfold ladder, partition_loop.
  rewrite (for_each_result W _ (stage_body_result W a)).
  rewrite (for_each_result W _ (partition_body_result W a)).
  change (length (stages a)) with 4.
  rewrite (loop_result_add W 0 4). destruct (loop_result W 0 4) as [[]|c]; reflexivity.
Qed.

Lemma main_launched W a :
  launched (fst (main W a)) = started W 0 (all_commands a).
Proof.
  unfold main, finally, all_commands. cbn [fst].
  rewrite launched_app, app_nil_r, fst_bind, started_app.
  unfold ladder, partition_loop.
  rewrite (for_each_result W _ (stage_body_result W a)).
  pose proof (for_each_launched W (fun c => c) _ (stage_body_launched W a)
                (stage_body_result W a) (stages a) 0) as Hl.
  rewrite map_id in Hl.
  destruct (loop_result W 0 (length (stages a))) as [[]|c].
  - rewrite launched_app, Hl. f_equal.
    apply (for_each_launched W (partition_cmd a) _ (partition_body_launched W a)
             (partition_body_result W a)).
  - rewrite Hl, app_nil_r. reflexivity.
Qed.

Lemma step_result_failure w :
  starts w -> Forall (fun b : bool => b = false) (polls w) ->
  returncode w <> 0%Z -> step_result w = SysExit (returncode w).
Proof.
  intros [Hl Hr] Hp%polls_clean Hrc. unfold step_result. rewrite Hl, Hr, Hp.
  destruct (Z.eqb_spec (returncode w) 0); [contradiction | reflexivity].
Qed.

Lemma stage_body_logs_failure W a i cmd :
  starts (W i) -> Forall (fun b : bool => b = false) (polls (W i)) ->
  returncode (W i) <> 0%Z ->
  Stderr ("Command failed: " +:+ PyStr.join " " cmd) ∈ fst (stage_body W a i cmd).
Proof.
  intros [Hl Hr] Hp%polls_clean Hrc. unfold stage_body.
  rewrite fst_bind, Hl. cbn [ret snd fst app]. rewrite fst_bind.
  assert (Stderr ("Command failed: " +:+ PyStr.join " " cmd) ∈ fst (run (W i) cmd)) as Hin.
  { apply run_logs_failure; [assumption..|]. now apply Z.eqb_neq. }
  destruct (snd (run (W i) cmd)); [apply elem_of_app; left|]; exact Hin.
Qed.

Lemma started_length_first_failure W cmds i n c :
  n < length cmds ->
  (forall j, j < n -> step_result (W (i + j)) = Done tt) ->
  startsb (W (i + n)) = true ->
  step_result (W (i + n)) = SysExit c ->
  length (started W i cmds) = S n.
Proof.
  revert i n. induction cmds as [|c0 cmds IH]; intros i n Hn Hpre Hs Hc; cbn in Hn; [lia|].
  cbn [started]. destruct n as [|n].
  - rewrite Nat.add_0_r in Hs, Hc. now rewrite Hs, Hc.
  - pose proof (Hpre 0 ltac:(lia)) as H0. rewrite Nat.add_0_r in H0.
    rewrite (step_result_starts _ H0), H0. cbn [length]. f_equal.
    apply (IH (S i) n); [lia| | |].
    + intros j Hj. replace (S i + j) with (i + S j) by lia. apply Hpre. lia.
    + now replace (S i + n) with (i + S n) by lia.
    + now replace (S i + n) with (i + S n) by lia.
Qed.

Lemma stages_lookup a k : k < 4 -> is_Some (stages a !! k).
Proof. intros Hk. apply lookup_lt_is_Some. cbn. exact Hk. Qed.

Lemma stage_attempted_iff W a k :
  k < 4 ->
  stage_attempted k W a <-> (forall j, j < k -> passes (W j)) /\ starts (W k).
Proof.
  intros Hk. destruct (stages_lookup a k Hk) as [c Hc].
  unfold stage_attempted. rewrite main_launched, Hc.
  assert (all_commands a !! k = Some c) as Hall.
  { unfold all_commands. rewrite lookup_app_l; [exact Hc | cbn; exact Hk]. }
  rewrite (started_lookup W _ 0 k c Hall). cbn [Nat.add].
  rewrite startsb_starts. split.
  - intros [_ [Hpre Hs]]. split; [|exact Hs].
    intros j Hj. apply step_result_passes, Hpre, Hj.
  - intros [Hpre Hs]. split; [eauto|]. split; [|exact Hs].
    intros j Hj. apply step_result_passes, Hpre, Hj.
Qed.

Lemma stage_not_attempted_after W a k j :
  k < j -> ~ passes (W k) -> ~ stage_attempted j W a.
Proof.
  intros Hkj Hk Hj. destruct (Nat.lt_ge_cases j 4) as [Hlt|Hge].
  - apply (stage_attempted_iff W a j Hlt) in Hj as [Hpre _]. apply Hk, Hpre, Hkj.
  - destruct Hj as [[c Hc] _]. apply lookup_lt_Some in Hc. cbn in Hc. lia.
Qed.

(** C1 (amended).  The helper tries the four ladder stages in order, and
    stage [k] is attempted exactly when no cancellation is seen before it
    starts and every earlier stage ran uncancelled to exit code 0.  A
    stage that exits with a nonzero code is logged ("Command failed: ...")
    and ends the ladder: the helper leaves through [sys.exit] with that
    code and no later stage is attempted. *)
Theorem ladder_stops_at_first_failure W a k :
  k < 4 ->
  (stage_attempted k W a <-> (forall j, j < k -> passes (W j)) /\ starts (W k)) /\
  ((forall j, j < k -> passes (W j)) -> starts (W k) ->
   Forall (fun b : bool => b = false) (polls (W k)) ->
   returncode (W k) <> 0%Z ->
   snd (main W a) = SysExit (returncode (W k)) /\
   (exists cmd, stages a !! k = Some cmd /\
      Stderr ("Command failed: " +:+ PyStr.join " " cmd) ∈ fst (main W a)) /\
   forall j, k < j -> ~ stage_attempted j W a).
Proof.
  intros Hk. split; [apply stage_attempted_iff, Hk|].
  intros Hpre Hs Hp Hrc.
  pose proof (step_result_failure _ Hs Hp Hrc) as Hfail.
  assert (forall j, j < k -> step_result (W (0 + j)) = Done tt) as Hpre'.
  { intros j Hj. apply step_result_passes, Hpre, Hj. }
  split; [|split].
  - rewrite main_result.
    apply (loop_result_first_failure W 0 _ k); [lia | exact Hpre' | exact Hfail].
  - destruct (stages_lookup a k Hk) as [cmd Hcmd]. exists cmd. split; [exact Hcmd|].
    unfold main, finally. cbn [fst]. apply elem_of_app. left.
    assert (Stderr ("Command failed: " +:+ PyStr.join " " cmd) ∈ fst (ladder W a)) as Hin.
    { unfold ladder.
      apply (for_each_event W _ (stage_body_result W a) _ 0 k cmd _ Hcmd Hpre').
      now apply stage_body_logs_failure. }
    rewrite fst_bind. destruct (snd (ladder W a)); [apply elem_of_app; left|]; exact Hin.
  - intros j Hj. apply (stage_not_attempted_after W a k j Hj).
    intros [_ H0]. contradiction.
Qed.

(** C1, as stated, fails: with no cancellation at all, a first stage that
    exits with code 1 keeps stage 4 from being attempted. *)
Lemma ladder_failure_skips_stage4 :
  (forall i, never_cancelled (Fixtures.world_fails_at 0 1 i)) /\
  ~ stage_attempted 3 (Fixtures.world_fails_at 0 1) Fixtures.args_sdb /\
  launched (fst (main (Fixtures.world_fails_at 0 1) Fixtures.args_sdb)) =
    take 1 (stages Fixtures.args_sdb).
Proof.
  split; [|split].
  - intros i. unfold Fixtures.world_fails_at.
    destruct (Nat.eqb i 0); repeat constructor.
  - intros [_ H]. vm_compute in H. discriminate H.
  - vm_compute. reflexivity.
Qed.

Lemma ladder_stops_at_first_failure_witness :
  1 < 4 /\
  stage_attempted 1 (Fixtures.world_fails_at 1 2) Fixtures.args_sdb /\
  snd (main (Fixtures.world_fails_at 1 2) Fixtures.args_sdb) = SysExit 2%Z /\
  ~ stage_attempted 3 (Fixtures.world_fails_at 1 2) Fixtures.args_sdb.
Proof.
  assert (1 < 4) as H14 by lia. split; [exact H14|].
  destruct (ladder_stops_at_first_failure
              (Fixtures.world_fails_at 1 2) Fixtures.args_sdb 1 H14) as [Hiff Hfail].
  assert (forall j, j < 1 -> passes (Fixtures.world_fails_at 1 2 j)) as Hpre.
  { intros j Hj. assert (j = 0) as -> by lia. repeat constructor. }
  assert (starts (Fixtures.world_fails_at 1 2 1)) as Hs by (split; reflexivity).
  split; [apply Hiff; split; assumption|].
  destruct Hfail as (Hexit & _ & Hlater);
    [exact Hpre | exact Hs | repeat constructor | vm_compute; discriminate |].
  split; [exact Hexit | apply Hlater; lia].
Defined.

Lemma stages_same a a' :
  device a' = device a -> dest a' = dest a -> stages a' = stages a.
Proof. intros Hd Hp. unfold stages. now rewrite Hd, Hp. Qed.

(** C2 (amended).  The partitions are imaged after the ladder, so what
    the ladder does and how it ends depends neither on the partition list
    nor on how the partition children behave.  The helper as a whole
    returns normally exactly when every ladder stage and every partition
    ran uncancelled to exit code 0: a partition whose child exits with a
    nonzero code makes the helper leave through [sys.exit] with that code,
    later partitions are not imaged, and [run_with_pkexec] reports
    failure. *)
Theorem partition_failure_fails_helper W a :
  (forall W' a',
      (forall k, k < 4 -> W' k = W k) ->
      device a' = device a -> dest a' = dest a ->
      owner_uid a' = owner_uid a -> owner_gid a' = owner_gid a ->
      ladder W' a' = ladder W a) /\
  (snd (main W a) = Done tt <->
   forall k, k < 4 + length (partitions a) -> passes (W k)) /\
  (forall i,
      i < length (partitions a) ->
      (forall j, j < 4 + i -> passes (W j)) ->
      starts (W (4 + i)) ->
      Forall (fun b : bool => b = false) (polls (W (4 + i))) ->
      returncode (W (4 + i)) <> 0%Z ->
      snd (main W a) = SysExit (returncode (W (4 + i))) /\
      length (launched (fst (main W a))) = 4 + i + 1 /\
      ((-256 < returncode (W (4 + i)%nat) < 256)%Z -> helper_succeeds W a = false)).
Proof.
  split; [|split].
  - intros W' a' HW Hdev Hdest Huid Hgid. unfold ladder.
    rewrite (stages_same a a' Hdev Hdest).
    apply for_each_ext. intros j cmd [_ Hj]. cbn in Hj.
    unfold stage_body. now rewrite (HW j Hj), Hdev, Hdest, Huid, Hgid.
  - rewrite main_result. apply (loop_result_Done W 0).
  - intros i Hi Hpre Hs Hp Hrc.
    pose proof (step_result_failure _ Hs Hp Hrc) as Hfail.
    assert (forall j, j < 4 + i -> step_result (W (0 + j)) = Done tt) as Hpre'.
    { intros j Hj. apply step_result_passes, Hpre, Hj. }
    assert (snd (main W a) = SysExit (returncode (W (4 + i)))) as Hexit.
    { rewrite main_result.
      apply (loop_result_first_failure W 0 _ (4 + i)); [lia | exact Hpre' | exact Hfail]. }
    split; [exact Hexit|]. split.
    + rewrite main_launched.
      replace (4 + i + 1) with (S (4 + i)) by lia.
      apply (started_length_first_failure W _ 0 (4 + i) (returncode (W (4 + i))));
        [|exact Hpre'| |exact Hfail].
      * unfold all_commands. rewrite length_app, length_map. cbn. lia.
      * now apply startsb_starts.
    + intros Hrange. unfold helper_succeeds, run_with_pkexec, exit_status.
      rewrite Hexit. apply Z.eqb_neq. intros Hmod.
      apply Z.mod_divide in Hmod; [|lia]. destruct Hmod as [q Hq]. lia.
Qed.

(** C2, as stated, fails: the ladder succeeds, nobody cancels, the first
    partition's child exits with code 1, and the helper fails as a whole
    without imaging the second partition. *)
Lemma partition_failure_exits_nonzero :
  (forall i, never_cancelled (Fixtures.world_fails_at 4 1 i)) /\
  (forall k, k < 4 -> passes (Fixtures.world_fails_at 4 1 k)) /\
  snd (main (Fixtures.world_fails_at 4 1) Fixtures.args_sdb) = SysExit 1%Z /\
  helper_succeeds (Fixtures.world_fails_at 4 1) Fixtures.args_sdb = false /\
  launched (fst (main (Fixtures.world_fails_at 4 1) Fixtures.args_sdb)) =
    take 5 (all_commands Fixtures.args_sdb).
Proof.
  split; [|split; [|split; [|split]]].
  - intros i. unfold Fixtures.world_fails_at.
    destruct (Nat.eqb i 4); repeat constructor.
  - intros k Hk. do 4 (destruct k as [|k]; [repeat constructor|]). lia.
  - vm_compute. reflexivity.
  - vm_compute. reflexivity.
  - vm_compute. reflexivity.
Qed.

Lemma partition_failure_fails_helper_witness :
  snd (main (Fixtures.world_fails_at 5 2) Fixtures.args_sdb) = SysExit 2%Z /\
  length (launched (fst (main (Fixtures.world_fails_at 5 2) Fixtures.args_sdb))) = 6 /\
  helper_succeeds (Fixtures.world_fails_at 5 2) Fixtures.args_sdb = false.
Proof.
  destruct (partition_failure_fails_helper
              (Fixtures.world_fails_at 5 2) Fixtures.args_sdb) as (_ & _ & Hfail).
  destruct (Hfail 1) as (Hexit & Hlen & Hpk).
  - cbn. lia.
  - intros j Hj. do 5 (destruct j as [|j]; [repeat constructor|]). lia.
  - split; reflexivity.
  - repeat constructor.
  - vm_compute. discriminate.
  - split; [exact Hexit|]. split; [exact Hlen|]. apply Hpk. vm_compute. split; reflexivity.
Defined.
End ImageHelperFacts.

(** ** The mount-safety gate *)

Section MountedCheckFacts.
Import MountedCheck.

Lemma log_harmless logger e : harmless e -> Forall harmless (log logger e).
Proof. intros He. destruct logger; cbn; repeat constructor; apply He. Qed.

Lemma scan_devices_harmless logger device_path bds acc :
  Forall harmless (fst (scan_devices logger device_path bds acc)).
Proof.
  revert acc. induction bds as [|bd bds IH]; intros acc; cbn [scan_devices]; [constructor|].
  destruct (in_scope device_path bd && mounted bd && mount_path_truthy bd); [|apply IH].
  case_bool_decide.
  - cbn [fst]. apply Forall_app. split.
    + apply log_harmless. split; [discriminate | exact (fun H => H)].
    + repeat constructor; [discriminate | exact (fun H => H)].
  - specialize (IH (acc ++ [(path bd, default "" (mount_path bd))])).
    destruct (scan_devices _ _ bds _) as [ev r]. cbn [fst] in *.
    apply Forall_app. split; [|exact IH].
    apply log_harmless. split; [discriminate | exact (fun H => H)].
Qed.

Lemma critical_mount_truthy mp : mp ∈ critical_mounts -> PyStr.truthy mp = true.
Proof.
  unfold critical_mounts. rewrite !elem_of_cons, elem_of_nil.
  intros [->|[->|[->|[->|[->|[->|[->|[]]]]]]]]; reflexivity.
Qed.

Lemma scan_devices_blocked logger device_path bds acc :
  (exists bd, bd ∈ bds /\ critically_mounted device_path bd) ->
  snd (scan_devices logger device_path bds acc) = None /\
  exists msg, Toast msg ∈ fst (scan_devices logger device_path bds acc).
Proof.
  revert acc. induction bds as [|bd bds IH]; intros acc [bd' [Hin Hcrit]].
  - apply elem_of_nil in Hin as [].
  - cbn [scan_devices]. apply elem_of_cons in Hin as [->|Hin].
    + destruct Hcrit as (Hs & Hm & mp & Hmp & Hc).
      unfold mount_path_truthy. rewrite Hs, Hm, Hmp, (critical_mount_truthy mp Hc).
      cbn [andb default]. rewrite (bool_decide_eq_true_2 _ Hc). cbn [fst snd].
      split; [reflexivity|]. eexists. apply elem_of_app. right. apply list_elem_of_singleton.
      reflexivity.
    + assert (exists bd, bd ∈ bds /\ critically_mounted device_path bd) as Hex by eauto.
      destruct (in_scope device_path bd && mounted bd && mount_path_truthy bd);
        [|apply (IH acc Hex)].
      case_bool_decide.
      * cbn [fst snd]. split; [reflexivity|]. eexists. apply elem_of_app. right.
        apply list_elem_of_singleton. reflexivity.
      * destruct (IH (acc ++ [(path bd, default "" (mount_path bd))]) Hex) as [Hr [msg Hmsg]].
        destruct (scan_devices _ _ bds _) as [ev r]. cbn [fst snd] in *.
        split; [exact Hr|]. exists msg. apply elem_of_app. right. exact Hmsg.
Qed.

(** C7.  Whenever some block device in scope (the selected device, or one
    whose path extends it) is mounted at one of the critical paths, the
    check returns [False] after a refusing toast, whatever else is
    mounted, whatever the operator would answer: no unmount dialog is
    shown and the success callback is never called. *)
Theorem critical_mount_refuses_job logger unmounts response bds device_path :
  (exists bd, bd ∈ bds /\ critically_mounted device_path bd) ->
  snd (check_and_handle_mounted_partitions logger bds device_path) = false /\
  (exists msg, Toast msg ∈ gate logger unmounts response bds device_path) /\
  Forall harmless (gate logger unmounts response bds device_path).
Proof.
  intros Hex.
  destruct (scan_devices_blocked logger device_path bds [] Hex) as [Hr [msg Hmsg]].
  pose proof (scan_devices_harmless logger device_path bds []) as Hh.
  unfold gate, check_and_handle_mounted_partitions.
  destruct (scan_devices logger device_path bds []) as [ev r]. cbn [fst snd] in *.
  subst r. cbn [snd].
  assert (Forall harmless (log logger (LogInfo ("Checking for mounted devices/partitions on device: " +:+ device_path)) ++ ev)) as Hall.
  { apply Forall_app. split; [|exact Hh].
    apply log_harmless. split; [discriminate | exact (fun H => H)]. }
  split; [reflexivity|]. split.
  - exists msg. apply elem_of_app. left. apply elem_of_app. right. exact Hmsg.
  - apply Forall_app. split; [exact Hall|].
    induction Hall as [|e l [_ He] _ IH]; [constructor|].
    cbn [flat_map]. destruct e; cbn [app]; try exact IH. destruct (He I).
Qed.

Lemma critical_mount_refuses_job_witness :
  snd (check_and_handle_mounted_partitions true Fixtures.devices_home_on_sdb "/dev/sdb")
    = false /\
  Forall harmless
    (gate true (fun _ => true) "continue" Fixtures.devices_home_on_sdb "/dev/sdb").
Proof.
  destruct (critical_mount_refuses_job true (fun _ => true) "continue"
              Fixtures.devices_home_on_sdb "/dev/sdb") as (Hr & _ & Hh).
  - exists {| path := "/dev/sdb2"; mounted := true; mount_path := Some "/home" |}.
    split.
    + unfold Fixtures.devices_home_on_sdb. do 4 apply list_elem_of_further.
      apply list_elem_of_here.
    + split; [reflexivity|]. split; [reflexivity|]. exists "/home".
      split; [reflexivity|]. unfold critical_mounts.
      apply list_elem_of_further, list_elem_of_here.
  - split; [exact Hr | exact Hh].
Defined.
End MountedCheckFacts.

(** ** The scanning phase *)

Section ProcFacts.
Import Proc.
Local Open Scope proc_scope.

Lemma proc_snd_bind {A B} (m : proc A) (k : A -> proc B) :
  snd (bind m k) = match snd m with Returned a => snd (k a) | Raised e => Raised e end.
Proof. destruct m as [ev [a|e]]; cbn; [destruct (k a)|]; reflexivity. Qed.

Lemma proc_fst_bind {A B} (m : proc A) (k : A -> proc B) :
  fst (bind m k) = match snd m with Returned a => fst m ++ fst (k a) | Raised _ => fst m end.
Proof. destruct m as [ev [a|e]]; cbn; [destruct (k a)|]; reflexivity. Qed.

Lemma commands_app ev ev' : commands (ev ++ ev') = commands ev ++ commands ev'.
Proof. apply omap_app. Qed.

Lemma try_except_returned {A} (m : proc A) (h : exn -> proc A) a :
  snd m = Returned a -> try_except m h = m.
Proof. destruct m as [ev [x|e]]; cbn; [reflexivity | discriminate]. Qed.

Lemma try_except_raised {A} (m : proc A) (h : exn -> proc A) e :
  snd m = Raised e ->
  try_except m h = (fst m ++ fst (h e), snd (h e)).
Proof.
  destruct m as [ev [x|e']]; cbn; [discriminate|]. intros [= ->]. now destruct (h e).
Qed.
End ProcFacts.

Section RecoverFacts.
Import PyStr Proc Recover.
Local Open Scope proc_scope.

Lemma poll_loop_spec S controller description turns :
  (exists b, snd (poll_loop S controller description turns) = Returned b) /\
  commands (fst (poll_loop S controller description turns)) = [].
Proof.
  induction turns as [|t turns [[b IHs] IHc]]; cbn [poll_loop].
  - split; [now exists false | reflexivity].
  - destruct (controller && t).
    + destruct (exits_on_terminate S); split; try reflexivity; now exists true.
    + rewrite proc_snd_bind, proc_fst_bind. cbn [emit fst snd].
      split; [now exists b|]. now rewrite commands_app, IHc.
Qed.

(** A scan always comes back with a verdict, having started PhotoRec
    exactly once. *)
Lemma run_photorec_on_source_spec E source_file output_dir description
    enable_logs keep_corrupted_files filesystem_type controller :
  (exists b, snd (run_photorec_on_source E source_file output_dir description enable_logs
                    keep_corrupted_files filesystem_type controller) = Returned b) /\
  commands (fst (run_photorec_on_source E source_file output_dir description enable_logs
                   keep_corrupted_files filesystem_type controller))
  = [photorec_cmd source_file output_dir enable_logs keep_corrupted_files filesystem_type].
Proof.
  unfold run_photorec_on_source. cbv zeta.
  set (S := scan E source_file).
  set (cmd := photorec_cmd _ _ _ _ _).
  match goal with |- context [try_except ?m ?h] => set (body := m); set (handler := h) end.
  destruct (poll_loop_spec S controller description (ticks S)) as [[c Hc] Hcmd].
  assert (commands (fst body) = [cmd] /\
          ((exists b, snd body = Returned b) \/ (exists e, snd body = Raised e))) as [Hb Hr].
  { unfold body, commands in *.
    destruct (poll_loop S controller description (ticks S)) as [pev pr].
    cbn [fst snd] in Hc, Hcmd. subst pr.
    destruct (popen_error S) as [e|]; [split; [reflexivity | right; eauto]|].
    destruct c, (truthy (stderr S)), (returncode S =? 0)%Z; cbn;
      rewrite ?omap_app, Hcmd; (split; [reflexivity | left; eauto]). }
  destruct Hr as [[b Hret]|[e Hraise]].
  - rewrite (try_except_returned body handler b Hret). split; [eauto | exact Hb].
  - rewrite (try_except_raised body handler e Hraise). cbn [fst snd].
    split; [now exists false|]. rewrite commands_app, Hb. reflexivity.
Qed.

Lemma scan_image_file_spec E image_file recovery_dir partitions_data
    enable_logs keep_corrupted_files controller :
  let r := _scan_image_file E image_file recovery_dir partitions_data enable_logs
             keep_corrupted_files controller in
  if makedirs_ok E (output_dir_of recovery_dir image_file) then
    (exists b, snd r = Returned b) /\
    commands (fst r)
    = [command_for recovery_dir partitions_data enable_logs keep_corrupted_files image_file]
  else (exists e, snd r = Raised e) /\ commands (fst r) = [].
Proof.
  unfold _scan_image_file, command_for, os_makedirs. cbv zeta.
  destruct (makedirs_ok E (output_dir_of recovery_dir image_file)).
  - destruct (_get_filesystem_type_for_image (OsPath.basename image_file) partitions_data)
      as [fs_log filesystem_type] eqn:Hfs. cbn [snd].
    destruct (run_photorec_on_source_spec E image_file
                (output_dir_of recovery_dir image_file) (OsPath.basename image_file)
                enable_logs keep_corrupted_files filesystem_type controller)
      as [[b Hb] Hcmd].
    assert (commands fs_log = []) as Hlog.
    { unfold _get_filesystem_type_for_image in Hfs.
      destruct partitions_data; [now injection Hfs as <- _|].
      destruct (any_digit _); [|now injection Hfs as <- _].
      destruct (List.find _ _); now injection Hfs as <- _. }
    destruct (run_photorec_on_source _ _ _ _ _ _ _ _) as [rev rr].
    cbn [fst snd] in Hb, Hcmd. subst rr. unfold commands in *.
    destruct b; cbn; rewrite ?omap_app, Hlog, ?omap_app, Hcmd; split; eauto.
  - split; [eexists; reflexivity | reflexivity].
Qed.

Lemma scan_loop_spec E recovery_dir partitions_data enable_logs keep_corrupted_files
    controller (image_files : list string) :
  let loop := for_each image_files (fun image_file =>
                _ <- _scan_image_file E image_file recovery_dir partitions_data
                       enable_logs keep_corrupted_files controller ;;
                ret tt) in
  if forallb (fun img => makedirs_ok E (output_dir_of recovery_dir img)) image_files then
    snd loop = Returned tt /\
    commands (fst loop)
    = map (command_for recovery_dir partitions_data enable_logs keep_corrupted_files)
          image_files
  else exists e, snd loop = Raised e.
Proof.
  induction image_files as [|img l IH]; cbn [for_each forallb map]; [now split|].
  pose proof (scan_image_file_spec E img recovery_dir partitions_data enable_logs
                keep_corrupted_files controller) as Hs. cbv zeta in Hs, IH.
  rewrite proc_snd_bind, proc_fst_bind, !proc_snd_bind, proc_fst_bind.
  destruct (makedirs_ok E (output_dir_of recovery_dir img)); cbn [andb].
  - destruct Hs as [[b Hb] Hcmd]. rewrite Hb. cbn [ret fst snd].
    destruct (forallb _ l); [|exact IH].
    destruct IH as [IHs IHc]. split; [exact IHs|].
    now rewrite !commands_app, Hcmd, IHc.
  - destruct Hs as [[e He] _]. rewrite He. eauto.
Qed.

Lemma find_image_files_no_commands E wd : commands (_find_image_files E wd).1 = [].
Proof.
  unfold _find_image_files.
  destruct (negb (truthy wd) || negb (is_dir E wd)); [reflexivity|].
  destruct (listdir E wd) as [names|]; [|reflexivity]. cbn [fst].
  induction (List.filter _ names) as [|n l IH]; [reflexivity | exact IH].
Qed.

(** C8 (amended).  The scanning phase never raises.  It returns failure
    exactly when no image file is found in the working directory or a
    directory it needs cannot be created (the recovery directory, or an
    image's output directory), which its exception handler turns into
    failure.  The images it scans are the [.img] entries of the working
    directory, sorted; when the directories can be created, PhotoRec is
    started exactly once per image, in that order, however the single
    scans end, and the phase returns success even if all of them fail. *)
Theorem scanning_phase_outcome E dest_path working_dir partitions_data
    enable_logs keep_corrupted_files controller :
  let wd := or_else working_dir dest_path in
  let recovery_dir := OsPath.join wd "recovered_files" in
  let image_files := (_find_image_files E wd).2 in
  let r := photorec_recover E dest_path working_dir partitions_data enable_logs
             keep_corrupted_files controller in
  (snd r = Returned false <->
   image_files = [] \/ makedirs_ok E recovery_dir = false \/
   exists img, img ∈ image_files /\
               makedirs_ok E (output_dir_of recovery_dir img) = false) /\
  (snd r = Returned true \/ snd r = Returned false) /\
  Sorted String.le image_files /\
  (forall names,
      truthy wd = true -> is_dir E wd = true -> listdir E wd = Some names ->
      image_files ≡ₚ map (OsPath.join wd)
                        (List.filter (fun n => endswith n ".img") names)) /\
  (makedirs_ok E recovery_dir = true ->
   (forall img, img ∈ image_files ->
                makedirs_ok E (output_dir_of recovery_dir img) = true) ->
   commands (fst r)
   = map (command_for recovery_dir partitions_data enable_logs keep_corrupted_files)
         image_files).
Proof.
  intros wd recovery_dir image_files r.
  assert (Sorted String.le image_files) as Hsorted.
  { unfold image_files, _find_image_files.
    destruct (negb (truthy wd) || negb (is_dir E wd)); [constructor|].
    destruct (listdir E wd); [|constructor]. cbn [snd].
    apply Sorted_merge_sort. apply _. }
  assert (forall names,
             truthy wd = true -> is_dir E wd = true -> listdir E wd = Some names ->
             image_files ≡ₚ map (OsPath.join wd)
                               (List.filter (fun n => endswith n ".img") names)) as Hperm.
  { intros names Ht Hd Hl. unfold image_files, _find_image_files.
    rewrite Ht, Hd, Hl. cbn [negb orb snd]. apply merge_sort_Permutation. }
  pose proof (scan_loop_spec E recovery_dir partitions_data enable_logs
                keep_corrupted_files controller image_files) as Hloop.
  pose proof (find_image_files_no_commands E wd) as Hfind.
  cbv zeta in Hloop.
  assert (forall img, img ∈ image_files ->
            forallb (fun img => makedirs_ok E (output_dir_of recovery_dir img)) image_files
            = true -> makedirs_ok E (output_dir_of recovery_dir img) = true) as Hall.
  { intros img Hin Hf. rewrite forallb_forall in Hf. apply Hf. now apply list_elem_of_In. }
  unfold r, photorec_recover, os_makedirs. cbv zeta.
  fold wd. fold recovery_dir. clearbody recovery_dir.
  destruct (_find_image_files E wd) as [find_log files] eqn:Hfiles.
  cbn [fst snd] in *. subst image_files.
  destruct (makedirs_ok E recovery_dir) eqn:Hrec.
  2:{ cbn. split; [|split; [|split; [|split]]]; auto; [tauto | discriminate]. }
  destruct files as [|img files].
  { cbn. split; [|split; [|split; [|split]]]; auto; [tauto|].
    intros _ _. unfold commands. rewrite !omap_app. unfold commands in Hfind.
    now rewrite Hfind. }
  set (imgs := img :: files) in *.
  set (loop := for_each imgs _) in *.
  destruct (forallb (fun img => makedirs_ok E (output_dir_of recovery_dir img)) imgs)
    eqn:Hdirs.
  - destruct Hloop as [Hs Hc]. destruct loop as [lev lr]. cbn [fst snd] in Hs, Hc.
    subst lr. cbn. split; [|split; [|split; [|split]]]; auto.
    + split; [discriminate|]. intros [Hnil|[Hno|(x & Hx & Hbad)]];
        [discriminate | discriminate | pose proof (Hall x Hx eq_refl); congruence].
    + intros _ _. unfold commands in *. rewrite !omap_app, Hfind. cbn.
      rewrite !omap_app, Hc. cbn. now rewrite app_nil_r.
  - destruct Hloop as [e He]. destruct loop as [lev lr]. cbn [fst snd] in He.
    subst lr. cbn. split; [|split; [|split; [|split]]]; auto.
    + split; [intros _|reflexivity]. right. right.
      apply not_true_iff_false in Hdirs.
      destruct (decide (Forall (fun x => makedirs_ok E (output_dir_of recovery_dir x) = true) imgs))
        as [Hf|Hf].
      * exfalso. apply Hdirs. apply forallb_forall. intros x Hx.
        rewrite Forall_forall in Hf. apply Hf. now apply list_elem_of_In.
      * apply not_Forall_Exists in Hf; [|intros x; apply _].
        apply Exists_exists in Hf as (x & Hx & Hbad). exists x. split; [exact Hx|].
        cbv [compose] in Hbad. now destruct (makedirs_ok E (output_dir_of recovery_dir x)).
    + intros _ Hok. exfalso. apply not_true_iff_false in Hdirs. apply Hdirs.
      apply forallb_forall. intros x Hx. apply Hok. now apply list_elem_of_In.
Qed.

(** C8, as stated, fails: an image is found, but a regular file named
    [recovered_files] is in the way of the recovery directory, and the
    phase returns failure. *)
Lemma scanning_fails_with_image_present :
  (_find_image_files (Fixtures.recover_env ["sdb.img"] ["/w/recovered_files"]) "/w").2
    = ["/w/sdb.img"] /\
  snd (photorec_recover (Fixtures.recover_env ["sdb.img"] ["/w/recovered_files"])
         "/dest" (Some "/w") [] false false true) = Returned false.
Proof. split; vm_compute; reflexivity. Qed.

Lemma scanning_phase_outcome_witness :
  let E := Fixtures.recover_env ["sdb2.img"; "notes.txt"; "sdb.img"; "sdb1.img"] [] in
  let r := photorec_recover E "/dest" (Some "/w") [] false true true in
  snd r = Returned true /\
  commands (fst r) =
    [ ["photorec"; "/d"; "/w/recovered_files/sdb"; "/cmd"; "/w/sdb.img";
       "options,keep_corrupted_file,search"];
      ["photorec"; "/d"; "/w/recovered_files/sdb1"; "/cmd"; "/w/sdb1.img";
       "options,keep_corrupted_file,search"];
      ["photorec"; "/d"; "/w/recovered_files/sdb2"; "/cmd"; "/w/sdb2.img";
       "options,keep_corrupted_file,search"] ].
Proof.
  intros E r.
  destruct (scanning_phase_outcome E "/dest" (Some "/w") [] false true true)
    as (Hfalse & Hbool & _ & _ & Hcmds).
  split.
  - destruct Hbool as [Ht|Hf]; [exact Ht|]. exfalso.
    apply Hfalse in Hf as [Hnil|[Hno|(img & _ & Hbad)]].
    + vm_compute in Hnil. discriminate Hnil.
    + vm_compute in Hno. discriminate Hno.
    + unfold E, Fixtures.recover_env, makedirs_ok in Hbad.
      rewrite bool_decide_eq_false_2 in Hbad by apply not_elem_of_nil.
      discriminate Hbad.
  - unfold r. rewrite Hcmds.
    + vm_compute. reflexivity.
    + reflexivity.
    + intros img _. reflexivity.
Defined.
End RecoverFacts.

(** ** Collision-free names *)

Section UniquePathFacts.
Import PyStr Fs OrganiseFiles.
Local Open Scope fs_scope.
Local Open Scope nat_scope.

Variables directory filename : string.
Local Abbreviation cand := (candidate directory filename).
Local Abbreviation base_name := (OsPath.splitext filename).1.
Local Abbreviation ext := (OsPath.splitext filename).2.

Lemma candidate_S k :
  cand (S k) = OsPath.join directory (base_name +:+ "_" +:+ pretty (S k) +:+ ext).
Proof. unfold candidate. now destruct (OsPath.splitext filename). Qed.

Lemma candidate_inj j k : cand (S j) = cand (S k) -> j = k.
Proof.
  rewrite !candidate_S. intros H.
  apply join_inj in H; [|apply (startswith_app_char base_name _ _ "_"%char)].
  apply (inj (String.app base_name)) in H.
  apply (inj (String.app "_")) in H.
  apply str_app_inj_r in H. apply (inj pretty) in H. now injection H.
Qed.

Lemma unique_path_loop_step fuel n σ :
  unique_path_loop (S fuel) directory base_name ext (S n) (cand n) σ =
  if path_exists σ (cand n)
  then unique_path_loop fuel directory base_name ext (S (S n)) (cand (S n)) σ
  else (Ok (cand n), σ).
Proof.
  cbn [unique_path_loop]. unfold bind, os_path_exists.
  destruct (path_exists σ (cand n)); [|reflexivity].
  now rewrite candidate_S.
Qed.

(** The loop stops at the first candidate that does not exist. *)
Lemma unique_path_loop_finds σ m : forall n fuel,
  m < fuel ->
  path_exists σ (cand (n + m)) = false ->
  exists k,
    n <= k <= n + m /\
    path_exists σ (cand k) = false /\
    (forall j, n <= j < k -> path_exists σ (cand j) = true) /\
    unique_path_loop fuel directory base_name ext (S n) (cand n) σ = (Ok (cand k), σ).
Proof.
  induction m as [|m IH]; intros n fuel Hfuel Hfree;
    (destruct fuel as [|fuel]; [lia|]); rewrite unique_path_loop_step.
  - rewrite Nat.add_0_r in Hfree. rewrite Hfree. exists n.
    split; [lia|]. split; [exact Hfree|]. split; [intros j Hj; lia | reflexivity].
  - destruct (path_exists σ (cand n)) eqn:Hn.
    + destruct (IH (S n) fuel ltac:(lia)) as (k & Hk & Hfk & Hlt & Hrun).
      { now replace (S n + m) with (n + S m) by lia. }
      exists k. split; [lia|]. split; [exact Hfk|]. split; [|exact Hrun].
      intros j Hj. destruct (decide (j = n)) as [->|Hne]; [exact Hn|].
      apply Hlt. lia.
    + exists n. split; [lia|]. split; [exact Hn|].
      split; [intros j Hj; lia | reflexivity].
Qed.

(** Among the first [size + 1] numbered candidates one is free. *)
Lemma free_candidate σ :
  exists m, m <= S (size (all_paths σ)) /\ path_exists σ (cand m) = false.
Proof.
  set (N := size (all_paths σ)).
  destruct (decide (Forall (fun j => path_exists σ (cand j) = true) (seq 1 (S N))))
    as [Hall|Hsome].
  - exfalso.
    assert (NoDup (cand <$> seq 1 (S N))) as Hnd.
    { apply NoDup_fmap_2_strong; [|apply NoDup_seq].
      intros j k [Hj _]%elem_of_seq [Hk _]%elem_of_seq Heq.
      destruct j as [|j]; [lia|]. destruct k as [|k]; [lia|].
      f_equal. now apply candidate_inj. }
    assert (list_to_set (cand <$> seq 1 (S N)) ⊆ all_paths σ) as Hsub.
    { intros p [j [-> Hj]]%elem_of_list_to_set%list_elem_of_fmap.
      rewrite Forall_forall in Hall. specialize (Hall j Hj).
      unfold path_exists in Hall. now apply bool_decide_eq_true in Hall. }
    apply subseteq_size in Hsub.
    rewrite size_list_to_set, length_fmap, length_seq in Hsub by exact Hnd.
    unfold N in Hsub. lia.
  - apply not_Forall_Exists in Hsome; [|intros j; apply _].
    apply Exists_exists in Hsome as (m & [_ Hm]%elem_of_seq & Hfree).
    exists m. split; [lia|]. cbv [compose] in Hfree.
    destruct (path_exists σ (cand m)); [now destruct Hfree | reflexivity].
Qed.

(** [_get_unique_path] returns the first candidate that does not exist,
    and leaves the file system as it is. *)
Lemma get_unique_path_spec σ :
  exists k,
    _get_unique_path directory filename σ = (Ok (cand k), σ) /\
    path_exists σ (cand k) = false /\
    (forall j, j < k -> path_exists σ (cand j) = true).
Proof.
  destruct (free_candidate σ) as (m & Hm & Hfree).
  destruct (unique_path_loop_finds σ m 0 (S (S (size (all_paths σ)))) ltac:(lia) Hfree)
    as (k & _ & Hfk & Hlt & Hrun).
  exists k. split; [|split; [exact Hfk|]].
  - unfold _get_unique_path, bind, get. cbn [candidate] in Hrun.
    destruct (OsPath.splitext filename) as [b e]. exact Hrun.
  - intros j Hj. apply Hlt. lia.
Qed.
End UniquePathFacts.

Section UniquePathTheorems.
Import PyStr Fs OrganiseFiles.
Local Open Scope fs_scope.
Local Open Scope nat_scope.

(** The first free candidate is what [_get_unique_path] returns. *)
Lemma get_unique_path_at σ directory filename k :
  path_exists σ (candidate directory filename k) = false ->
  (forall j, j < k -> path_exists σ (candidate directory filename j) = true) ->
  _get_unique_path directory filename σ = (Ok (candidate directory filename k), σ).
Proof.
  intros Hfree Hbelow.
  destruct (get_unique_path_spec directory filename σ) as (k0 & Hrun & Hfree0 & Hbelow0).
  destruct (Nat.lt_trichotomy k0 k) as [Hlt|[->|Hgt]]; [|exact Hrun|].
  - rewrite (Hbelow k0 Hlt) in Hfree0. discriminate.
  - rewrite (Hbelow0 k Hgt) in Hfree. discriminate.
Qed.

Lemma run_twice {A} (m : M A) σ a :
  m σ = (Ok a, σ) ->
  (x <- m ;; y <- m ;; ret (x, y)) σ = (Ok (a, a), σ).
Proof. intros H. unfold bind, ret. now rewrite H, H. Qed.

(** C10.  [_get_unique_path] only reads the set of existing paths: it
    returns a path that does not exist and hands back the file system it
    was given, so a second call right after the first returns the same
    path.  Only when the returned path has been created in between does
    the next call move on, to a candidate with a larger number. *)
Theorem get_unique_path_read_only σ directory filename :
  exists k,
    _get_unique_path directory filename σ = (Ok (candidate directory filename k), σ) /\
    path_exists σ (candidate directory filename k) = false /\
    (p1 <- _get_unique_path directory filename ;;
     p2 <- _get_unique_path directory filename ;;
     ret (p1, p2)) σ
    = (Ok (candidate directory filename k, candidate directory filename k), σ) /\
    forall σ',
      all_paths σ' = all_paths σ ∪ {[candidate directory filename k]} ->
      exists k', k < k' /\
        _get_unique_path directory filename σ'
        = (Ok (candidate directory filename k'), σ').
Proof.
  destruct (get_unique_path_spec directory filename σ) as (k & Hrun & Hfree & Hbelow).
  exists k. split; [exact Hrun|]. split; [exact Hfree|].
  split; [now apply run_twice|].
  intros σ' Hσ'.
  destruct (get_unique_path_spec directory filename σ') as (k' & Hrun' & Hfree' & _).
  exists k'. split; [|exact Hrun'].
  unfold path_exists in Hfree'. apply bool_decide_eq_false in Hfree'.
  rewrite Hσ' in Hfree'.
  destruct (Nat.lt_trichotomy k k') as [Hlt|[<-|Hgt]]; [exact Hlt| |]; exfalso.
  - apply Hfree'. apply elem_of_union_r, elem_of_singleton. reflexivity.
  - apply Hfree'. specialize (Hbelow k' Hgt).
    unfold path_exists in Hbelow. apply bool_decide_eq_true in Hbelow.
    apply elem_of_union_l. exact Hbelow.
Qed.

Lemma all_paths_copy2 σ src dst :
  src ∈ all_files σ -> path_exists σ dst = false ->
  exists σ', shutil_copy2 src dst σ = (Ok tt, σ') /\
             all_paths σ' = all_paths σ ∪ {[dst]} /\
             trace σ' = trace σ ++ [Copied src dst].
Proof.
  intros Hsrc Hdst. unfold path_exists in Hdst. apply bool_decide_eq_false in Hdst.
  unfold shutil_copy2, copy_target. rewrite (bool_decide_eq_true_2 _ Hsrc).
  rewrite bool_decide_eq_false_2
    by (intros Hd; apply Hdst; unfold all_paths; now apply elem_of_union_r).
  eexists. split; [reflexivity|]. split; [|reflexivity].
  unfold all_paths, all_files, all_dirs. cbn [files entries dirs wd working_files].
  apply set_eq. intros p. rewrite !elem_of_union, elem_of_singleton. tauto.
Qed.

(** C5 (amended).  With [x.jpg] present in the directory and [x_1.jpg]
    and [x_2.jpg] absent, a call returns [x_1.jpg]; a second call right
    after it returns [x_1.jpg] again, since the first call created
    nothing; once a file has been copied to the first name, as every
    caller does, the next call returns [x_2.jpg]. *)
Theorem unique_path_x_jpg σ d src :
  path_exists σ (OsPath.join d "x.jpg") = true ->
  path_exists σ (OsPath.join d "x_1.jpg") = false ->
  path_exists σ (OsPath.join d "x_2.jpg") = false ->
  src ∈ all_files σ ->
  _get_unique_path d "x.jpg" σ = (Ok (OsPath.join d "x_1.jpg"), σ) /\
  (p1 <- _get_unique_path d "x.jpg" ;;
   p2 <- _get_unique_path d "x.jpg" ;;
   ret (p1, p2)) σ = (Ok (OsPath.join d "x_1.jpg", OsPath.join d "x_1.jpg"), σ) /\
  ((p1 <- _get_unique_path d "x.jpg" ;;
    shutil_copy2 src p1 ;;
    p2 <- _get_unique_path d "x.jpg" ;;
    ret (p1, p2)) σ).1 = Ok (OsPath.join d "x_1.jpg", OsPath.join d "x_2.jpg").
Proof.
  intros H0 H1 H2 Hsrc.
  assert (_get_unique_path d "x.jpg" σ = (Ok (OsPath.join d "x_1.jpg"), σ)) as Hfirst.
  { apply (get_unique_path_at σ d "x.jpg" 1); [exact H1|].
    intros j Hj. assert (j = 0) as -> by lia. exact H0. }
  split; [exact Hfirst|]. split; [now apply run_twice|].
  destruct (all_paths_copy2 σ src _ Hsrc H1) as (σ1 & Hcopy & Hpaths & _).
  unfold bind at 1. rewrite Hfirst. unfold bind at 1. rewrite Hcopy.
  unfold bind at 1.
  rewrite (get_unique_path_at σ1 d "x.jpg" 2); [reflexivity| |].
  - change (candidate d "x.jpg" 2) with (OsPath.join d "x_2.jpg").
    unfold path_exists in *. apply bool_decide_eq_false. rewrite Hpaths.
    apply bool_decide_eq_false in H2. intros [Hin|Hin%elem_of_singleton]%elem_of_union.
    + contradiction.
    + apply join_inj in Hin; [discriminate | reflexivity].
  - intros j Hj. unfold path_exists in *. apply bool_decide_eq_true. rewrite Hpaths.
    apply bool_decide_eq_true in H0.
    destruct j as [|[|j]]; [| |lia].
    + apply elem_of_union. left. exact H0.
    + apply elem_of_union. right. apply elem_of_singleton. reflexivity.
Qed.

(** C5, as stated, fails: two calls one after the other, with nothing
    created in between, both return [x_1.jpg]. *)
Lemma unique_path_twice_same_name :
  path_exists Fixtures.dest_with_x_jpg "/dest/jpg/x.jpg" = true /\
  ((p1 <- _get_unique_path "/dest/jpg" "x.jpg" ;;
    p2 <- _get_unique_path "/dest/jpg" "x.jpg" ;;
    ret (p1, p2)) Fixtures.dest_with_x_jpg).1
  = Ok ("/dest/jpg/x_1.jpg", "/dest/jpg/x_1.jpg").
Proof. split; vm_compute; reflexivity. Qed.

Lemma unique_path_x_jpg_witness :
  ((p1 <- _get_unique_path "/dest/jpg" "x.jpg" ;;
    shutil_copy2 "/dest/jpg/x.jpg" p1 ;;
    p2 <- _get_unique_path "/dest/jpg" "x.jpg" ;;
    ret (p1, p2)) Fixtures.dest_with_x_jpg).1
  = Ok ("/dest/jpg/x_1.jpg", "/dest/jpg/x_2.jpg").
Proof.
  apply (unique_path_x_jpg Fixtures.dest_with_x_jpg "/dest/jpg" "/dest/jpg/x.jpg").
  - vm_compute. reflexivity.
  - vm_compute. reflexivity.
  - vm_compute. reflexivity.
  - apply (bool_decide_eq_true_1 ("/dest/jpg/x.jpg" ∈ all_files Fixtures.dest_with_x_jpg)).
    vm_compute. reflexivity.
Defined.
End UniquePathTheorems.

(** ** Where the organiser puts files *)

Section HoareRules.
Import Fs OrganiseFiles.
Local Open Scope fs_scope.

Context {A B : Type}.

Lemma hoare_ret (a : A) (P : state -> Prop) (Q : A -> state -> Prop) E :
  (forall σ, P σ -> Q a σ) -> hoare P (ret a) Q E.
Proof. intros H σ HP. cbn. now apply H. Qed.

Lemma hoare_bind (m : M A) (k : A -> M B) P R Q E :
  hoare P m R E -> (forall a, hoare (R a) (k a) Q E) -> hoare P (bind m k) Q E.
Proof.
  intros Hm Hk σ HP. unfold bind. specialize (Hm σ HP).
  destruct (m σ) as [[a|e|] σ']; [|exact Hm..]. now apply Hk.
Qed.

Lemma hoare_conseq (m : M A) (P P' : state -> Prop) (Q Q' : A -> state -> Prop)
    (E E' : state -> Prop) :
  hoare P m Q E ->
  (forall σ, P' σ -> P σ) -> (forall a σ, Q a σ -> Q' a σ) -> (forall σ, E σ -> E' σ) ->
  hoare P' m Q' E'.
Proof.
  intros Hm HP HQ HE σ HP'. specialize (Hm σ (HP σ HP')).
  destruct (m σ) as [[a|e|] σ']; auto.
Qed.

Lemma hoare_try_except (m : M A) (h : exn -> M A) P Q E :
  hoare P m Q E -> (forall e, hoare E (h e) Q E) -> hoare P (try_except m h) Q E.
Proof.
  intros Hm Hh σ HP. unfold try_except. specialize (Hm σ HP).
  destruct (m σ) as [[a|e|] σ']; [exact Hm| |exact Hm]. now apply Hh.
Qed.

Lemma hoare_out_of_fuel (P : state -> Prop) (Q : A -> state -> Prop) :
  hoare P out_of_fuel Q P.
Proof. intros σ HP. exact HP. Qed.

Lemma hoare_raise e (P : state -> Prop) (Q : A -> state -> Prop) :
  hoare P (raise e) Q P.
Proof. intros σ HP. exact HP. Qed.
End HoareRules.

Section HoareLoops.
Import Fs OrganiseFiles.
Local Open Scope fs_scope.

Context {X S : Type} (J : state -> Prop).

Lemma hoare_fold_each (l : list X) (body : X -> S -> M S) :
  (forall x acc, x ∈ l -> hoare J (body x acc) (fun _ => J) J) ->
  forall acc, hoare J (fold_each l acc body) (fun _ => J) J.
Proof.
  induction l as [|x l IH]; intros Hbody acc; cbn [fold_each].
  - now apply hoare_ret.
  - apply (hoare_bind _ _ _ (fun _ => J)).
    + apply Hbody. apply list_elem_of_here.
    + intros acc'. apply IH. intros y acc'' Hy. apply Hbody.
      now apply list_elem_of_further.
Qed.

Lemma hoare_for_each (l : list X) (body : X -> M unit) :
  (forall x, x ∈ l -> hoare J (body x) (fun _ => J) J) ->
  hoare J (for_each l body) (fun _ => J) J.
Proof.
  induction l as [|x l IH]; intros Hbody; cbn [for_each].
  - now apply hoare_ret.
  - apply (hoare_bind _ _ _ (fun _ => J)).
    + apply Hbody. apply list_elem_of_here.
    + intros _. apply IH. intros y Hy. apply Hbody. now apply list_elem_of_further.
Qed.
End HoareLoops.

Section Routing.
Import PyStr Fs OrganiseFiles.
Local Open Scope fs_scope.
Local Open Scope nat_scope.

Variables (dest_path : string) (t0 : list event).
Local Abbreviation J := (routing_inv dest_path t0).
Local Abbreviation keeps m := (hoare J m (fun _ => J) J).

Lemma inv_step σ σ' e :
  J σ -> (wf_names σ -> wf_names σ') -> trace σ' = trace σ ++ [e] ->
  routed dest_path e -> J σ'.
Proof.
  intros [Hwf (new & Ht & Hnew)] Hwf' Ht' He. split; [auto|].
  exists (new ++ [e]). split.
  - now rewrite Ht', Ht, app_assoc.
  - apply Forall_app. split; [exact Hnew | now repeat constructor].
Qed.

Lemma wf_entries_remove w p es :
  wf_entries es -> wf_entries (flat_map (remove_from_entry w p) es).
Proof.
  unfold wf_entries. induction 1 as [|[n e] es He Hes IH]; cbn [flat_map]; [constructor|].
  apply Forall_app. split; [|exact IH].
  unfold remove_from_entry. cbn [fst snd]. destruct e as [|walk].
  - destruct (String.eqb (OsPath.join w n) p); repeat constructor.
  - repeat constructor. unfold clean_entry in *. cbn [snd] in *.
    apply Forall_fmap. eapply Forall_impl; [exact He|].
    intros s Hs. unfold clean_step in *. cbn [snd compose].
    apply Forall_forall. intros f Hf%list_elem_of_In%filter_In.
    rewrite Forall_forall in Hs. apply Hs. now apply list_elem_of_In.
Qed.

Lemma wf_entries_rmdir w p es :
  wf_entries es -> wf_entries (flat_map (rmdir_in_entry w p) es).
Proof.
  unfold wf_entries. induction 1 as [|[n e] es He Hes IH]; cbn [flat_map]; [constructor|].
  apply Forall_app. split; [|exact IH].
  unfold rmdir_in_entry. cbn [fst snd]. destruct e as [|walk].
  - repeat constructor.
  - destruct (String.eqb (OsPath.join w n) p); repeat constructor.
    unfold clean_entry in *. cbn [snd] in *. unfold rmdir_in_walk.
    apply Forall_fmap, Forall_forall. intros s Hs%list_elem_of_In%filter_In.
    rewrite Forall_forall in He. apply (He s). now apply list_elem_of_In.
Qed.

Lemma keeps_os_remove p : keeps (os_remove p).
Proof.
  intros σ HJ. unfold os_remove. case_bool_decide; [|exact HJ].
  apply (inv_step σ _ (Removed p) HJ); [|reflexivity|exact I].
  apply wf_entries_remove.
Qed.

Lemma keeps_shutil_move src dst : keeps (shutil_move src dst).
Proof.
  intros σ HJ. unfold shutil_move. case_bool_decide; [|exact HJ].
  apply (inv_step σ _ (Moved src (copy_target σ src dst)) HJ); [|reflexivity|exact I].
  apply wf_entries_remove.
Qed.

Lemma keeps_os_makedirs p : keeps (os_makedirs p).
Proof.
  intros σ HJ. unfold os_makedirs. repeat case_bool_decide; try exact HJ.
  now apply (inv_step σ _ (MadeDirs p) HJ).
Qed.

Lemma keeps_os_rmdir p : keeps (os_rmdir p).
Proof.
  intros σ HJ. unfold os_rmdir. destruct (removable σ p); [|exact HJ].
  apply (inv_step σ _ (RemovedDir p) HJ); [|reflexivity|exact I].
  apply wf_entries_rmdir.
Qed.

Lemma keeps_shutil_rmtree p : keeps (shutil_rmtree p).
Proof.
  intros σ HJ. unfold shutil_rmtree. destruct (String.eqb p (wd σ)); [|exact HJ].
  apply (inv_step σ _ (RemovedTree p) HJ); [|reflexivity|exact I].
  intros _. constructor.
Qed.

Lemma keeps_rdfind_disk log deleted : keeps (rdfind_disk log deleted).
Proof.
  intros σ HJ. unfold rdfind_disk.
  apply (inv_step σ _ (Rdfind log deleted) HJ); [|reflexivity|exact I].
  unfold wf_names. cbn [entries]. generalize (entries σ).
  induction deleted as [|p deleted IH]; intros es Hes; cbn [foldl]; [exact Hes|].
  apply IH. now apply wf_entries_remove.
Qed.

Lemma hoare_os_walk p :
  hoare J (os_walk p)
    (fun walk σ => J σ /\
       forall (s : walk_step) file, s ∈ walk -> file ∈ s.2 ->
                                    contains OsPath.sep file = false) J.
Proof.
  intros σ HJ. unfold os_walk. split; [exact HJ|].
  intros s file Hs Hf. destruct HJ as [Hwf _].
  apply list_elem_of_In, in_flat_map in Hs as ([n e] & Hine & Hs).
  cbn [fst snd] in Hs. destruct e as [|walk0]; [destruct Hs|].
  destruct (String.eqb (OsPath.join (wd σ) n) p); [|destruct Hs].
  unfold wf_names, wf_entries in Hwf. rewrite Forall_forall in Hwf.
  specialize (Hwf (n, Directory walk0) ltac:(now apply list_elem_of_In)).
  unfold clean_entry in Hwf. cbn [snd] in Hwf. rewrite Forall_forall in Hwf.
  specialize (Hwf s ltac:(now apply list_elem_of_In)).
  unfold clean_step in Hwf. rewrite Forall_forall in Hwf. now apply Hwf.
Qed.

Lemma keeps_os_getcwd : keeps os_getcwd.
Proof. intros σ HJ. exact HJ. Qed.

Lemma keeps_os_path_exists p : keeps (os_path_exists p).
Proof. intros σ HJ. exact HJ. Qed.

Lemma keeps_os_listdir p : keeps (os_listdir p).
Proof. intros σ HJ. unfold os_listdir. now destruct (String.eqb p (wd σ)). Qed.

Lemma keeps_os_path_isdir p : keeps (os_path_isdir p).
Proof. intros σ HJ. exact HJ. Qed.

Lemma keeps_get : keeps get.
Proof. intros σ HJ. exact HJ. Qed.

(** A numbered candidate's name is as relative as the file name. *)
Lemma candidate_in_directory directory filename k :
  startswith filename "/" = false ->
  exists name, startswith name "/" = false /\
               candidate directory filename k = OsPath.join directory name.
Proof.
  intros Hf. destruct k as [|k]; [now exists filename|].
  rewrite candidate_S. eexists. split; [|reflexivity].
  pose proof (splitext_app filename) as Happ.
  destruct (OsPath.splitext filename).1 as [|a b]; [reflexivity|].
  rewrite <- Happ in Hf. exact Hf.
Qed.

Lemma hoare_get_unique_path directory filename :
  hoare J (_get_unique_path directory filename)
    (fun p σ => J σ /\ path_exists σ p = false /\
       (startswith filename "/" = false ->
        exists name, startswith name "/" = false /\ p = OsPath.join directory name)) J.
Proof.
  intros σ HJ.
  destruct (get_unique_path_spec directory filename σ) as (k & -> & Hfree & _).
  split; [exact HJ|]. split; [exact Hfree|].
  intros Hf. now apply candidate_in_directory.
Qed.

Lemma corrupted_bucket_only dst :
  in_bucket dest_path "corrupted" dst ->
  forall bucket, bucket <> "" -> contains OsPath.sep bucket = false ->
                 bucket <> "corrupted" -> ~ in_bucket dest_path bucket dst.
Proof.
  intros (n1 & Hn1 & ->) bucket Hne Hclean Hdiff (n2 & Hn2 & Heq).
  apply Hdiff. symmetry.
  now apply (bucket_paths_differ dest_path "corrupted" bucket n1 n2).
Qed.

Lemma hoare_shutil_copy2 src dst :
  hoare (fun σ => J σ /\
                  (is_corrupted_name (OsPath.basename src) = true ->
                   path_exists σ dst = false /\ in_bucket dest_path "corrupted" dst))
    (shutil_copy2 src dst) (fun _ => J) J.
Proof.
  intros σ [HJ Hdst]. unfold shutil_copy2. case_bool_decide; [|exact HJ].
  apply (inv_step σ _ (Copied src (copy_target σ src dst)) HJ); [auto|reflexivity|].
  intros Hb. destruct (Hdst Hb) as [Hfree Hin].
  assert (copy_target σ src dst = dst) as ->.
  { unfold copy_target. apply bool_decide_eq_false in Hfree.
    rewrite bool_decide_eq_false_2; [reflexivity|].
    intros Hd. apply Hfree. unfold all_paths. now apply elem_of_union_r. }
  split; [exact Hin | now apply corrupted_bucket_only].
Qed.

Lemma keeps_bind {A B} (m : M A) (k : A -> M B) :
  keeps m -> (forall a, keeps (k a)) -> keeps (bind m k).
Proof. intros Hm Hk. now apply (hoare_bind _ _ _ (fun _ => J)). Qed.

Lemma keeps_ret {A} (a : A) : keeps (ret a).
Proof. now apply hoare_ret. Qed.

Lemma keeps_swallow (m : M unit) : keeps m -> keeps (try_except m (fun _ => ret tt)).
Proof. intros Hm. apply hoare_try_except; [exact Hm|]. intros _. apply keeps_ret. Qed.

Lemma keeps_weaken {A} (m : M A) (Q : A -> state -> Prop) :
  hoare J m (fun a σ => J σ /\ Q a σ) J -> keeps m.
Proof. intros H. apply (hoare_conseq _ _ _ _ _ _ _ H); tauto. Qed.

Lemma keeps_get_unique_path directory filename :
  keeps (_get_unique_path directory filename).
Proof. apply (keeps_weaken _ _ (hoare_get_unique_path directory filename)). Qed.

Lemma keeps_scan_file root file v : keeps (scan_file root file v).
Proof.
  unfold scan_file. destruct (is_report file).
  - apply keeps_bind; [apply keeps_swallow, keeps_os_remove | intros _; apply keeps_ret].
  - destruct (contains "." file && negb (startswith file ".")); [|apply keeps_ret].
    destruct (truthy (extension_of file) && negb (bool_decide (is_Some v.1)));
      apply keeps_ret.
Qed.

Lemma keeps_scan photorec_dirs : keeps (scan photorec_dirs).
Proof.
  unfold scan. apply hoare_fold_each. intros dir_path v _.
  apply keeps_bind; [apply (keeps_weaken _ _ (hoare_os_walk dir_path))|].
  intros walk. apply hoare_fold_each. intros s v' _.
  apply hoare_fold_each. intros file v'' _. apply keeps_scan_file.
Qed.

Local Abbreviation corrupted_dir := (OsPath.join dest_path "corrupted").

(** The destination chosen for a file with the corrupted-output name
    [filename] is a free path in the bucket [corrupted]. *)
Lemma hoare_corrupted_destination filename :
  startswith filename "/" = false ->
  hoare J (bind (os_makedirs corrupted_dir)
                (fun _ => _get_unique_path corrupted_dir filename))
    (fun dest σ => J σ /\ path_exists σ dest = false /\
                   in_bucket dest_path "corrupted" dest) J.
Proof.
  intros Hf. apply (hoare_bind _ _ _ (fun _ => J)); [apply keeps_os_makedirs|].
  intros _.
  apply (hoare_conseq _ _ _ _ _ _ _ (hoare_get_unique_path corrupted_dir filename));
    [tauto| |tauto].
  intros p σ (HJ & Hfree & Hname). split; [exact HJ|]. split; [exact Hfree|].
  exact (Hname Hf).
Qed.

Lemma keeps_move_file_with_extension filetype_dir extension root file processed :
  contains OsPath.sep file = false ->
  keeps (move_file_with_extension filetype_dir corrupted_dir extension root file
           processed).
Proof.
  intros Hclean. unfold move_file_with_extension.
  destruct (endswith (lower file) ("." +:+ extension)); [|apply keeps_ret].
  apply (hoare_bind _ _ _
           (fun dest σ => J σ /\
              (is_corrupted_name (OsPath.basename (OsPath.join root file)) = true ->
               path_exists σ dest = false /\ in_bucket dest_path "corrupted" dest))).
  - rewrite (basename_join root file Hclean).
    destruct (is_corrupted_name file) eqn:Hb.
    + apply (hoare_conseq _ _ _ _ _ _ _
               (hoare_corrupted_destination file (contains_startswith _ Hclean)));
        tauto.
    + apply (hoare_conseq _ _ _ _ _ _ _ (hoare_get_unique_path filetype_dir file));
        [tauto| |tauto].
      intros p σ [HJ _]. split; [exact HJ | discriminate].
  - intros dest. apply (hoare_bind _ _ _ (fun _ => J)); [apply hoare_shutil_copy2|].
    intros _. apply keeps_bind; [apply keeps_os_remove | intros _; apply keeps_ret].
Qed.

Lemma hoare_pure {A} (m : M A) (φ : Prop) (P : state -> Prop) Q E :
  (φ -> hoare P m Q E) -> hoare (fun σ => P σ /\ φ) m Q E.
Proof. intros H σ [HP Hφ]. now apply H. Qed.

Lemma keeps_process_files_with_extension photorec_dirs extension :
  keeps (_process_files_with_extension photorec_dirs extension dest_path).
Proof.
  unfold _process_files_with_extension.
  apply keeps_bind; [apply keeps_os_makedirs|]. intros _.
  apply hoare_fold_each. intros dir_path processed _.
  apply (hoare_bind _ _ _ _ _ _ (hoare_os_walk dir_path)).
  intros walk. apply hoare_pure. intros Hclean.
  apply hoare_fold_each. intros s processed' Hs.
  apply hoare_fold_each. intros file processed'' Hfile.
  apply keeps_move_file_with_extension. now apply (Hclean s).
Qed.

Lemma keeps_move_file_without_extension no_ext_dir file_path processed :
  keeps (move_file_without_extension no_ext_dir corrupted_dir file_path processed).
Proof.
  unfold move_file_without_extension.
  apply (hoare_bind _ _ _
           (fun dest σ => J σ /\
              (is_corrupted_name (OsPath.basename file_path) = true ->
               path_exists σ dest = false /\ in_bucket dest_path "corrupted" dest))).
  - destruct (is_corrupted_name (OsPath.basename file_path)) eqn:Hb.
    + apply (hoare_conseq _ _ _ _ _ _ _
               (hoare_corrupted_destination _
                  (contains_startswith _ (basename_clean file_path))));
        tauto.
    + apply (hoare_conseq _ _ _ _ _ _ _
               (hoare_get_unique_path no_ext_dir (OsPath.basename file_path)));
        [tauto| |tauto].
      intros p σ [HJ _]. split; [exact HJ | discriminate].
  - intros dest. apply (hoare_bind _ _ _ (fun _ => J)); [apply hoare_shutil_copy2|].
    intros _. apply keeps_bind; [apply keeps_os_remove | intros _; apply keeps_ret].
Qed.

Lemma keeps_process_files_without_extension files :
  keeps (_process_files_without_extension files dest_path).
Proof.
  unfold _process_files_without_extension.
  apply keeps_bind; [apply keeps_os_makedirs|]. intros _.
  apply hoare_fold_each. intros file_path processed _.
  apply keeps_move_file_without_extension.
Qed.

Lemma keeps_cleanup_empty_dirs photorec_dirs : keeps (_cleanup_empty_dirs photorec_dirs).
Proof.
  unfold _cleanup_empty_dirs. apply hoare_for_each. intros dir_path _.
  apply keeps_bind; [apply (keeps_weaken _ _ (hoare_os_walk dir_path))|].
  intros walk. apply keeps_bind.
  - apply hoare_for_each. intros s _. apply hoare_for_each. intros dirname _.
    apply keeps_swallow, keeps_os_rmdir.
  - intros _. apply keeps_swallow, keeps_os_rmdir.
Qed.

Lemma keeps_organize_loop fuel photorec_dirs : forall processed,
  keeps (organize_loop fuel photorec_dirs dest_path processed).
Proof.
  induction fuel as [|fuel IH]; intros processed; cbn [organize_loop].
  - apply hoare_out_of_fuel.
  - apply keeps_bind; [apply keeps_scan|]. intros [[current_ext|] files_no_ext].
    + apply keeps_bind; [apply keeps_process_files_with_extension|].
      intros n. apply IH.
    + destruct files_no_ext as [|f files_no_ext]; [apply keeps_ret|].
      apply keeps_bind; [apply keeps_process_files_without_extension|].
      intros n. apply IH.
Qed.

Lemma keeps_find_photorec_dirs working_path : keeps (find_photorec_dirs working_path).
Proof.
  unfold find_photorec_dirs. apply keeps_bind; [apply keeps_os_listdir|].
  intros items. apply hoare_fold_each. intros item dirs _.
  apply keeps_bind; [apply keeps_os_path_isdir|]. intros d.
  destruct (d && startswith item "recovered_files"); apply keeps_ret.
Qed.

Lemma keeps_organize_files_by_type working_path enable_logs :
  keeps (organize_files_by_type working_path dest_path enable_logs).
Proof.
  unfold organize_files_by_type. apply hoare_try_except; [|intros _; apply keeps_ret].
  apply keeps_bind; [apply keeps_find_photorec_dirs|].
  intros [|d photorec_dirs]; [apply keeps_ret|].
  apply keeps_bind; [apply keeps_get|]. intros σ.
  apply keeps_bind; [apply keeps_organize_loop|]. intros processed.
  apply keeps_bind; [apply keeps_cleanup_empty_dirs | intros _; apply keeps_ret].
Qed.

Lemma keeps_try_except {A} (m : M A) (h : exn -> M A) :
  keeps m -> (forall e, keeps (h e)) -> keeps (try_except m h).
Proof. intros Hm Hh. now apply hoare_try_except. Qed.

Lemma keeps_move_image_files working_dir device_path :
  keeps (move_image_files_to_destination working_dir dest_path device_path).
Proof.
  unfold move_image_files_to_destination.
  apply keeps_try_except; [|intros _; apply keeps_ret]. cbv zeta.
  apply keeps_bind; [apply keeps_os_makedirs|]. intros _.
  apply keeps_bind; [apply keeps_os_listdir|]. intros names.
  apply hoare_for_each. intros filename _.
  destruct (is_image_or_map filename); [|apply keeps_ret].
  match goal with |- hoare _ (if ?c then _ else _) _ _ => destruct c end;
    [apply keeps_shutil_move | apply keeps_os_remove].
Qed.

Lemma keeps_cleanup_image_files working_dir : keeps (_cleanup_image_files working_dir).
Proof.
  unfold _cleanup_image_files.
  apply keeps_try_except; [|intros _; apply keeps_ret].
  apply keeps_bind; [apply keeps_os_listdir|]. intros names.
  apply hoare_for_each. intros filename _.
  destruct (is_image_or_map filename); [apply keeps_os_remove | apply keeps_ret].
Qed.

Lemma keeps_handle_log_files working_path enable_logs :
  keeps (_handle_log_files working_path dest_path enable_logs).
Proof.
  unfold _handle_log_files. apply keeps_bind; [apply keeps_os_getcwd|].
  intros current_dir. cbv zeta. destruct enable_logs.
  - apply keeps_bind; [apply keeps_os_makedirs|]. intros _.
    apply keeps_bind; [|intros _; apply keeps_ret].
    apply hoare_fold_each. intros loc processed_files _.
    apply keeps_bind; [apply keeps_os_path_exists|]. intros present.
    destruct (present && negb (bool_decide (loc.1 ∈ processed_files)));
      [|apply keeps_ret].
    apply keeps_bind; [apply keeps_get_unique_path|]. intros dest_path_full.
    apply keeps_bind; [apply keeps_shutil_move | intros _; apply keeps_ret].
  - apply keeps_bind; [|intros _; apply keeps_ret].
    apply hoare_fold_each. intros loc processed_files _.
    apply keeps_try_except; [|intros _; apply keeps_ret].
    apply keeps_bind; [apply keeps_os_path_exists|]. intros present.
    destruct (present && negb (bool_decide (loc.1 ∈ processed_files)));
      [|apply keeps_ret].
    apply keeps_bind; [apply keeps_os_remove | intros _; apply keeps_ret].
Qed.

Lemma keeps_dedup_step recovery_dir controller E :
  keeps (dedup_step recovery_dir controller E).
Proof.
  unfold dedup_step.
  destruct (Duplicates.remove_duplicates_with_rdfind recovery_dir controller E)
    as [log r].
  apply keeps_bind.
  - destruct (Duplicates.launched log); apply keeps_rdfind_disk.
  - intros _. destruct r; [apply keeps_ret | apply hoare_raise].
Qed.

Lemma keeps_organize_and_cleanup working_dir save_image enable_logs remove_duplicates
    device_path controller E :
  keeps (organize_and_cleanup working_dir dest_path save_image enable_logs
           remove_duplicates device_path controller E).
Proof.
  unfold organize_and_cleanup, image_step, after_dedup. cbv zeta.
  apply keeps_bind.
  { destruct save_image; [apply keeps_move_image_files | apply keeps_cleanup_image_files]. }
  intros _. apply keeps_bind.
  { destruct remove_duplicates; [apply keeps_dedup_step | apply keeps_ret]. }
  intros _. apply keeps_bind; [apply keeps_handle_log_files|]. intros _.
  apply keeps_bind; [apply keeps_organize_files_by_type|]. intros success.
  apply keeps_bind; [|intros _; apply keeps_ret].
  destruct (success && from_option truthy false working_dir); [|apply keeps_ret].
  apply keeps_swallow, keeps_shutil_rmtree.
Qed.
End Routing.

Section RoutingTheorem.
Import PyStr Fs OrganiseFiles.

Lemma routing_inv_start dest_path σ : wf_names σ -> routing_inv dest_path (trace σ) σ.
Proof. intros Hwf. split; [exact Hwf|]. exists []. now rewrite app_nil_r. Qed.

Lemma keeps_run {A} dest_path (m : M A) σ :
  hoare (routing_inv dest_path (trace σ)) m
    (fun _ => routing_inv dest_path (trace σ)) (routing_inv dest_path (trace σ)) ->
  wf_names σ ->
  exists new, trace (m σ).2 = trace σ ++ new /\ Forall (routed dest_path) new.
Proof.
  intros Hm Hwf. specialize (Hm σ (routing_inv_start dest_path σ Hwf)).
  destruct (m σ) as [[a|e|] σ']; cbn [snd]; apply Hm.
Qed.

(** In every run of the organiser, on any tree whose file names are
    proper names, each copy of a file whose name starts with "b" or "B"
    goes to a free path in the bucket [corrupted], and so to no other
    bucket of the destination ([jpg] for [bcafe1234.jpg], [no_file_type],
    ...); this holds of [organize_files_by_type] itself and of the whole
    third phase of the job, which behaves the same whatever the
    [keep_corrupted_files] switch says. *)
Theorem corrupted_names_go_to_corrupted σ working_dir dest device E
    (o o' : Application.options) enable_logs :
  wf_names σ ->
  (exists new,
      trace (organize_files_by_type working_dir dest enable_logs σ).2 = trace σ ++ new /\
      Forall (routed dest) new) /\
  (exists new,
      trace (Application.organise_phase o working_dir dest device E σ).2
        = trace σ ++ new /\
      Forall (routed dest) new) /\
  (Application.save_image o' = Application.save_image o ->
   Application.enable_logs o' = Application.enable_logs o ->
   Application.remove_duplicates o' = Application.remove_duplicates o ->
   Application.organise_phase o' working_dir dest device E
   = Application.organise_phase o working_dir dest device E).
Proof.
  intros Hwf. split; [|split].
  - apply keeps_run; [apply keeps_organize_files_by_type | exact Hwf].
  - apply keeps_run; [apply keeps_organize_and_cleanup | exact Hwf].
  - intros H1 H2 H3. unfold Application.organise_phase. now rewrite H1, H2, H3.
Qed.

Lemma corrupted_names_go_to_corrupted_witness :
  let σ := Fixtures.working_tree ["bcafe1234.jpg"; "f0001.jpg"; "B77"] in
  wf_names σ /\
  exists new,
    trace (organize_files_by_type "/w" "/dest" false σ).2 = trace σ ++ new /\
    Forall (routed "/dest") new.
Proof.
  intros σ.
  assert (wf_names σ) as Hwf by (repeat constructor).
  split; [exact Hwf|].
  apply (corrupted_names_go_to_corrupted σ "/w" "/dest" "/dev/sdb"
           Fixtures.rdfind_hangs
           {| Application.save_image := false; Application.enable_logs := false;
              Application.keep_corrupted_files := true;
              Application.remove_duplicates := false;
              Application.scan_partitions := false |}
           {| Application.save_image := false; Application.enable_logs := false;
              Application.keep_corrupted_files := false;
              Application.remove_duplicates := false;
              Application.scan_partitions := false |} false Hwf).
Defined.

(** What the run of the witness copies where. *)
Example corrupted_names_example :
  copies (trace (organize_files_by_type "/w" "/dest" false
                   (Fixtures.working_tree ["bcafe1234.jpg"; "f0001.jpg"; "B77"])).2)
  = [ ("/w/recovered_files/sdb/recup_dir.1/bcafe1234.jpg", "/dest/corrupted/bcafe1234.jpg");
      ("/w/recovered_files/sdb/recup_dir.1/f0001.jpg", "/dest/jpg/f0001.jpg");
      ("/w/recovered_files/sdb/recup_dir.1/B77", "/dest/corrupted/B77") ].
Proof. vm_compute. reflexivity. Qed.

(** C3: the comment in the code says the files without extension are
    processed first; the guard [files_no_ext and not current_ext] makes
    them wait until no file with an extension is left.  Here [f2] comes
    first in the listing and is still moved last. *)
Theorem extension_batches_run_before_no_extension_batch :
  let r := organize_files_by_type "/w" "/dest" false
             (Fixtures.working_tree ["f2"; "f1.jpg"; "f3.png"]) in
  r.1 = Ok true /\
  copies (trace r.2)
  = [ ("/w/recovered_files/sdb/recup_dir.1/f1.jpg", "/dest/jpg/f1.jpg");
      ("/w/recovered_files/sdb/recup_dir.1/f3.png", "/dest/png/f3.png");
      ("/w/recovered_files/sdb/recup_dir.1/f2", "/dest/no_file_type/f2") ].
Proof. split; vm_compute; reflexivity. Qed.

(** C4: a file whose name ends in a dot has a dot in its name and an
    empty extension; the scan neither takes it for a file with an
    extension nor collects it with the files without one, so it is never
    moved: after the run it is still where it was. *)
Theorem trailing_dot_file_left_in_place :
  let r := organize_files_by_type "/w" "/dest" false
             (Fixtures.working_tree ["f1.jpg"; "notes."]) in
  r.1 = Ok true /\
  copies (trace r.2)
  = [ ("/w/recovered_files/sdb/recup_dir.1/f1.jpg", "/dest/jpg/f1.jpg") ] /\
  working_files r.2 = ["/w/sdb.img"; "/w/recovered_files/sdb/recup_dir.1/notes."].
Proof. split; [|split]; vm_compute; reflexivity. Qed.

(** C6: a file whose name starts with "b" and ends in a dot is in no
    batch of the scan, so it is not routed at all.  Of the two recovered
    files "bcafe1234.jpg" and "bnotes.", the first is copied to the
    bucket "corrupted"; the second is copied nowhere, neither to
    "corrupted" nor to another bucket, and is still in the working tree
    when the organiser returns [True]. *)
Theorem corrupted_name_with_trailing_dot_left_in_place :
  let r := organize_files_by_type "/w" "/dest" false
             (Fixtures.working_tree ["bcafe1234.jpg"; "bnotes."]) in
  is_corrupted_name "bnotes." = true /\
  r.1 = Ok true /\
  copies (trace r.2)
  = [ ("/w/recovered_files/sdb/recup_dir.1/bcafe1234.jpg",
       "/dest/corrupted/bcafe1234.jpg") ] /\
  working_files r.2
  = ["/w/sdb.img"; "/w/recovered_files/sdb/recup_dir.1/bnotes."].
Proof. split; [|split; [|split]]; vm_compute; reflexivity. Qed.
End RoutingTheorem.

(** ** De-duplication never stops the job *)

Section DuplicatesFacts.
Import Proc Duplicates.
Local Open Scope proc_scope.

Lemma try_except_returns (m : proc unit) (handler : exn -> proc unit) :
  (forall e, snd (handler e) = Returned tt) ->
  snd (try_except m handler) = Returned tt.
Proof.
  intros Hh. destruct m as [ev [[]|e]]; cbn; [reflexivity|].
  specialize (Hh e). destruct (handler e) as [ev' r]. exact Hh.
Qed.

Lemma remove_duplicates_returns recovery_dir controller E :
  snd (remove_duplicates_with_rdfind recovery_dir controller E) = Returned tt.
Proof.
  unfold remove_duplicates_with_rdfind. apply try_except_returns.
  intros e. destruct (is_timeout_expired e); reflexivity.
Qed.

Lemma remove_duplicates_tool_missing recovery_dir controller E :
  which E "rdfind" = false ->
  remove_duplicates_with_rdfind recovery_dir controller E =
  ([Log Info "=== Scanning For Duplicates ===";
    Log Info ("Scanning for duplicates in: " +:+ recovery_dir);
    Log Warning "Missing required tools: rdfind; skipping duplicate removal"],
   Returned tt).
Proof.
  intros Hw. unfold remove_duplicates_with_rdfind, rdfind_body, Preflight.check_tools_exist.
  cbn [List.filter]. rewrite Hw. reflexivity.
Qed.

Lemma rdfind_timeout_default E :
  timeout_var E = None -> rdfind_timeout E = ([], Returned 1800%Z).
Proof. intros H. unfold rdfind_timeout. rewrite H. reflexivity. Qed.
End DuplicatesFacts.

Section InTime.
Import Fs OrganiseFiles.
Local Open Scope fs_scope.

Lemma in_time_bind {A B} (m : M A) (k : A -> M B) :
  in_time m -> (forall a, in_time (k a)) -> in_time (bind m k).
Proof.
  intros Hm Hk σ. unfold bind. specialize (Hm σ).
  destruct (m σ) as [[a|e|] σ']; [apply Hk | discriminate | contradiction].
Qed.

Lemma in_time_ret {A} (a : A) : in_time (ret a).
Proof. intros σ. discriminate. Qed.

Lemma in_time_for_each {X} (l : list X) (body : X -> M unit) :
  (forall x, in_time (body x)) -> in_time (for_each l body).
Proof.
  intros Hb. induction l as [|x l IH]; cbn [for_each]; [apply in_time_ret|].
  apply in_time_bind; [apply Hb | intros _; exact IH].
Qed.

Lemma in_time_os_remove p : in_time (os_remove p).
Proof. intros σ. unfold os_remove. case_bool_decide; discriminate. Qed.

Lemma in_time_shutil_move src dst : in_time (shutil_move src dst).
Proof. intros σ. unfold shutil_move. case_bool_decide; discriminate. Qed.

Lemma in_time_os_makedirs p : in_time (os_makedirs p).
Proof. intros σ. unfold os_makedirs. repeat case_bool_decide; discriminate. Qed.

Lemma in_time_os_listdir p : in_time (os_listdir p).
Proof. intros σ. unfold os_listdir. destruct (String.eqb p (wd σ)); discriminate. Qed.

(** A block under [except Exception: pass] that ends in time ends well. *)
Lemma swallow_total (m : M unit) σ :
  in_time m -> exists σ', try_except m (fun _ => ret tt) σ = (Ok tt, σ').
Proof.
  intros Hm. unfold try_except. specialize (Hm σ).
  destruct (m σ) as [[[]|e|] σ']; [eauto | eexists; reflexivity | contradiction].
Qed.

Lemma image_step_total working_dir dest_path save_image device_path σ :
  exists σ', image_step working_dir dest_path save_image device_path σ = (Ok tt, σ').
Proof.
  unfold image_step. destruct save_image.
  - apply swallow_total.
    apply in_time_bind; [apply in_time_os_makedirs|]. intros _.
    apply in_time_bind; [apply in_time_os_listdir|]. intros names.
    apply in_time_for_each. intros filename.
    destruct (is_image_or_map filename); [|apply in_time_ret].
    cbv zeta.
    match goal with |- in_time (if ?c then _ else _) => destruct c end;
      [apply in_time_shutil_move | apply in_time_os_remove].
  - apply swallow_total.
    apply in_time_bind; [apply in_time_os_listdir|]. intros names.
    apply in_time_for_each. intros filename.
    destruct (is_image_or_map filename); [apply in_time_os_remove | apply in_time_ret].
Qed.

Lemma dedup_step_total recovery_dir controller E σ :
  exists σ', dedup_step recovery_dir controller E σ = (Ok tt, σ').
Proof.
  unfold dedup_step.
  pose proof (remove_duplicates_returns recovery_dir controller E) as Hr.
  destruct (Duplicates.remove_duplicates_with_rdfind recovery_dir controller E)
    as [log r]. cbn [snd] in Hr. subst r.
  destruct (Duplicates.launched log); eexists; reflexivity.
Qed.

(** C9.  Whatever happens to the duplicate removal (rdfind missing when
    it is looked up at the call, a nonzero exit code, the timeout, which
    is 1800 seconds unless the environment sets it, a cancellation, or an
    exception raised on the way), [remove_duplicates_with_rdfind] returns
    and does not raise; inside [organize_and_cleanup] the rest of the
    organiser (logs, organising, clean-up) then runs, from the state the
    duplicate removal left. *)
Theorem dedup_outcome_never_fatal working_dir dest_path save_image enable_logs
    device_path controller E σ :
  let recovery_dir := OsPath.join (or_else working_dir dest_path) "recovered_files" in
  snd (Duplicates.remove_duplicates_with_rdfind recovery_dir controller E)
    = Proc.Returned tt /\
  (Duplicates.which E "rdfind" = false ->
   Duplicates.remove_duplicates_with_rdfind recovery_dir controller E =
   ([Proc.Log Proc.Info "=== Scanning For Duplicates ===";
     Proc.Log Proc.Info ("Scanning for duplicates in: " +:+ recovery_dir);
     Proc.Log Proc.Warning
       "Missing required tools: rdfind; skipping duplicate removal"],
    Proc.Returned tt)) /\
  (Duplicates.timeout_var E = None ->
   Duplicates.rdfind_timeout E = ([], Proc.Returned 1800%Z)) /\
  exists σ1 σ2,
    image_step working_dir dest_path save_image device_path σ = (Ok tt, σ1) /\
    dedup_step recovery_dir controller E σ1 = (Ok tt, σ2) /\
    organize_and_cleanup working_dir dest_path save_image enable_logs true
      device_path controller E σ
    = after_dedup working_dir dest_path enable_logs σ2.
Proof.
  intros recovery_dir.
  split; [apply remove_duplicates_returns|].
  split; [apply remove_duplicates_tool_missing|].
  split; [apply rdfind_timeout_default|].
  destruct (image_step_total working_dir dest_path save_image device_path σ) as [σ1 H1].
  destruct (dedup_step_total recovery_dir controller E σ1) as [σ2 H2].
  exists σ1, σ2. split; [exact H1|]. split; [exact H2|].
  unfold organize_and_cleanup. fold recovery_dir.
  unfold bind at 1. rewrite H1. unfold bind at 1. rewrite H2. reflexivity.
Qed.

(** rdfind runs past the default timeout: it is terminated, then killed,
    and the function returns. *)
Example dedup_timeout_example :
  Duplicates.remove_duplicates_with_rdfind "/w/recovered_files" true Fixtures.rdfind_hangs =
  ([Proc.Log Proc.Info "=== Scanning For Duplicates ===";
    Proc.Log Proc.Info "Scanning for duplicates in: /w/recovered_files";
    Proc.Log Proc.Info "Running rdfind to remove duplicates...";
    Proc.Popen ["rdfind"; "-deleteduplicates"; "true"; "/w/recovered_files"];
    Proc.Sleep;
    Proc.Log Proc.Error "rdfind timed out after 1800 seconds";
    Proc.Terminate; Proc.Kill],
   Proc.Returned tt).
Proof. vm_compute. reflexivity. Qed.
End InTime.

(** ** The recovery job *)

Section RecoveryProcessFacts.
Import PyStr RecoveryProcess.
Local Open Scope job_scope.
Local Open Scope nat_scope.

Lemma job_fst_bind {A B} (m : job A) (k : A -> job B) :
  fst (bind m k) = match snd m with Go a => fst m ++ fst (k a) | _ => fst m end.
Proof. destruct m as [ev [a| |]]; cbn; [destruct (k a)|..]; reflexivity. Qed.

Lemma job_snd_bind {A B} (m : job A) (k : A -> job B) :
  snd (bind m k) = match snd m with Go a => snd (k a) | Return => Return | Raise => Raise end.
Proof. destruct m as [ev [a| |]]; cbn; [destruct (k a)|..]; reflexivity. Qed.

Ltac job_crunch :=
  cbn;
  repeat match goal with
         | |- _ /\ _ => split
         | |- _ <-> _ => split
         end;
  intros; try discriminate; try reflexivity;
  try (left; reflexivity); try (right; reflexivity);
  try (split; [reflexivity | repeat constructor]).

(** What the first part of the job, up to the scan, comes to. *)
Lemma source_phase E device working_dir :
  let m := if negb (startswith device "/dev/") then use_image_file E device working_dir
           else image_device E device working_dir in
  recovery_started (fst m) = false /\ organising_started (fst m) = false /\
  reports_success (fst m) = false /\ dialog_closings (fst m) = 0 /\
  (snd m = Go tt \/ snd m = Return) /\
  (snd m = Go tt <-> source_ready E device working_dir = true) /\
  (imaging_started (fst m) = true ->
   startswith device "/dev/" = true /\
   Imaging device working_dir
     (if Application.scan_partitions (options E)
      then device_partition_paths E device else []) ∈ fst m).
Proof.
  cbv zeta. unfold source_ready.
  destruct (startswith device "/dev/") eqn:Hdev; cbn [negb].
  - unfold image_device, check_cancel.
    destruct (Application.scan_partitions (options E));
      [destruct (device_partition_paths E device) as [|p ps]|];
      destruct (cancel_requested E AsDevice), (cancel_requested E BeforeImaging);
      try destruct (imaging_success E _); job_crunch.
  - unfold use_image_file, check_cancel.
    destruct (cancel_requested E AsImageFile);
      [|destruct (String.eqb device (OsPath.join working_dir (OsPath.basename device)));
        [|destruct (copy_error E) as [e|]]]; job_crunch.
Qed.

Lemma scan_and_organise_facts E device dest working_dir :
  let t := scan_and_organise E device dest working_dir in
  imaging_started (fst t) = false /\
  recovery_started (fst t) = negb (cancel_requested E BeforeRecovery) /\
  organising_started (fst t)
  = negb (cancel_requested E BeforeRecovery) && recovery_success E
    && negb (cancel_requested E BeforeOrganise) /\
  reports_success (fst t)
  = negb (cancel_requested E BeforeRecovery) && recovery_success E
    && negb (cancel_requested E BeforeOrganise)
    && bool_decide (is_Some (organise_result E))
    && negb (cancel_requested E AfterOrganise) /\
  dialog_closings (fst t) = 0 /\
  (snd t = Raise <->
   organising_started (fst t) = true /\ organise_result E = None).
Proof.
  cbv zeta. unfold scan_and_organise, check_cancel.
  destruct (cancel_requested E BeforeRecovery), (recovery_success E),
    (cancel_requested E BeforeOrganise), (organise_result E) as [b|],
    (cancel_requested E AfterOrganise); job_crunch;
    try (destruct H; discriminate).
Qed.

Lemma imaging_started_app ev ev' :
  imaging_started (ev ++ ev') = imaging_started ev || imaging_started ev'.
Proof. apply existsb_app. Qed.
Lemma recovery_started_app ev ev' :
  recovery_started (ev ++ ev') = recovery_started ev || recovery_started ev'.
Proof. apply existsb_app. Qed.
Lemma organising_started_app ev ev' :
  organising_started (ev ++ ev') = organising_started ev || organising_started ev'.
Proof. apply existsb_app. Qed.
Lemma reports_success_app ev ev' :
  reports_success (ev ++ ev') = reports_success ev || reports_success ev'.
Proof. apply existsb_app. Qed.
Lemma dialog_closings_app ev ev' :
  dialog_closings (ev ++ ev') = dialog_closings ev + dialog_closings ev'.
Proof. unfold dialog_closings. now rewrite List.filter_app, length_app. Qed.

(** The body, by its three parts. *)
Lemma recovery_body_parts E device dest working_dir :
  let m := if negb (startswith device "/dev/") then use_image_file E device working_dir
           else image_device E device working_dir in
  let t := scan_and_organise E device dest working_dir in
  recovery_body E device dest working_dir
  = if cancel_requested E AtStart then ([Label "Recovery cancelled"], Return)
    else ([Label "Starting data recovery...";
           Info (nl +:+ "Starting Data Recovery Process...");
           Info ("Source: " +:+ device);
           Info ("Destination path: " +:+ dest);
           Info ("Using working directory: " +:+ working_dir)]
            ++ fst m ++ match snd m with Go _ => fst t | _ => [] end,
          match snd m with Go _ => snd t | Return => Return | Raise => Raise end).
Proof.
  cbv zeta. unfold recovery_body, check_cancel.
  destruct (cancel_requested E AtStart); [reflexivity|].
  destruct (if negb (startswith device "/dev/") then _ else _) as [ev [[]| |]];
    cbn; [|now rewrite app_nil_r..].
  now destruct (scan_and_organise E device dest working_dir).
Qed.
(** X26.  The phases of the job start in order and each only after the
    one before it has succeeded and no cancellation has been seen on the
    way: the scan starts exactly when the source is ready (an image file
    in the working directory or copied to it, or a device whose imaging
    succeeded), the organising exactly when the scan has started and
    succeeded; a device is imaged with its own partitions when the
    partition switch is on and with none otherwise. *)
Theorem phases_start_in_order E device dest working_dir :
  let ev := fst (_run_recovery_process E device dest working_dir) in
  recovery_started ev
  = negb (cancel_requested E AtStart) && source_ready E device working_dir
    && negb (cancel_requested E BeforeRecovery) /\
  organising_started ev
  = recovery_started ev && recovery_success E
    && negb (cancel_requested E BeforeOrganise) /\
  (imaging_started ev = true ->
   startswith device "/dev/" = true /\
   Imaging device working_dir
     (if Application.scan_partitions (options E)
      then device_partition_paths E device else []) ∈ ev).
Proof.
  cbv zeta. unfold _run_recovery_process, finally. cbn [fst].
  rewrite recovery_started_app, organising_started_app, imaging_started_app.
  rewrite recovery_body_parts.
  destruct (cancel_requested E AtStart); [job_crunch|]. cbn [fst negb andb].
  destruct (source_phase E device working_dir)
    as (Hr & Ho & _ & _ & Hend & Hready & Himg).
  destruct (scan_and_organise_facts E device dest working_dir)
    as (Hi' & Hr' & Ho' & _ & _ & _).
  cbv zeta in *.
  set (m := if negb (startswith device "/dev/") then _ else _) in *.
  rewrite !recovery_started_app, !organising_started_app, !imaging_started_app, Hr, Ho.
  cbn [recovery_started organising_started imaging_started existsb orb].
  destruct (source_ready E device working_dir).
  - rewrite (proj2 Hready eq_refl), Hr', Ho', Hi'. rewrite !orb_false_r.
    split; [reflexivity|]. split; [reflexivity|].
    intros Hs. destruct (Himg Hs) as [Hdev Hin]. split; [exact Hdev|].
    do 5 apply list_elem_of_further. apply elem_of_app. left.
    apply elem_of_app. now left.
  - destruct Hend as [Hgo|Hret]; [apply Hready in Hgo; discriminate|].
    rewrite Hret. cbn [recovery_started organising_started imaging_started existsb orb].
    rewrite !orb_false_r. split; [reflexivity|]. split; [reflexivity|].
    intros Hs. destruct (Himg Hs) as [Hdev Hin]. split; [exact Hdev|].
    do 5 apply list_elem_of_further. apply elem_of_app. left.
    apply elem_of_app. now left.
Qed.

(** X27.  The job reports success once the organising has been started,
    [organize_and_cleanup] has not raised and no cancellation is seen
    after it, whatever [organize_and_cleanup] returned: its result is not
    looked at, so a job whose organising failed is reported like one
    whose organising succeeded.  An exception of the organiser is the
    only way the job raises. *)
Theorem success_is_reported_whatever_the_organiser_returns E device dest working_dir :
  let r := _run_recovery_process E device dest working_dir in
  reports_success (fst r)
  = organising_started (fst r) && bool_decide (is_Some (organise_result E))
    && negb (cancel_requested E AfterOrganise) /\
  (snd r = Raise <-> organising_started (fst r) = true /\ organise_result E = None) /\
  forall b b',
    _run_recovery_process (with_organise_result E (Some b)) device dest working_dir
    = _run_recovery_process (with_organise_result E (Some b')) device dest working_dir.
Proof.
  cbv zeta. split; [|split].
  - unfold _run_recovery_process, finally. cbn [fst].
    rewrite reports_success_app, organising_started_app, recovery_body_parts.
    destruct (cancel_requested E AtStart); [reflexivity|]. cbn [fst].
    destruct (source_phase E device working_dir) as (_ & Ho & Hs & _ & Hend & _).
    destruct (scan_and_organise_facts E device dest working_dir)
      as (_ & _ & Ho' & Hs' & _ & _).
    cbv zeta in *.
    set (m := if negb (startswith device "/dev/") then _ else _) in *.
    rewrite !reports_success_app, !organising_started_app, Ho, Hs.
    cbn [reports_success organising_started existsb orb String.eqb Ascii.eqb].
    destruct Hend as [-> | ->].
    + rewrite Hs', Ho'. cbn. now rewrite !orb_false_r.
    + reflexivity.
  - unfold _run_recovery_process, finally. cbn [fst snd].
    rewrite organising_started_app, recovery_body_parts.
    destruct (cancel_requested E AtStart);
      [cbn; split; [discriminate | now intros [? _]]|]. cbn [fst snd].
    destruct (source_phase E device working_dir) as (_ & Ho & _ & _ & Hend & _).
    destruct (scan_and_organise_facts E device dest working_dir)
      as (_ & _ & _ & _ & _ & Hraise).
    cbv zeta in *.
    set (m := if negb (startswith device "/dev/") then _ else _) in *.
    rewrite !organising_started_app, Ho.
    cbn [organising_started existsb orb].
    destruct Hend as [-> | ->].
    + rewrite orb_false_r. exact Hraise.
    + cbn. split; [discriminate | now intros [? _]].
  - intros b b'. unfold _run_recovery_process, recovery_body, scan_and_organise.
    reflexivity.
Qed.

(** X28.  Whichever way the job ends (cancelled at any point, a phase
    failed, the organiser raised, or all went well) it asks the main
    loop to close the progress dialog exactly once, as its last act. *)
Theorem dialog_is_closed_once_at_the_end E device dest working_dir :
  let ev := fst (_run_recovery_process E device dest working_dir) in
  last ev = Some CloseDialog /\ dialog_closings ev = 1.
Proof.
  cbv zeta. unfold _run_recovery_process, finally. cbn [fst].
  split; [apply last_snoc|].
  rewrite dialog_closings_app, recovery_body_parts.
  destruct (cancel_requested E AtStart); [reflexivity|]. cbn [fst].
  destruct (source_phase E device working_dir) as (_ & _ & _ & Hd & Hend & _).
  destruct (scan_and_organise_facts E device dest working_dir)
    as (_ & _ & _ & _ & Hd' & _).
  cbv zeta in *.
  set (m := if negb (startswith device "/dev/") then _ else _) in *.
  rewrite !dialog_closings_app, Hd.
  destruct Hend as [-> | ->]; [rewrite Hd'|]; reflexivity.
Qed.
End RecoveryProcessFacts.

(** ** More on the mount-safety gate *)

Section MountedCheckMoreFacts.
Import MountedCheck MountedCheckMore.

Lemma log_no_callback logger e :
  e <> SuccessCallback -> SuccessCallback ∉ log logger e.
Proof.
  intros He. destruct logger; cbn; [|apply not_elem_of_nil].
  intros [H|H]%elem_of_cons; [congruence | now apply elem_of_nil in H].
Qed.

Lemma mounted_in_scope_cons device_path bd bds :
  mounted_in_scope device_path (bd :: bds) =
  (if counts device_path bd then [(path bd, default "" (mount_path bd))] else [])
    ++ mounted_in_scope device_path bds.
Proof. unfold mounted_in_scope. cbn. now destruct (counts device_path bd). Qed.

(** Without a critical mount the loop runs to its end and has collected
    the pairs of the entries that count. *)
Lemma scan_devices_collects logger device_path bds acc :
  no_critical device_path bds ->
  snd (scan_devices logger device_path bds acc)
    = Some (acc ++ mounted_in_scope device_path bds) /\
  Forall harmless (fst (scan_devices logger device_path bds acc)).
Proof.
  intros Hnc. split; [|apply scan_devices_harmless].
  revert acc Hnc. induction bds as [|bd bds IH]; intros acc Hnc.
  - cbn. now rewrite app_nil_r.
  - cbn [scan_devices]. fold (counts device_path bd).
    rewrite mounted_in_scope_cons.
    assert (no_critical device_path bds) as Hnc'.
    { intros bd' Hin. apply Hnc. now apply list_elem_of_further. }
    destruct (counts device_path bd) eqn:Hc.
    + rewrite bool_decide_eq_false_2
        by (apply Hnc; [apply list_elem_of_here | exact Hc]).
      specialize (IH (acc ++ [(path bd, default "" (mount_path bd))]) Hnc').
      destruct (scan_devices _ _ bds _) as [ev r]. cbn [snd] in *.
      rewrite IH. now rewrite <- app_assoc.
    + apply (IH acc Hnc').
Qed.

(** X1.  When no entry in scope is mounted, the check calls the success
    callback at once and returns [True]; nothing else happens but the two
    log lines. *)
Theorem nothing_mounted_proceeds logger bds device_path :
  (forall bd, bd ∈ bds -> counts device_path bd = false) ->
  check_and_handle_mounted_partitions logger bds device_path =
  (log logger (LogInfo ("Checking for mounted devices/partitions on device: "
                          +:+ device_path))
     ++ log logger (LogInfo "No mounted devices/partitions found, proceeding with recovery")
     ++ [SuccessCallback],
   true).
Proof.
  intros Hnone.
  assert (forall acc, scan_devices logger device_path bds acc = ([], Some acc)) as Hscan.
  { induction bds as [|bd bds IH]; intros acc; [reflexivity|].
    cbn [scan_devices]. fold (counts device_path bd).
    rewrite (Hnone bd (list_elem_of_here _ _)).
    apply IH. intros bd' Hin. apply Hnone. now apply list_elem_of_further. }
  unfold check_and_handle_mounted_partitions. rewrite Hscan. reflexivity.
Qed.

Lemma nothing_mounted_proceeds_witness :
  snd (check_and_handle_mounted_partitions true Fixtures.devices_home_on_sdb "/dev/sdc")
  = true.
Proof.
  rewrite (nothing_mounted_proceeds true Fixtures.devices_home_on_sdb "/dev/sdc");
    [reflexivity|].
  intros bd Hin. unfold Fixtures.devices_home_on_sdb in Hin.
  repeat (apply elem_of_cons in Hin as [->|Hin]; [reflexivity|]).
  now apply elem_of_nil in Hin.
Defined.

(** X2.  When entries in scope are mounted and none of them on a critical
    path, the check shows the unmount dialog with exactly their
    [path]/[mount_path] pairs, in the order of the device list, returns
    [False], and does not itself call the success callback. *)
Theorem non_critical_mounts_prompt logger bds device_path :
  no_critical device_path bds ->
  mounted_in_scope device_path bds <> [] ->
  snd (check_and_handle_mounted_partitions logger bds device_path) = false /\
  last (fst (check_and_handle_mounted_partitions logger bds device_path))
    = Some (ShowUnmountDialog (mounted_in_scope device_path bds)) /\
  SuccessCallback ∉ fst (check_and_handle_mounted_partitions logger bds device_path).
Proof.
  intros Hnc Hne.
  destruct (scan_devices_collects logger device_path bds [] Hnc) as [Hr Hh].
  unfold check_and_handle_mounted_partitions.
  destruct (scan_devices logger device_path bds []) as [ev r]. cbn [fst snd] in *.
  subst r. rewrite app_nil_l.
  destruct (mounted_in_scope device_path bds) as [|mp mps] eqn:Hm; [contradiction|].
  cbn [fst snd]. split; [reflexivity|]. split.
  - rewrite !app_assoc. apply last_snoc.
  - rewrite !elem_of_app. intros [Hin|[Hin|[Hin|Hin]]].
    + revert Hin. now apply log_no_callback.
    + rewrite Forall_forall in Hh. destruct (Hh _ Hin) as [Hneq _]. now apply Hneq.
    + revert Hin. now apply log_no_callback.
    + apply list_elem_of_singleton in Hin. discriminate Hin.
Qed.

Lemma non_critical_mounts_prompt_witness :
  last (fst (check_and_handle_mounted_partitions false
               (take 4 Fixtures.devices_home_on_sdb) "/dev/sdb"))
  = Some (ShowUnmountDialog [("/dev/sdb1", "/media/u/stick")]).
Proof.
  destruct (non_critical_mounts_prompt false (take 4 Fixtures.devices_home_on_sdb)
              "/dev/sdb") as (_ & Hlast & _).
  - intros bd Hin Hc. cbn in Hin.
    repeat (apply elem_of_cons in Hin as [->|Hin]; [try discriminate Hc|]).
    + vm_compute. intros H. apply list_elem_of_In in H. cbn in H.
      repeat (destruct H as [H|H]; [discriminate H|]). exact H.
    + now apply elem_of_nil in Hin.
  - vm_compute. discriminate.
  - exact Hlast.
Defined.

(** X3.  The answer to the unmount dialog starts the job exactly for
    "continue", and for "unmount" when every listed partition was
    unmounted; for "unmount" an unmount is attempted for every listed
    partition, also after one has failed. *)
Theorem dialog_answer_starts_job logger unmounts mps response :
  (SuccessCallback ∈ on_response logger unmounts mps response <->
   response = "continue" \/
   (response = "unmount" /\ forall p, p ∈ map fst mps -> unmounts p = true)) /\
  (response = "unmount" ->
   omap is_unmount (on_response logger unmounts mps response) = map fst mps).
Proof.
  unfold on_response.
  assert (forall l : list string, omap is_unmount (map Unmount l) = l) as Hun.
  { induction l as [|p l IH]; cbn; [reflexivity | now f_equal]. }
  assert (forall e, omap is_unmount (log logger e) = [] \/ exists p, e = Unmount p) as Hlog.
  { intros e. destruct e; try (left; now destruct logger). right. eauto. }
  destruct (String.eqb_spec response "unmount") as [->|Hne1].
  - set (failed := filter (fun p => unmounts p = false) (map fst mps)).
    assert (failed = [] <-> forall p, p ∈ map fst mps -> unmounts p = true) as Hfailed.
    { unfold failed. split.
      - intros Hnil p Hp. destruct (unmounts p) eqn:Hu; [reflexivity|].
        assert (p ∈ filter (fun p => unmounts p = false) (map fst mps)) as Hin
          by (apply list_elem_of_filter; now split).
        rewrite Hnil in Hin. now apply elem_of_nil in Hin.
      - intros Hall. apply elem_of_nil_inv. intros p [Hf Hp]%list_elem_of_filter.
        rewrite (Hall p Hp) in Hf. discriminate Hf. }
    split.
    + rewrite !elem_of_app. split.
      * intros [Hin|[Hin|Hin]].
        -- exfalso. revert Hin. now apply log_no_callback.
        -- apply list_elem_of_fmap in Hin as (p & Hp & _). discriminate Hp.
        -- right. split; [reflexivity|]. apply Hfailed.
           destruct failed as [|f fs]; [reflexivity|]. exfalso.
           apply elem_of_app in Hin as [Hin|Hin].
           ++ revert Hin. now apply log_no_callback.
           ++ apply list_elem_of_singleton in Hin. discriminate Hin.
      * intros [Hc|[_ Hall]]; [discriminate Hc|].
        apply Hfailed in Hall. rewrite Hall. right. right.
        apply elem_of_app. right. apply list_elem_of_here.
    + intros _. rewrite !omap_app, Hun.
      destruct (Hlog (LogInfo ("User selected dialog response: " +:+ "unmount")))
        as [->|[p Hp]]; [|discriminate Hp].
      destruct failed as [|f fs]; rewrite omap_app; cbn [omap is_unmount].
      * destruct logger; cbn; now rewrite app_nil_r.
      * destruct logger; cbn; now rewrite app_nil_r.
  - split; [|intros; contradiction].
    destruct (String.eqb_spec response "continue") as [->|Hne2].
    + split; [now left|]. intros _. apply elem_of_app. right.
      apply elem_of_app. right. apply list_elem_of_here.
    + split.
      * rewrite elem_of_app. intros [Hin|Hin]; exfalso; revert Hin;
          now apply log_no_callback.
      * intros [Hc|[Hc _]]; contradiction.
Qed.
End MountedCheckMoreFacts.

(** ** More on the imaging helper *)

Section ImageHelperMoreFacts.
Import ImageHelper ImageHelperMore.
Local Open Scope helper_scope.
Local Open Scope nat_scope.

Lemma loop_result_ext W W' i n :
  (forall j, step_result (W j) = step_result (W' j)) ->
  loop_result W i n = loop_result W' i n.
Proof.
  intros H. revert i. induction n as [|n IH]; intros i; cbn [loop_result]; [reflexivity|].
  rewrite (H i). destruct (step_result (W' i)); [apply IH | reflexivity].
Qed.

Lemma started_ext W W' i cmds :
  (forall j, step_result (W j) = step_result (W' j)) ->
  (forall j, startsb (W j) = startsb (W' j)) ->
  started W i cmds = started W' i cmds.
Proof.
  intros Hr Hs. revert i. induction cmds as [|c cmds IH]; intros i; cbn [started];
    [reflexivity|].
  rewrite (Hs i), (Hr i). destruct (startsb (W' i)); [|reflexivity].
  destruct (step_result (W' i)); [now rewrite IH | reflexivity].
Qed.

(** X4.  What [os.chown] does never matters to the imaging: two runs
    that differ only in whether the ownership could be restored start the
    same commands and end the same way. *)
Theorem chown_failure_changes_nothing W W' a :
  (forall i, same_but_chown (W i) (W' i)) ->
  launched (fst (main W a)) = launched (fst (main W' a)) /\
  snd (main W a) = snd (main W' a) /\
  helper_succeeds W a = helper_succeeds W' a.
Proof.
  intros Hsame.
  assert (forall j, step_result (W j) = step_result (W' j)) as Hr.
  { intros j. destruct (Hsame j) as (H1 & H2 & H3 & _ & H5).
    unfold step_result. now rewrite H1, H2, H3, H5. }
  assert (forall j, startsb (W j) = startsb (W' j)) as Hs.
  { intros j. destruct (Hsame j) as (H1 & H2 & _). unfold startsb. now rewrite H1, H2. }
  assert (snd (main W a) = snd (main W' a)) as Hsnd.
  { rewrite !main_result. now apply loop_result_ext. }
  split; [|split; [exact Hsnd|]].
  - rewrite !main_launched. now apply started_ext.
  - unfold helper_succeeds, exit_status. now rewrite Hsnd.
Qed.

Lemma chown_failure_changes_nothing_witness :
  snd (main (fun i => {| cancel_at_loop := false; cancel_at_run := false;
                         polls := [false; false]; exits_on_terminate := true;
                         returncode := 0; chown_error := Some "Operation not permitted" |})
         Fixtures.args_sdb)
  = snd (main Fixtures.world_all_ok Fixtures.args_sdb).
Proof.
  apply (chown_failure_changes_nothing _ Fixtures.world_all_ok Fixtures.args_sdb).
  intros i. repeat split.
Defined.

Lemma loop_result_exit_code W i n c :
  loop_result W i n = SysExit c ->
  exists k, i <= k < i + n /\ step_result (W k) = SysExit c.
Proof.
  revert i. induction n as [|n IH]; intros i; cbn [loop_result]; [discriminate|].
  destruct (step_result (W i)) as [[]|c'] eqn:Hr.
  - intros H. destruct (IH (S i) H) as (k & Hk & Hc). exists k. split; [lia | exact Hc].
  - intros [= ->]. exists i. split; [lia | exact Hr].
Qed.

Lemma step_result_code w c :
  step_result w = SysExit c ->
  (c = 1%Z /\ ~ never_cancelled w) \/
  (c = returncode w /\ c <> 0%Z /\ never_cancelled w).
Proof.
  unfold step_result, never_cancelled. rewrite <- polls_clean.
  destruct (cancel_at_loop w); [intros [= <-]; left; split; [reflexivity|]; now intros [? _]|].
  destruct (cancel_at_run w);
    [intros [= <-]; left; split; [reflexivity|]; now intros (_ & ? & _)|].
  destruct (forallb negb (polls w));
    [|intros [= <-]; left; split; [reflexivity|]; now intros (_ & _ & ?)].
  destruct (Z.eqb_spec (returncode w) 0); [discriminate|].
  intros [= <-]. right. repeat split. exact n.
Qed.

(** X5.  When the helper leaves through [sys.exit], the code is never 0:
    it is 1 when an iteration saw the cancellation flag, and otherwise the
    nonzero return code of the child of an uncancelled iteration.  With
    return codes in the range of a process status the helper's own exit
    status is then nonzero, and [run_with_pkexec] reports failure. *)
Theorem helper_exit_codes W a c :
  snd (main W a) = SysExit c ->
  c <> 0%Z /\
  exists k, k < 4 + length (partitions a) /\
    ((c = 1%Z /\ ~ never_cancelled (W k)) \/
     (c = returncode (W k) /\ never_cancelled (W k))) /\
    ((-256 < returncode (W k) < 256)%Z -> helper_succeeds W a = false).
Proof.
  intros Hexit. pose proof Hexit as Hexit'. rewrite main_result in Hexit'.
  apply loop_result_exit_code in Hexit' as (k & Hk & Hstep).
  apply step_result_code in Hstep as [[-> Hc]|(-> & Hne & Hnc)].
  - split; [discriminate|]. exists k. split; [lia|]. split; [now left|].
    intros _. unfold helper_succeeds, exit_status. rewrite Hexit. reflexivity.
  - split; [exact Hne|]. exists k. split; [lia|]. split; [now right|].
    intros Hrange. unfold helper_succeeds, run_with_pkexec, exit_status.
    rewrite Hexit. apply Z.eqb_neq. intros Hmod.
    apply Z.mod_divide in Hmod; [|lia]. destruct Hmod as [q Hq]. lia.
Qed.

Lemma helper_exit_codes_witness :
  (2 <> 0)%Z /\
  exists k, k < 4 + length (partitions Fixtures.args_sdb) /\
    ((2 = 1 /\ ~ never_cancelled (Fixtures.world_fails_at 5 2 k)) \/
     (2 = returncode (Fixtures.world_fails_at 5 2 k) /\
      never_cancelled (Fixtures.world_fails_at 5 2 k)))%Z /\
    ((-256 < returncode (Fixtures.world_fails_at 5 2 k) < 256)%Z ->
     helper_succeeds (Fixtures.world_fails_at 5 2) Fixtures.args_sdb = false).
Proof.
  apply (helper_exit_codes (Fixtures.world_fails_at 5 2) Fixtures.args_sdb 2).
  vm_compute. reflexivity.
Defined.

Lemma sleeps_app ev ev' : sleeps (ev ++ ev') = sleeps ev + sleeps ev'.
Proof. unfold sleeps. now rewrite List.filter_app, length_app. Qed.

Lemma has_event_app e ev ev' :
  has_event e (ev ++ ev') = has_event e ev || has_event e ev'.
Proof. unfold has_event. apply existsb_app. Qed.

(** X6.  A cancellation that arrives while a child runs is acted on at
    the first poll that sees it: after [n] quiet polls and one that sees
    the flag, [run] has slept [n + 1] times, has sent the child
    [terminate()], has sent [kill()] exactly when the child outlived the
    grace period, and leaves with [sys.exit(1)], whatever the child's
    return code. *)
Theorem run_cancel_during_child w cmd n rest :
  cancel_at_run w = false ->
  polls w = replicate n false ++ true :: rest ->
  snd (run w cmd) = SysExit 1%Z /\
  sleeps (fst (run w cmd)) = n + 1 /\
  launched (fst (run w cmd)) = [cmd] /\
  has_event Terminate (fst (run w cmd)) = true /\
  has_event Kill (fst (run w cmd)) = negb (exits_on_terminate w).
Proof.
  intros Hc Hp.
  assert (forall obs, obs = replicate n false ++ true :: rest ->
            snd (poll_loop w obs) = SysExit 1%Z /\
            sleeps (fst (poll_loop w obs)) = n + 1 /\
            has_event Terminate (fst (poll_loop w obs)) = true /\
            has_event Kill (fst (poll_loop w obs)) = negb (exits_on_terminate w)) as Hloop.
  { clear Hp. induction n as [|n IH]; intros obs ->; cbn [replicate app poll_loop].
    - destruct (exits_on_terminate w); cbn; repeat split; reflexivity.
    - rewrite snd_bind, fst_bind. cbn [emit fst snd].
      destruct (IH _ eq_refl) as (H1 & H2 & H3 & H4). rewrite H1.
      rewrite sleeps_app, !has_event_app, H2, H3, H4. repeat split. }
  destruct (Hloop _ Hp) as (H1 & H2 & H3 & H4).
  split; [rewrite run_snd, Hc; rewrite poll_loop_snd in H1;
          destruct (forallb negb (polls w)); [discriminate H1 | reflexivity]|].
  split; [|split; [now rewrite run_launched, Hc|]].
  - unfold run. rewrite fst_bind. cbn [emit fst snd]. rewrite fst_bind, Hc.
    cbn [ret fst snd]. rewrite fst_bind. cbn [emit fst snd]. rewrite fst_bind, H1.
    rewrite !sleeps_app, H2. reflexivity.
  - unfold run. rewrite fst_bind. cbn [emit fst snd]. rewrite fst_bind, Hc.
    cbn [ret fst snd]. rewrite fst_bind. cbn [emit fst snd]. rewrite fst_bind, H1.
    rewrite !has_event_app, H3, H4. split; reflexivity.
Qed.

Lemma run_cancel_during_child_witness :
  let w := {| cancel_at_loop := false; cancel_at_run := false;
              polls := [false; false; true; false]; exits_on_terminate := false;
              returncode := 0; chown_error := None |} in
  snd (run w ["ddrescue"]) = SysExit 1%Z /\ sleeps (fst (run w ["ddrescue"])) = 3.
Proof.
  intros w.
  destruct (run_cancel_during_child w ["ddrescue"] 2 [false]) as (H1 & H2 & _);
    [reflexivity | reflexivity |].
  split; [exact H1 | exact H2].
Defined.
Lemma started_prefix W cmds : forall i,
  exists n, started W i cmds = take n cmds /\
            (loop_result W i (length cmds) = Done tt -> started W i cmds = cmds).
Proof.
  induction cmds as [|c cmds IH]; intros i; cbn [started length loop_result].
  - exists 0. now split.
  - destruct (startsb (W i)) eqn:Hs.
    + destruct (step_result (W i)) as [[]|code] eqn:Hr.
      * destruct (IH (S i)) as (n & Hn & Hall). exists (S n). cbn [take].
        split; [now rewrite Hn | intros Hd; now rewrite (Hall Hd)].
      * exists 1. split; [now destruct cmds | discriminate].
    + exists 0. split; [reflexivity|].
      destruct (step_result (W i)) as [[]|code] eqn:Hr; [|discriminate].
      apply step_result_starts in Hr. congruence.
Qed.

(** X22.  The helper starts its commands in program order and skips
    none: what it has started is always an initial part of the four
    stages followed by one command for each partition, and all of it when
    the helper ends without [sys.exit]. *)
Theorem helper_runs_its_commands_in_order W a :
  exists n,
    launched (fst (main W a)) = take n (all_commands a) /\
    (snd (main W a) = Done tt -> launched (fst (main W a)) = all_commands a).
Proof.
  rewrite main_launched, main_result.
  destruct (started_prefix W (all_commands a) 0) as (n & Hn & Hall).
  exists n. split; [exact Hn|]. intros Hd. apply Hall.
  unfold all_commands. rewrite length_app, length_map. exact Hd.
Qed.

Lemma cleanups_app ev ev' : cleanups (ev ++ ev') = cleanups ev + cleanups ev'.
Proof. unfold cleanups. now rewrite List.filter_app, length_app. Qed.

Lemma cleanups_bind {A B} (m : helper A) (k : A -> helper B) :
  cleanups (fst m) = 0 -> (forall x, cleanups (fst (k x)) = 0) ->
  cleanups (fst (bind m k)) = 0.
Proof.
  intros Hm Hk. rewrite fst_bind. destruct (snd m); [|exact Hm].
  now rewrite cleanups_app, Hm, Hk.
Qed.

Lemma cleanups_run w cmd : cleanups (fst (run w cmd)) = 0.
Proof.
  unfold run. apply cleanups_bind; [reflexivity|]. intros _.
  apply cleanups_bind; [now destruct (cancel_at_run w)|]. intros _.
  apply cleanups_bind; [reflexivity|]. intros _.
  apply cleanups_bind.
  - induction (polls w) as [|b obs IH]; cbn [poll_loop]; [reflexivity|].
    destruct b; [now destruct (exits_on_terminate w)|].
    apply cleanups_bind; [reflexivity | intros _; exact IH].
  - intros _. now destruct (negb (returncode w =? 0)%Z).
Qed.

Lemma cleanups_for_each {X} (body : nat -> X -> helper unit) l : forall i,
  (forall j x, cleanups (fst (body j x)) = 0) ->
  cleanups (fst (for_each i l body)) = 0.
Proof.
  induction l as [|x l IH]; intros i Hb; cbn [for_each]; [reflexivity|].
  apply cleanups_bind; [apply Hb | intros _; now apply IH].
Qed.

(** X23.  The helper removes its pid file and the cancel flag exactly
    once and as its last act, whichever way it ends: when all commands
    pass, when one fails, and when it is cancelled. *)
Theorem helper_cleans_up_once_at_the_end W a :
  last (fst (main W a)) = Some Cleanup /\ cleanups (fst (main W a)) = 1.
Proof.
  unfold main, finally. cbn [fst]. split; [apply last_snoc|].
  rewrite cleanups_app. change (cleanups [Cleanup]) with 1.
  rewrite Nat.add_1_r. f_equal.
  apply cleanups_bind.
  - unfold ladder. apply cleanups_for_each. intros j cmd. unfold stage_body.
    apply cleanups_bind; [now destruct (cancel_at_loop (W j))|]. intros _.
    apply cleanups_bind; [apply cleanups_run|]. intros _.
    now destruct (chown_error (W j)).
  - intros _. unfold partition_loop. apply cleanups_for_each. intros j ppath.
    unfold partition_body.
    apply cleanups_bind; [now destruct (cancel_at_loop (W j))|]. intros _.
    apply cleanups_bind; [apply cleanups_run|]. intros _.
    now destruct (chown_error (W j)).
Qed.
End ImageHelperMoreFacts.

(** ** More on the scanning phase *)

Section RecoverMoreFacts.
Import PyStr Proc ProcMore Recover RecoverMore.
Local Open Scope proc_scope.

Lemma terminated_app ev ev' : terminated (ev ++ ev') = terminated ev || terminated ev'.
Proof. apply existsb_app. Qed.

Lemma poll_loop_verdict S controller description turns :
  snd (poll_loop S controller description turns)
  = Returned (controller && existsb id turns) /\
  terminated (fst (poll_loop S controller description turns))
  = controller && existsb id turns.
Proof.
  induction turns as [|t turns [IHs IHt]]; cbn [poll_loop existsb].
  - now rewrite andb_false_r.
  - destruct (controller && t) eqn:Hct.
    + apply andb_true_iff in Hct as [-> ->]. cbn [id orb andb].
      destruct (exits_on_terminate S); split; reflexivity.
    + rewrite proc_snd_bind, proc_fst_bind. cbn [emit fst snd].
      rewrite terminated_app, IHs, IHt. cbn [terminated existsb orb].
      destruct controller, t; try discriminate; split; reflexivity.
Qed.


Lemma find_eqb_spec device_path partitions_data p :
  List.find (fun q => String.eqb (part_path q) device_path) partitions_data = Some p ->
  p ∈ partitions_data /\ part_path p = device_path.
Proof.
  intros H. apply find_some in H as [Hin Heq]. split.
  - now apply list_elem_of_In.
  - now apply String.eqb_eq.
Qed.


(** X9.  Every path [_find_image_files] returns is an entry of the
    listing of the working directory whose name ends in [.img], joined to
    that directory, and itself ends in [.img]; a working directory that
    is empty, is no directory or cannot be listed gives no image. *)
Theorem found_images_are_img_entries E working_dir :
  let found := (_find_image_files E working_dir).2 in
  (forall p, p ∈ found ->
     endswith p ".img" = true /\
     exists names name,
       listdir E working_dir = Some names /\ name ∈ names /\
       endswith name ".img" = true /\ p = OsPath.join working_dir name) /\
  (truthy working_dir = false \/ is_dir E working_dir = false \/
   listdir E working_dir = None -> found = []).
Proof.
  cbv zeta. unfold _find_image_files.
  destruct (truthy working_dir); [|split; [intros p Hp; inversion Hp | reflexivity]].
  destruct (is_dir E working_dir); [|split; [intros p Hp; inversion Hp | reflexivity]].
  cbn [negb orb].
  destruct (listdir E working_dir) as [names|];
    [|split; [intros p Hp; inversion Hp | reflexivity]].
  cbn [snd]. split; [|intros [?|[?|?]]; discriminate].
  intros p Hp. rewrite merge_sort_Permutation in Hp.
  apply list_elem_of_fmap in Hp as (name & -> & Hname).
  apply list_elem_of_In, filter_In in Hname as [Hin Himg].
  split.
  - apply endswith_spec in Himg as [pre ->].
    apply endswith_spec. unfold OsPath.join.
    destruct (startswith (pre +:+ ".img") "/"); [now exists pre|].
    destruct (negb (truthy working_dir) || endswith working_dir "/").
    + exists (working_dir +:+ pre). now rewrite str_app_assoc.
    + exists (working_dir +:+ "/" +:+ pre). now rewrite !str_app_assoc.
  - exists names, name. repeat split; try assumption. now apply list_elem_of_In.
Qed.
End RecoverMoreFacts.

(** ** More on the duplicate removal *)

Section DuplicatesMoreFacts.
Import PyStr Proc ProcMore Duplicates DuplicatesMore.
Local Open Scope proc_scope.

Lemma killed_app ev ev' : killed (ev ++ ev') = killed ev || killed ev'.
Proof. apply existsb_app. Qed.

Lemma sleeps_proc_app ev ev' : sleeps (ev ++ ev') = (sleeps ev + sleeps ev')%nat.
Proof. unfold sleeps. now rewrite List.filter_app, length_app. Qed.

Lemma logged_app ev ev' : logged (ev ++ ev') = logged ev ++ logged ev'.
Proof. apply omap_app. Qed.

Lemma sleeps_cons e ev :
  sleeps (e :: ev) = ((match e with Sleep => 1 | _ => 0 end) + sleeps ev)%nat.
Proof. destruct e; reflexivity. Qed.

Lemma terminated_cons e ev :
  terminated (e :: ev) = (match e with Terminate => true | _ => false end) || terminated ev.
Proof. reflexivity. Qed.

Lemma killed_cons e ev :
  killed (e :: ev) = (match e with Kill => true | _ => false end) || killed ev.
Proof. reflexivity. Qed.

Lemma logged_cons e ev :
  logged (e :: ev) = (match e with Log _ msg => [msg] | _ => [] end) ++ logged ev.
Proof. destruct e; reflexivity. Qed.



Lemma poll_loop_stops E controller timeout pre t post :
  Forall (fun x => stops E controller timeout x = false) pre ->
  stops E controller timeout t = true ->
  let r := poll_loop E controller timeout (pre ++ t :: post) in
  snd r = Returned true /\ sleeps (fst r) = length pre /\
  terminated (fst r) = true /\ killed (fst r) = negb (exits_on_terminate E) /\
  commands (fst r) = [] /\
  logged (fst r)
  = if controller && cancel_requested t
    then ["Cancellation requested, terminating rdfind duplicate removal"]
           ++ (if exits_on_terminate E then []
               else ["rdfind didn't terminate gracefully, killing it"])
           ++ ["Duplicate removal cancelled"]
    else ["rdfind timed out after " +:+ pretty timeout +:+ " seconds"].
Proof.
  intros Hpre Ht. cbv zeta. induction Hpre as [|x pre Hx _ IH]; cbn [app poll_loop].
  - unfold stops in Ht. unfold stop_child.
    destruct (controller && cancel_requested t);
      [destruct (exits_on_terminate E); repeat split|].
    cbn [orb] in Ht. rewrite Ht. destruct (exits_on_terminate E); repeat split.
  - unfold stops in Hx. apply orb_false_iff in Hx as [-> ->].
    rewrite proc_snd_bind, proc_fst_bind. cbn [emit fst snd].
    destruct IH as (H1 & H2 & H3 & H4 & H5 & H6). rewrite H1.
    rewrite sleeps_proc_app, terminated_app, killed_app, commands_app, logged_app.
    rewrite H2, H3, H4, H5, H6. repeat split.
Qed.

Lemma poll_loop_runs_out E controller timeout turns :
  Forall (fun x => stops E controller timeout x = false) turns ->
  poll_loop E controller timeout turns = (replicate (length turns) Sleep, Returned false).
Proof.
  induction 1 as [|x turns Hx _ IH]; cbn [poll_loop]; [reflexivity|].
  unfold stops in Hx. apply orb_false_iff in Hx as [-> ->]. rewrite IH. reflexivity.
Qed.

(** X11.  rdfind is stopped at the first turn of the polling loop at
    which the controller asks for cancellation or the clock has passed
    the timeout: after one sleep for each earlier turn the child is sent
    [terminate()], and [kill()] exactly when it outlives the grace
    period; the function returns without reading the child's result, so
    neither success nor a return code is logged. *)
Theorem rdfind_stopped_at_first_stopping_turn recovery_dir controller E timeout pre t post :
  which E "rdfind" = true ->
  configured_timeout E = Some timeout ->
  popen_error E = None ->
  ticks E = pre ++ t :: post ->
  Forall (fun x => stops E controller timeout x = false) pre ->
  stops E controller timeout t = true ->
  let r := remove_duplicates_with_rdfind recovery_dir controller E in
  snd r = Returned tt /\
  commands (fst r) = [["rdfind"; "-deleteduplicates"; "true"; recovery_dir]] /\
  sleeps (fst r) = length pre /\
  terminated (fst r) = true /\
  killed (fst r) = negb (exits_on_terminate E) /\
  ("rdfind completed successfully - duplicates removed" ∉ logged (fst r)) /\
  (("rdfind failed with return code " +:+ pretty (returncode E)) ∉ logged (fst r)).
Proof.
  intros Hw Ht Hp Hticks Hpre Hstop. cbv zeta.
  destruct (poll_loop_stops E controller timeout pre t post Hpre Hstop)
    as (H1 & H2 & H3 & H4 & H5 & H6).
  unfold remove_duplicates_with_rdfind, rdfind_body, Preflight.check_tools_exist,
    rdfind_timeout.
  unfold configured_timeout in Ht. cbn [List.filter]. rewrite Hw, Ht, Hp, Hticks.
  cbn -[sleeps terminated killed commands logged String.append poll_loop].
  destruct (poll_loop E controller timeout (pre ++ t :: post)) as [pev pr].
  cbn [fst snd] in H1, H2, H3, H4, H5, H6. subst pr.
  cbn -[sleeps terminated killed commands logged String.append].
  rewrite ?app_nil_r.
  change (?a :: ?b :: ?c :: ?d :: pev) with ([a; b; c; d] ++ pev).
  rewrite sleeps_proc_app, terminated_app, killed_app, commands_app, logged_app.
  rewrite H2, H3, H4, H5, H6.
  split; [reflexivity|]. split; [reflexivity|]. split; [reflexivity|].
  split; [reflexivity|]. split; [reflexivity|].
  cbn [logged omap app].
  split; destruct (controller && cancel_requested t), (exits_on_terminate E);
    cbn [app]; rewrite ?str_app_cons, ?str_app_nil_l;
    intros Hin; repeat (apply elem_of_cons in Hin as [Hin|Hin]; [discriminate Hin|]);
    inversion Hin.
Qed.

Lemma rdfind_stopped_at_first_stopping_turn_witness :
  let E := {| which := fun _ => true; timeout_var := Some " 2 ";
              popen_error := None; start_time := 100;
              ticks := [ {| cancel_requested := false; clock := 101 |};
                         {| cancel_requested := false; clock := 102 |};
                         {| cancel_requested := false; clock := 103 |};
                         {| cancel_requested := false; clock := 104 |} ];
              exits_on_terminate := false; communicate_error := None;
              returncode := 0; stderr := ""; deleted := [] |} in
  sleeps (fst (remove_duplicates_with_rdfind "/w/recovered_files" false E)) = 2%nat /\
  killed (fst (remove_duplicates_with_rdfind "/w/recovered_files" false E)) = true.
Proof.
  intros E.
  destruct (rdfind_stopped_at_first_stopping_turn "/w/recovered_files" false E 2
              [ {| cancel_requested := false; clock := 101 |};
                {| cancel_requested := false; clock := 102 |} ]
              {| cancel_requested := false; clock := 103 |}
              [ {| cancel_requested := false; clock := 104 |} ])
    as (_ & _ & Hs & _ & Hk & _);
    [reflexivity | reflexivity | reflexivity | reflexivity
    | repeat constructor | reflexivity |].
  split; [exact Hs | exact Hk].
Defined.

(** X12.  When no turn of the polling loop stops it, the function sleeps
    once for each turn, sends the child no signal, and logs success
    exactly when [communicate()] does not raise and the return code
    is 0. *)
Theorem rdfind_left_to_finish recovery_dir controller E timeout :
  which E "rdfind" = true ->
  configured_timeout E = Some timeout ->
  popen_error E = None ->
  Forall (fun x => stops E controller timeout x = false) (ticks E) ->
  let r := remove_duplicates_with_rdfind recovery_dir controller E in
  snd r = Returned tt /\
  sleeps (fst r) = length (ticks E) /\
  terminated (fst r) = false /\ killed (fst r) = false /\
  ("rdfind completed successfully - duplicates removed" ∈ logged (fst r) <->
   communicate_error E = None /\ returncode E = 0%Z).
Proof.
  intros Hw Ht Hp Hquiet. cbv zeta.
  unfold remove_duplicates_with_rdfind, rdfind_body, Preflight.check_tools_exist,
    rdfind_timeout.
  unfold configured_timeout in Ht. cbn [List.filter]. rewrite Hw, Ht, Hp.
  cbn -[sleeps terminated killed commands logged String.append poll_loop].
  rewrite (poll_loop_runs_out E controller timeout (ticks E) Hquiet).
  assert (forall n, sleeps (replicate n Sleep) = n) as Hsl.
  { induction n as [|n IH]; [reflexivity|]. cbn. unfold sleeps in IH. now rewrite IH. }
  assert (forall n, terminated (replicate n Sleep) = false) as Hte
    by (induction n; [reflexivity | assumption]).
  assert (forall n, killed (replicate n Sleep) = false) as Hki
    by (induction n; [reflexivity | assumption]).
  assert (forall n, logged (replicate n Sleep) = []) as Hlo
    by (induction n; [reflexivity | assumption]).
  specialize (Hsl (length (ticks E))). specialize (Hte (length (ticks E))).
  specialize (Hki (length (ticks E))). specialize (Hlo (length (ticks E))).
  set (sl := replicate (length (ticks E)) Sleep) in *. clearbody sl.
  destruct (communicate_error E) as [e|].
  - cbn -[sleeps terminated killed logged String.append];
      destruct (is_timeout_expired e);
      cbn -[sleeps terminated killed logged String.append];
      repeat rewrite ?sleeps_cons, ?terminated_cons, ?killed_cons, ?logged_cons,
        ?sleeps_proc_app, ?terminated_app, ?killed_app, ?logged_app;
      rewrite Hsl, Hte, Hki, Hlo; cbn [app orb Nat.add sleeps terminated killed logged
                                       existsb List.filter omap length];
      rewrite ?Nat.add_0_r;
      (split; [reflexivity|]; split; [reflexivity|]; split; [reflexivity|];
       split; [reflexivity|]; split; [|intros [? _]; discriminate]);
      rewrite ?str_app_cons, ?str_app_nil_l;
      intros Hin; repeat (apply elem_of_cons in Hin as [Hin|Hin]; [discriminate Hin|]);
      inversion Hin.
  - destruct (Z.eqb_spec (returncode E) 0) as [Hrc|Hrc];
      [|destruct (truthy (stderr E))];
      cbn -[sleeps terminated killed logged String.append];
      repeat rewrite ?sleeps_cons, ?terminated_cons, ?killed_cons, ?logged_cons,
        ?sleeps_proc_app, ?terminated_app, ?killed_app, ?logged_app;
      rewrite Hsl, Hte, Hki, Hlo; cbn [app orb Nat.add sleeps terminated killed logged
                                       existsb List.filter omap length];
      rewrite ?Nat.add_0_r;
      (split; [reflexivity|]; split; [reflexivity|]; split; [reflexivity|];
       split; [reflexivity|]).
    + split; [now intros _|]. intros _. do 3 apply list_elem_of_further.
      apply list_elem_of_here.
    + split; [|intros [_ ?]; contradiction].
      rewrite ?str_app_cons, ?str_app_nil_l.
      intros Hin; repeat (apply elem_of_cons in Hin as [Hin|Hin]; [discriminate Hin|]);
      inversion Hin.
    + split; [|intros [_ ?]; contradiction].
      rewrite ?str_app_cons, ?str_app_nil_l.
      intros Hin; repeat (apply elem_of_cons in Hin as [Hin|Hin]; [discriminate Hin|]);
      inversion Hin.
Qed.

Lemma rdfind_left_to_finish_witness :
  let E := {| which := fun _ => true; timeout_var := None;
              popen_error := None; start_time := 100;
              ticks := [ {| cancel_requested := true; clock := 101 |};
                         {| cancel_requested := false; clock := 102 |} ];
              exits_on_terminate := true; communicate_error := None;
              returncode := 0; stderr := ""; deleted := [] |} in
  sleeps (fst (remove_duplicates_with_rdfind "/w/recovered_files" false E)) = 2%nat.
Proof.
  intros E.
  refine (proj1 (proj2 (rdfind_left_to_finish "/w/recovered_files" false E 1800 _ _ _ _)));
    [reflexivity | reflexivity | reflexivity | repeat constructor].
Defined.
End DuplicatesMoreFacts.

(** ** More on the organiser: single steps *)

Section OrganiseSteps.
Import PyStr Fs OrganiseFiles OrganiseMore.
Local Open Scope fs_scope.
Local Open Scope nat_scope.

Lemma step_files_remove p (s : walk_step) :
  step_files (s.1.1, s.1.2, List.filter (keep_other s.1.1 p) s.2)
  = List.filter (fun q => negb (String.eqb q p)) (step_files s).
Proof.
  unfold step_files. cbn [fst snd]. induction s.2 as [|f l IH]; [reflexivity|].
  cbn [List.filter map]. unfold keep_other at 1.
  destruct (String.eqb (OsPath.join s.1.1 f) p); cbn [negb map]; now rewrite IH.
Qed.

Lemma filter_flat_map {X Y} (f : Y -> bool) (g : X -> list Y) l :
  List.filter f (flat_map g l) = flat_map (fun x => List.filter f (g x)) l.
Proof.
  induction l as [|x l IH]; [reflexivity|]. cbn [flat_map].
  now rewrite List.filter_app, IH.
Qed.

Lemma entry_files_remove w p e :
  flat_map (entry_files w) (remove_from_entry w p e)
  = List.filter (fun q => negb (String.eqb q p)) (entry_files w e).
Proof.
  destruct e as [n [|walk]]; unfold remove_from_entry, entry_files; cbn [fst snd].
  - destruct (String.eqb (OsPath.join w n) p) eqn:Heq; cbn [flat_map List.filter app];
      unfold entry_files; cbn [fst snd]; rewrite ?Heq; reflexivity.
  - cbn [flat_map]. unfold entry_files. cbn [fst snd]. rewrite app_nil_r.
    rewrite filter_flat_map, flat_map_concat_map, map_map, <- flat_map_concat_map.
    apply flat_map_ext. intros s. apply step_files_remove.
Qed.

(** Removing [p] takes exactly the occurrences of [p] out of the files
    under the working directory. *)
Lemma working_files_without σ p :
  working_files (without σ p)
  = List.filter (fun q => negb (String.eqb q p)) (working_files σ).
Proof.
  unfold working_files, without. cbn [wd entries].
  induction (entries σ) as [|e es IH]; [reflexivity|].
  cbn [flat_map]. rewrite flat_map_app, List.filter_app, IH, entry_files_remove.
  reflexivity.
Qed.

Lemma all_files_without σ p : all_files (without σ p) = all_files σ ∖ {[p]}.
Proof.
  unfold all_files. rewrite working_files_without. cbn [files without].
  apply set_eq. intros q.
  rewrite elem_of_union, !elem_of_difference, elem_of_union, !elem_of_list_to_set,
    elem_of_singleton, list_elem_of_In, filter_In, <- list_elem_of_In.
  destruct (String.eqb_spec q p) as [->|Hne]; cbn [negb]; intuition congruence.
Qed.

Lemma os_remove_ok p σ :
  p ∈ all_files σ -> os_remove p σ = (Ok tt, without σ p).
Proof. intros H. unfold os_remove. now rewrite bool_decide_eq_true_2. Qed.

Lemma path_free σ p : path_exists σ p = false -> (p ∉ all_files σ) /\ (p ∉ all_dirs σ).
Proof.
  intros H%bool_decide_eq_false. unfold all_paths in H.
  split; intros Hin; apply H; [now apply elem_of_union_l | now apply elem_of_union_r].
Qed.

(** The pair [shutil.copy2(src, dst); os.remove(src)] for a free [dst]:
    both happen, or [src] is missing and nothing happens. *)
Lemma copy_then_remove {A} src dst (a : A) σ :
  path_exists σ dst = false ->
  (shutil_copy2 src dst ;; os_remove src ;; ret a) σ
  = if bool_decide (src ∈ all_files σ)
    then (Ok a, without (with_copy σ src dst) src)
    else (Raise (FileNotFoundError src), σ).
Proof.
  intros [Hf Hd]%path_free. unfold bind at 1. unfold shutil_copy2.
  case_bool_decide as Hsrc; [|reflexivity].
  unfold copy_target. rewrite (bool_decide_eq_false_2 _ Hd).
  fold (with_copy σ src dst). unfold bind. rewrite os_remove_ok; [reflexivity|].
  unfold all_files in *. cbn [files with_copy working_files wd entries].
  apply elem_of_union in Hsrc as [Hsrc|Hsrc].
  - apply elem_of_union_l. now apply elem_of_union_l.
  - now apply elem_of_union_r.
Qed.

Lemma all_files_with_copy σ src dst :
  all_files (with_copy σ src dst) = all_files σ ∪ {[dst]}.
Proof.
  unfold all_files, working_files. cbn [files with_copy wd entries].
  apply set_eq. intros q. rewrite !elem_of_union. tauto.
Qed.

Lemma os_makedirs_cases p σ :
  (os_makedirs p σ = (Ok tt, σ) /\ p ∈ all_dirs σ) \/
  (exists e, os_makedirs p σ = (Raise e, σ)) \/
  (exists σ', os_makedirs p σ = (Ok tt, σ') /\
     trace σ' = trace σ ++ [MadeDirs p] /\ entries σ' = entries σ /\ wd σ' = wd σ /\
     files σ' = files σ /\ dirs σ' = dirs σ ∪ {[p]} /\ (p ∉ all_paths σ)).
Proof.
  unfold os_makedirs. case_bool_decide as Hd; [left; now split|].
  case_bool_decide as Hf; [right; left; eauto|].
  right; right. eexists. split; [reflexivity|]. cbn. repeat split.
  unfold all_paths. intros [?|?]%elem_of_union; contradiction.
Qed.

Lemma find_photorec_dirs_none σ :
  (forall name, name ∈ map fst (entries σ) ->
                startswith name "recovered_files" = true ->
                OsPath.join (wd σ) name ∉ all_dirs σ) ->
  find_photorec_dirs (wd σ) σ = (Ok [], σ).
Proof.
  intros Hnone. unfold find_photorec_dirs, bind, os_listdir. rewrite String.eqb_refl.
  induction (map fst (entries σ)) as [|item items IH]; [reflexivity|].
  cbn [fold_each]. unfold bind, os_path_isdir.
  destruct (startswith item "recovered_files") eqn:Hs.
  - rewrite bool_decide_eq_false_2; [|apply Hnone; [apply list_elem_of_here | exact Hs]].
    cbn [andb ret]. apply IH. intros name Hin. apply Hnone. now apply list_elem_of_further.
  - rewrite andb_false_r. cbn [ret]. apply IH. intros name Hin. apply Hnone.
    now apply list_elem_of_further.
Qed.

(** X13.  With no directory named [recovered_files...] in the working
    directory, [organize_files_by_type] returns [False] and changes
    nothing: no file is copied or removed and no bucket is created. *)
Theorem nothing_to_organise_changes_nothing σ dest_path enable_logs :
  (forall name, name ∈ map fst (entries σ) ->
                startswith name "recovered_files" = true ->
                OsPath.join (wd σ) name ∉ all_dirs σ) ->
  organize_files_by_type (wd σ) dest_path enable_logs σ = (Ok false, σ).
Proof.
  intros Hnone. unfold organize_files_by_type, try_except, bind.
  now rewrite find_photorec_dirs_none.
Qed.

Lemma nothing_to_organise_changes_nothing_witness :
  let σ := {| wd := "/w"; entries := [("sdb.img", RegularFile); ("notes", Directory [])];
              files := ∅; dirs := ∅; cwd := "/"; trace := [] |} in
  organize_files_by_type "/w" "/dest" false σ = (Ok false, σ).
Proof.
  intros σ. apply (nothing_to_organise_changes_nothing σ "/dest" false).
  intros name Hin Hs. exfalso.
  apply elem_of_cons in Hin as [->|Hin]; [discriminate Hs|].
  apply elem_of_cons in Hin as [->|Hin]; [discriminate Hs | inversion Hin].
Defined.

Lemma same_files_paths σ τ :
  entries τ = entries σ -> wd τ = wd σ -> files τ = files σ ->
  all_files τ = all_files σ.
Proof. intros He Hw Hf. unfold all_files, working_files. now rewrite He, Hw, Hf. Qed.

(** The destination chosen and the move made for one file. *)
Lemma move_to_bucket {A} directory filename src (a : A) σ r σ' :
  (dest <- _get_unique_path directory filename ;;
   shutil_copy2 src dest ;; os_remove src ;; ret a) σ = (r, σ') ->
  exists k, let dst := candidate directory filename k in
    path_exists σ dst = false /\
    ((src ∈ all_files σ /\ r = Ok a /\ σ' = without (with_copy σ src dst) src) \/
     ((src ∉ all_files σ) /\ r = Raise (FileNotFoundError src) /\ σ' = σ)).
Proof.
  destruct (get_unique_path_spec directory filename σ) as (k & Hrun & Hfree & _).
  unfold bind at 1. rewrite Hrun, (copy_then_remove _ _ _ _ Hfree).
  intros H. exists k. cbv zeta. split; [exact Hfree|].
  case_bool_decide; injection H as <- <-; [left | right]; now repeat split.
Qed.

End OrganiseSteps.

(** ** More on the organiser: the shape of a run *)

Section HoareAccumulator.
Import Fs OrganiseFiles.
Local Open Scope fs_scope.

Context {X S : Type} (J : S -> state -> Prop) (E : state -> Prop).

Lemma hoare_fold_acc (l : list X) (body : X -> S -> M S) :
  (forall x acc, x ∈ l -> hoare (J acc) (body x acc) J E) ->
  forall acc, hoare (J acc) (fold_each l acc body) J E.
Proof.
  induction l as [|x l IH]; intros Hbody acc; cbn [fold_each].
  - now apply hoare_ret.
  - apply (hoare_bind _ _ _ J).
    + apply Hbody. apply list_elem_of_here.
    + intros acc'. apply IH. intros y acc'' Hy. apply Hbody.
      now apply list_elem_of_further.
Qed.
End HoareAccumulator.

Section OrganisedTrace.
Import PyStr Fs OrganiseFiles OrganiseMore.
Local Open Scope fs_scope.
Local Open Scope nat_scope.

Variables (dest_path : string) (t0 : list event).
Local Abbreviation G := (organised_inv dest_path t0).
Local Abbreviation holds m := (hoare G m (fun _ => G) G).

Lemma organised_inv_step σ σ' ev :
  G σ -> (wf_names σ -> wf_names σ') -> trace σ' = trace σ ++ ev ->
  (forall t, organised dest_path t -> organised dest_path (t ++ ev)) -> G σ'.
Proof.
  intros [Hwf (new & Ht & Hnew)] Hwf' Ht' Hev. split; [auto|].
  exists (new ++ ev). split; [now rewrite Ht', Ht, app_assoc | now apply Hev].
Qed.

Lemma walk_of_clean σ p (s : walk_step) file :
  wf_names σ -> s ∈ walk_of σ p -> file ∈ s.2 -> contains OsPath.sep file = false.
Proof.
  intros Hwf Hs Hf.
  apply list_elem_of_In, in_flat_map in Hs as ([n e] & Hine & Hs).
  cbn [fst snd] in Hs. destruct e as [|walk0]; [destruct Hs|].
  destruct (String.eqb (OsPath.join (wd σ) n) p); [|destruct Hs].
  unfold wf_names, wf_entries in Hwf. rewrite Forall_forall in Hwf.
  specialize (Hwf (n, Directory walk0) ltac:(now apply list_elem_of_In)).
  unfold clean_entry in Hwf. cbn [snd] in Hwf. rewrite Forall_forall in Hwf.
  specialize (Hwf s ltac:(now apply list_elem_of_In)).
  unfold clean_step in Hwf. rewrite Forall_forall in Hwf. now apply Hwf.
Qed.

Lemma holds_ret {A} (a : A) : holds (ret a).
Proof. now apply hoare_ret. Qed.

Lemma holds_bind {A B} (m : M A) (k : A -> M B) :
  holds m -> (forall a, holds (k a)) -> holds (bind m k).
Proof. intros Hm Hk. now apply (hoare_bind _ _ _ (fun _ => G)). Qed.

Lemma holds_makedirs bucket : holds (os_makedirs (OsPath.join dest_path bucket)).
Proof.
  intros σ HG. unfold os_makedirs. case_bool_decide; [exact HG|].
  case_bool_decide; [exact HG|].
  apply (organised_inv_step σ _ [MadeDirs (OsPath.join dest_path bucket)] HG);
    [auto | reflexivity|].
  intros t Ht. now apply organised_bucket.
Qed.

Lemma holds_remove_report p :
  is_report (OsPath.basename p) = true -> holds (os_remove p).
Proof.
  intros Hrep σ HG. unfold os_remove. case_bool_decide; [|exact HG].
  apply (organised_inv_step σ _ [Removed p] HG); [|reflexivity|].
  - apply wf_entries_remove.
  - intros t Ht. now apply organised_report.
Qed.

Lemma holds_rmdir p : holds (os_rmdir p).
Proof.
  intros σ HG. unfold os_rmdir. destruct (removable σ p); [|exact HG].
  apply (organised_inv_step σ _ [RemovedDir p] HG); [|reflexivity|].
  - apply wf_entries_rmdir.
  - intros t Ht. now apply organised_rmdir.
Qed.

Lemma holds_swallow (m : M unit) : holds m -> holds (try_except m (fun _ => ret tt)).
Proof. intros Hm. apply hoare_try_except; [exact Hm|]. intros _. apply holds_ret. Qed.

Lemma hoare_walk p :
  hoare G (os_walk p)
    (fun walk σ => G σ /\
       forall (s : walk_step) file, s ∈ walk -> file ∈ s.2 ->
                                    contains OsPath.sep file = false) G.
Proof.
  intros σ HG. split; [exact HG|]. intros s file Hs Hf.
  destruct HG as [Hwf _]. exact (walk_of_clean σ p s file Hwf Hs Hf).
Qed.

(** One file is moved into the bucket its name asks for. *)
Lemma holds_move {A} src bucket (a : A) :
  bucket_for (OsPath.basename src) bucket ->
  holds (dest <- _get_unique_path (OsPath.join dest_path bucket) (OsPath.basename src) ;;
         shutil_copy2 src dest ;; os_remove src ;; ret a).
Proof.
  intros Hb σ HG.
  match goal with |- match ?m with _ => _ end => destruct m as [r σ'] eqn:Hrun end.
  apply move_to_bucket in Hrun as (k & Hfree & [(Hsrc & -> & ->)|(_ & -> & ->)]);
    [|exact HG].
  apply (organised_inv_step σ _
           [Copied src (candidate (OsPath.join dest_path bucket) (OsPath.basename src) k);
            Removed src] HG).
  - intros Hwf. apply (wf_entries_remove _ _ _ Hwf).
  - cbn [trace without with_copy]. now rewrite <- app_assoc.
  - intros t Ht. now apply organised_file.
Qed.

Lemma bind_assoc {A B C} (m : M A) (k : A -> M B) (h : B -> M C) σ :
  bind (bind m k) h σ = bind m (fun a => bind (k a) h) σ.
Proof. unfold bind. destruct (m σ) as [[a|e|] σ']; reflexivity. Qed.

Lemma hoare_ext {A} (m m' : M A) P Q E :
  (forall σ, m σ = m' σ) -> hoare P m' Q E -> hoare P m Q E.
Proof. intros Heq H σ HP. rewrite Heq. now apply H. Qed.

(** The same with the bucket [corrupted] created first. *)
Lemma holds_move_corrupted {A} src (a : A) :
  is_corrupted_name (OsPath.basename src) = true ->
  holds (dest <- (os_makedirs (OsPath.join dest_path "corrupted") ;;
                  _get_unique_path (OsPath.join dest_path "corrupted")
                    (OsPath.basename src)) ;;
         shutil_copy2 src dest ;; os_remove src ;; ret a).
Proof.
  intros Hc. eapply hoare_ext; [intros σ; apply bind_assoc|].
  apply holds_bind; [apply holds_makedirs|]. intros _.
  apply holds_move. unfold bucket_for. now rewrite Hc.
Qed.

Lemma holds_scan_file root file v :
  contains OsPath.sep file = false ->
  hoare (fun σ => G σ /\ scan_ok v) (scan_file root file v)
    (fun v' σ => G σ /\ scan_ok v') G.
Proof.
  intros Hclean. unfold scan_file. destruct (is_report file) eqn:Hrep.
  - apply (hoare_bind _ _ _ (fun _ σ => G σ /\ scan_ok v)).
    + intros σ [HG Hv].
      assert (holds (try_except (os_remove (OsPath.join root file)) (fun _ => ret tt)))
        as Hrm.
      { apply holds_swallow, holds_remove_report. now rewrite basename_join. }
      specialize (Hrm σ HG).
      destruct (try_except _ _ σ) as [[[]|e|] σ']; [now split | exact Hrm..].
    + intros _. apply hoare_ret. tauto.
  - destruct (contains "." file && negb (startswith file ".")) eqn:Hdot.
    + destruct (truthy (extension_of file) && negb (bool_decide (is_Some v.1))) eqn:Hext.
      * apply hoare_ret. intros σ [HG [_ Hfiles]]. split; [exact HG|].
        split; [|exact Hfiles]. cbn [fst]. intros ext [= <-].
        now apply andb_true_iff in Hext as [? _].
      * apply hoare_ret. tauto.
    + apply hoare_ret. intros σ [HG [Hext Hfiles]]. split; [exact HG|].
      split; [exact Hext|]. cbn [snd]. apply Forall_app. split; [exact Hfiles|].
      repeat constructor. now rewrite basename_join.
Qed.

Lemma holds_scan photorec_dirs :
  hoare G (scan photorec_dirs) (fun v σ => G σ /\ scan_ok v) G.
Proof.
  unfold scan.
  apply (hoare_conseq _ (fun σ => G σ /\ scan_ok (None, [])) _
           (fun v σ => G σ /\ scan_ok v) _ G G);
    [|intros σ HG; split; [exact HG|]; split; [discriminate | constructor]
     |tauto|tauto].
  apply (hoare_fold_acc (fun v σ => G σ /\ scan_ok v)).
  intros dir_path v _.
  apply (hoare_bind _ _ _
           (fun walk σ => (G σ /\ scan_ok v) /\
              forall (s : walk_step) file, s ∈ walk -> file ∈ s.2 ->
                                           contains OsPath.sep file = false)).
  { intros σ [HG Hv]. split; [now split|]. intros s file Hs Hf.
    destruct HG as [Hwf _]. exact (walk_of_clean σ dir_path s file Hwf Hs Hf). }
  intros walk. apply hoare_pure. intros Hclean.
  apply (hoare_fold_acc (fun v σ => G σ /\ scan_ok v)). intros s v' Hs.
  apply (hoare_fold_acc (fun v σ => G σ /\ scan_ok v)). intros file v'' Hf.
  apply holds_scan_file. exact (Hclean s file Hs Hf).
Qed.
Lemma holds_move_file_with_extension extension root file processed :
  truthy extension = true ->
  contains OsPath.sep file = false ->
  holds (move_file_with_extension (OsPath.join dest_path extension)
           (OsPath.join dest_path "corrupted") extension root file processed).
Proof.
  intros Hext Hclean. unfold move_file_with_extension.
  destruct (endswith (lower file) ("." +:+ extension)) eqn:Hmatch; [|apply holds_ret].
  pose proof (basename_join root file Hclean) as Hbase.
  set (src := OsPath.join root file) in *.
  destruct (is_corrupted_name file) eqn:Hc.
  - rewrite <- Hbase. apply holds_move_corrupted. now rewrite Hbase.
  - rewrite <- Hbase. apply holds_move. unfold bucket_for. rewrite Hbase, Hc.
    right. now split.
Qed.

Lemma holds_process_files_with_extension photorec_dirs extension :
  truthy extension = true ->
  holds (_process_files_with_extension photorec_dirs extension dest_path).
Proof.
  intros Hext. unfold _process_files_with_extension.
  apply holds_bind; [apply holds_makedirs|]. intros _.
  apply hoare_fold_each. intros dir_path processed _.
  apply (hoare_bind _ _ _ _ _ _ (hoare_walk dir_path)).
  intros walk. apply hoare_pure. intros Hclean.
  apply hoare_fold_each. intros s processed' Hs.
  apply hoare_fold_each. intros file processed'' Hfile.
  apply holds_move_file_with_extension; [exact Hext | now apply (Hclean s)].
Qed.

Lemma holds_move_file_without_extension file_path processed :
  has_dot (OsPath.basename file_path) = false ->
  holds (move_file_without_extension (OsPath.join dest_path "no_file_type")
           (OsPath.join dest_path "corrupted") file_path processed).
Proof.
  intros Hdot. unfold move_file_without_extension.
  destruct (is_corrupted_name (OsPath.basename file_path)) eqn:Hc.
  - now apply holds_move_corrupted.
  - apply holds_move. unfold bucket_for. rewrite Hc. left. now split.
Qed.

Lemma holds_process_files_without_extension files :
  Forall (fun p => has_dot (OsPath.basename p) = false) files ->
  holds (_process_files_without_extension files dest_path).
Proof.
  intros Hfiles. unfold _process_files_without_extension.
  apply holds_bind; [apply holds_makedirs|]. intros _.
  apply hoare_fold_each. intros file_path processed Hin.
  apply holds_move_file_without_extension.
  rewrite Forall_forall in Hfiles. now apply Hfiles.
Qed.

Lemma holds_cleanup_empty_dirs photorec_dirs : holds (_cleanup_empty_dirs photorec_dirs).
Proof.
  unfold _cleanup_empty_dirs. apply hoare_for_each. intros dir_path _.
  apply holds_bind; [intros σ HG; exact HG|].
  intros walk. apply holds_bind.
  - apply hoare_for_each. intros s _. apply hoare_for_each. intros dirname _.
    apply holds_swallow, holds_rmdir.
  - intros _. apply holds_swallow, holds_rmdir.
Qed.

Lemma holds_organize_loop fuel photorec_dirs : forall processed,
  holds (organize_loop fuel photorec_dirs dest_path processed).
Proof.
  induction fuel as [|fuel IH]; intros processed; cbn [organize_loop].
  - apply hoare_out_of_fuel.
  - apply (hoare_bind _ _ _ _ _ _ (holds_scan photorec_dirs)).
    intros [[current_ext|] files_no_ext]; apply hoare_pure; intros [Hext Hfiles].
    + apply holds_bind; [apply holds_process_files_with_extension; now apply Hext|].
      intros n. apply IH.
    + destruct files_no_ext as [|f files_no_ext]; [apply holds_ret|].
      apply holds_bind; [now apply holds_process_files_without_extension|].
      intros n. apply IH.
Qed.

Lemma holds_organize_files_by_type working_path enable_logs :
  holds (organize_files_by_type working_path dest_path enable_logs).
Proof.
  unfold organize_files_by_type. apply hoare_try_except; [|intros _; apply holds_ret].
  apply holds_bind.
  { unfold find_photorec_dirs. apply holds_bind.
    - intros σ HG. unfold os_listdir. now destruct (String.eqb working_path (wd σ)).
    - intros items. apply hoare_fold_each. intros item dirs _.
      apply holds_bind; [intros σ HG; exact HG|]. intros d.
      destruct (d && startswith item "recovered_files"); apply holds_ret. }
  intros [|d photorec_dirs]; [apply holds_ret|].
  apply holds_bind; [intros σ HG; exact HG|]. intros σ.
  apply holds_bind; [apply holds_organize_loop|]. intros processed.
  apply holds_bind; [apply holds_cleanup_empty_dirs | intros _; apply holds_ret].
Qed.
End OrganisedTrace.

Section OrganisedTheorems.
Import PyStr Fs OrganiseFiles OrganiseMore.
Local Open Scope fs_scope.
Local Open Scope nat_scope.

(** What [organize_files_by_type] adds to the trace has the shape
    [organised]. *)
Lemma organize_files_by_type_organised σ working_path dest_path enable_logs :
  wf_names σ ->
  exists new,
    trace (organize_files_by_type working_path dest_path enable_logs σ).2
    = trace σ ++ new /\
    organised dest_path new.
Proof.
  intros Hwf.
  pose proof (holds_organize_files_by_type dest_path (trace σ) working_path enable_logs σ)
    as H.
  assert (organised_inv dest_path (trace σ) σ) as HG.
  { split; [exact Hwf|]. exists []. split; [now rewrite app_nil_r | constructor]. }
  specialize (H HG).
  destruct (organize_files_by_type working_path dest_path enable_logs σ)
    as [[b|e|] σ']; cbn [snd]; exact (proj2 H).
Qed.

Lemma snoc_split {X} (t pre post : list X) (e x : X) :
  t ++ [e] = pre ++ x :: post ->
  (post = [] /\ pre = t /\ x = e) \/
  (exists post0, post = post0 ++ [e] /\ t = pre ++ x :: post0).
Proof.
  destruct post as [|y post _] using rev_ind.
  - intros H. apply app_inj_tail in H as [-> ->]. now left.
  - intros H. right. exists post.
    change (pre ++ x :: post ++ [y]) with (pre ++ (x :: post) ++ [y]) in H.
    rewrite app_assoc in H. apply app_inj_tail in H as [-> ->]. now split.
Qed.

Lemma organised_removed dest_path new pre p post :
  organised dest_path new -> new = pre ++ Removed p :: post ->
  is_report (OsPath.basename p) = true \/ exists dst, last pre = Some (Copied p dst).
Proof.
  intros Horg. revert pre post.
  induction Horg as [|t bucket Ht IH|t q Hq Ht IH|t src bucket k Hb Ht IH|t q Ht IH];
    intros pre post Heq.
  - now destruct pre.
  - apply snoc_split in Heq as [(_ & _ & [=])|(post0 & _ & ->)]. now apply (IH pre post0).
  - apply snoc_split in Heq as [(_ & _ & [= ->])|(post0 & _ & ->)];
      [now left | now apply (IH pre post0)].
  - change [Copied src ?d; Removed src] with ([Copied src d] ++ [Removed src]) in Heq.
    rewrite app_assoc in Heq.
    apply snoc_split in Heq as [(_ & Hpre & Hx)|(post0 & _ & Heq)].
    + injection Hx as ->. subst pre. right. eexists. apply last_snoc.
    + apply snoc_split in Heq as [(_ & _ & [=])|(post1 & _ & ->)].
      now apply (IH pre post1).
  - apply snoc_split in Heq as [(_ & _ & [=])|(post0 & _ & ->)]. now apply (IH pre post0).
Qed.

Lemma organised_copied dest_path new pre src dst post :
  organised dest_path new -> new = pre ++ Copied src dst :: post ->
  (exists post', post = Removed src :: post') /\
  exists bucket k,
    bucket_for (OsPath.basename src) bucket /\
    dst = candidate (OsPath.join dest_path bucket) (OsPath.basename src) k.
Proof.
  intros Horg. revert pre post.
  induction Horg as [|t bucket Ht IH|t q Hq Ht IH|t src' bucket k Hb Ht IH|t q Ht IH];
    intros pre post Heq.
  - now destruct pre.
  - apply snoc_split in Heq as [(_ & _ & [=])|(post0 & -> & ->)].
    destruct (IH pre post0 eq_refl) as [[post' ->] Hdst]. split; [|exact Hdst].
    now eexists.
  - apply snoc_split in Heq as [(_ & _ & [=])|(post0 & -> & ->)].
    destruct (IH pre post0 eq_refl) as [[post' ->] Hdst]. split; [|exact Hdst].
    now eexists.
  - change [Copied src' ?d; Removed src'] with ([Copied src' d] ++ [Removed src']) in Heq.
    rewrite app_assoc in Heq.
    apply snoc_split in Heq as [(_ & _ & [=])|(post0 & -> & Heq)].
    apply snoc_split in Heq as [(-> & _ & [= -> ->])|(post1 & -> & ->)].
    + split; [now exists [] | now exists bucket, k].
    + destruct (IH pre post1 eq_refl) as [[post' ->] Hdst]. split; [|exact Hdst].
      now eexists.
  - apply snoc_split in Heq as [(_ & _ & [=])|(post0 & -> & ->)].
    destruct (IH pre post0 eq_refl) as [[post' ->] Hdst]. split; [|exact Hdst].
    now eexists.
Qed.
Lemma organised_no_other dest_path new e :
  organised dest_path new -> e ∈ new ->
  match e with
  | Moved _ _ | RemovedTree _ | Rdfind _ _ => False
  | _ => True
  end.
Proof.
  induction 1 as [|t bucket Ht IH|t q Hq Ht IH|t src bucket k Hb Ht IH|t q Ht IH];
    intros Hin.
  - inversion Hin.
  - apply elem_of_app in Hin as [Hin|Hin%list_elem_of_singleton]; [now apply IH | now subst].
  - apply elem_of_app in Hin as [Hin|Hin%list_elem_of_singleton]; [now apply IH | now subst].
  - apply elem_of_app in Hin as [Hin|Hin]; [now apply IH|].
    apply elem_of_cons in Hin as [->|Hin%list_elem_of_singleton]; [exact I | now subst].
  - apply elem_of_app in Hin as [Hin|Hin%list_elem_of_singleton]; [now apply IH | now subst].
Qed.




End OrganisedTheorems.

(** ** More on the organiser: what each step may do *)

Section Emits.
Import PyStr Fs OrganiseFiles OrganiseMore.
Local Open Scope fs_scope.

Lemma emits_ret {A} P (a : A) : emits P (ret a).
Proof. intros σ. exists []. split; [now rewrite app_nil_r | constructor]. Qed.

Lemma emits_bind {A B} P (m : M A) (k : A -> M B) :
  emits P m -> (forall a, emits P (k a)) -> emits P (bind m k).
Proof.
  intros Hm Hk σ. unfold bind. destruct (Hm σ) as (new & Ht & Hnew).
  destruct (m σ) as [[a|e|] σ']; cbn [snd] in *; [|now exists new..].
  destruct (Hk a σ') as (new' & Ht' & Hnew'). exists (new ++ new'). split.
  - now rewrite Ht', Ht, app_assoc.
  - now apply Forall_app.
Qed.

Lemma emits_try_except {A} P (m : M A) (h : exn -> M A) :
  emits P m -> (forall e, emits P (h e)) -> emits P (try_except m h).
Proof.
  intros Hm Hh σ. unfold try_except. destruct (Hm σ) as (new & Ht & Hnew).
  destruct (m σ) as [[a|e|] σ']; cbn [snd] in *; [now exists new| |now exists new].
  destruct (Hh e σ') as (new' & Ht' & Hnew'). exists (new ++ new'). split.
  - now rewrite Ht', Ht, app_assoc.
  - now apply Forall_app.
Qed.

Lemma emits_for_each {X} P (l : list X) (body : X -> M unit) :
  (forall x, x ∈ l -> emits P (body x)) -> emits P (for_each l body).
Proof.
  induction l as [|x l IH]; intros Hb; cbn [for_each]; [apply emits_ret|].
  apply emits_bind; [apply Hb, list_elem_of_here|]. intros _. apply IH.
  intros y Hy. apply Hb. now apply list_elem_of_further.
Qed.

Lemma emits_fold_each {X S} P (l : list X) (body : X -> S -> M S) :
  (forall x acc, x ∈ l -> emits P (body x acc)) ->
  forall acc, emits P (fold_each l acc body).
Proof.
  induction l as [|x l IH]; intros Hb acc; cbn [fold_each]; [apply emits_ret|].
  apply emits_bind; [apply Hb, list_elem_of_here|]. intros acc'. apply IH.
  intros y acc'' Hy. apply Hb. now apply list_elem_of_further.
Qed.

Lemma emits_nothing {A} P (m : M A) : (forall σ, (m σ).2 = σ) -> emits P m.
Proof.
  intros H σ. exists []. rewrite H. split; [now rewrite app_nil_r | constructor].
Qed.

Lemma emits_one {A} P (m : M A) e :
  P e -> (forall σ, (m σ).2 = σ \/ trace (m σ).2 = trace σ ++ [e]) -> emits P m.
Proof.
  intros He H σ. destruct (H σ) as [Hs|Ht].
  - exists []. rewrite Hs. split; [now rewrite app_nil_r | constructor].
  - exists [e]. split; [exact Ht | now repeat constructor].
Qed.

Lemma emits_os_remove P p : P (Removed p) -> emits P (os_remove p).
Proof.
  intros H. apply (emits_one _ _ _ H). intros σ. unfold os_remove.
  case_bool_decide; [now right | now left].
Qed.

Lemma emits_os_makedirs P p : P (MadeDirs p) -> emits P (os_makedirs p).
Proof.
  intros H. apply (emits_one _ _ _ H). intros σ. unfold os_makedirs.
  repeat case_bool_decide; [now left | now left | now right].
Qed.

Lemma emits_os_rmdir P p : P (RemovedDir p) -> emits P (os_rmdir p).
Proof.
  intros H. apply (emits_one _ _ _ H). intros σ. unfold os_rmdir.
  destruct (removable σ p); [now right | now left].
Qed.

Lemma emits_shutil_rmtree P p : P (RemovedTree p) -> emits P (shutil_rmtree p).
Proof.
  intros H. apply (emits_one _ _ _ H). intros σ. unfold shutil_rmtree.
  destruct (String.eqb p (wd σ)); [now right | now left].
Qed.

Lemma emits_shutil_copy2 P src dst :
  P (Copied src dst) -> P (Copied src (OsPath.join dst (OsPath.basename src))) ->
  emits P (shutil_copy2 src dst).
Proof.
  intros H1 H2 σ. unfold shutil_copy2. case_bool_decide.
  - eexists [_]. split; [reflexivity|]. repeat constructor.
    unfold copy_target. now case_bool_decide.
  - exists []. split; [now rewrite app_nil_r | constructor].
Qed.

Lemma emits_shutil_move P src dst :
  P (Moved src dst) -> P (Moved src (OsPath.join dst (OsPath.basename src))) ->
  emits P (shutil_move src dst).
Proof.
  intros H1 H2 σ. unfold shutil_move. case_bool_decide.
  - eexists [_]. split; [reflexivity|]. repeat constructor.
    unfold copy_target. now case_bool_decide.
  - exists []. split; [now rewrite app_nil_r | constructor].
Qed.

Lemma emits_rdfind_disk P log deleted :
  P (Rdfind log deleted) -> emits P (rdfind_disk log deleted).
Proof.
  intros H σ. exists [Rdfind log deleted]. split; [reflexivity | now repeat constructor].
Qed.

Lemma emits_os_listdir P p : emits P (os_listdir p).
Proof.
  apply emits_nothing. intros σ. unfold os_listdir.
  now destruct (String.eqb p (wd σ)).
Qed.

Lemma emits_get_unique_path P directory filename :
  emits P (_get_unique_path directory filename).
Proof.
  apply emits_nothing. intros σ.
  destruct (get_unique_path_spec directory filename σ) as (k & -> & _). reflexivity.
Qed.

Lemma emits_swallow P (m : M unit) : emits P m -> emits P (try_except m (fun _ => ret tt)).
Proof. intros H. apply emits_try_except; [exact H|]. intros _. apply emits_ret. Qed.
End Emits.

Section ImageFiles.
Import PyStr Fs OrganiseFiles OrganiseMore.
Local Open Scope fs_scope.

Lemma move_image_files_emits working_dir dest_path device_path :
  emits (image_event working_dir dest_path device_path)
    (move_image_files_to_destination working_dir dest_path device_path).
Proof.
  unfold move_image_files_to_destination. apply emits_swallow.
  apply emits_bind; [now apply emits_os_makedirs|]. intros _.
  apply emits_bind; [apply emits_os_listdir|]. intros names.
  apply emits_for_each. intros filename _.
  destruct (is_image_or_map filename) eqn:Himg; [|apply emits_ret].
  fold (target_files device_path).
  change (match target_files device_path with
          | Some l => bool_decide (filename ∈ l)
          | None => true
          end) with (kept device_path filename).
  destruct (kept device_path filename) eqn:Hkept.
  - apply emits_shutil_move; exists filename; cbv zeta; auto.
  - apply emits_os_remove. now exists filename.
Qed.
End ImageFiles.

Section ImageFilesTheorem.
Import PyStr Fs OrganiseFiles OrganiseMore.
Local Open Scope fs_scope.

End ImageFilesTheorem.

Section LogFiles.
Import PyStr Fs OrganiseFiles OrganiseMore.
Local Open Scope fs_scope.

Lemma emits_weaken {A} (P Q : event -> Prop) (m : M A) :
  (forall e, P e -> Q e) -> emits P m -> emits Q m.
Proof.
  intros HPQ Hm σ. destruct (Hm σ) as (new & Ht & Hnew). exists new.
  split; [exact Ht|]. eapply Forall_impl; [exact Hnew | exact HPQ].
Qed.

Lemma in_time_fold_each {X S} (l : list X) (body : X -> S -> M S) :
  (forall x acc, in_time (body x acc)) -> forall acc, in_time (fold_each l acc body).
Proof.
  intros Hb. induction l as [|x l IH]; intros acc; cbn [fold_each]; [apply in_time_ret|].
  apply in_time_bind; [apply Hb | intros acc'; apply IH].
Qed.

Lemma in_time_try_except {A} (m : M A) (h : exn -> M A) :
  in_time m -> (forall e, in_time (h e)) -> in_time (try_except m h).
Proof.
  intros Hm Hh σ. unfold try_except. specialize (Hm σ).
  destruct (m σ) as [[a|e|] σ']; [discriminate | apply Hh | contradiction].
Qed.

Lemma returns_ret {A} (a : A) : returns (ret a).
Proof. intros σ. now eexists _, _. Qed.

Lemma returns_bind {A B} (m : M A) (k : A -> M B) :
  returns m -> (forall a, returns (k a)) -> returns (bind m k).
Proof. intros Hm Hk σ. unfold bind. destruct (Hm σ) as (a & σ' & ->). apply Hk. Qed.

Lemma returns_fold_each {X S} (l : list X) (body : X -> S -> M S) :
  (forall x acc, returns (body x acc)) -> forall acc, returns (fold_each l acc body).
Proof.
  intros Hb. induction l as [|x l IH]; intros acc; cbn [fold_each]; [apply returns_ret|].
  apply returns_bind; [apply Hb | intros acc'; apply IH].
Qed.

Lemma returns_try_except {A} (m : M A) (h : exn -> M A) :
  in_time m -> (forall e, returns (h e)) -> returns (try_except m h).
Proof.
  intros Hm Hh σ. unfold try_except. specialize (Hm σ).
  destruct (m σ) as [[a|e|] σ']; [now eexists _, _ | apply Hh | contradiction].
Qed.

Lemma log_files_are_saved_or_removed_aux working_path dest_path enable_logs σ :
  exists new,
    trace (_handle_log_files working_path dest_path enable_logs σ).2 = trace σ ++ new /\
    Forall (log_event working_path dest_path (cwd σ) enable_logs) new.
Proof.
  assert (forall k : string -> M unit, (bind os_getcwd k) σ = k (cwd σ) σ) as Hcwd
    by reflexivity.
  unfold _handle_log_files. rewrite Hcwd. clear Hcwd. cbv beta zeta.
  set (locations := potential_log_locations (cwd σ) working_path).
  set (logs_dir := OsPath.join (OsPath.join dest_path "WORKING") "logs").
  match goal with |- exists new, trace (?m σ).2 = _ /\ _ =>
    assert (emits (log_event working_path dest_path (cwd σ) enable_logs) m) as Hm;
      [|exact (Hm σ)]
  end.
  destruct enable_logs.
  + apply emits_bind; [apply emits_os_makedirs; now split|]. intros _.
    apply emits_bind; [|intros _; apply emits_ret].
    apply emits_fold_each. intros [src dest_name] acc Hin. cbn [fst snd].
    apply emits_bind; [now apply emits_nothing|]. intros present.
    destruct (present && negb (bool_decide (src ∈ acc))); [|apply emits_ret].
    intros τ. unfold bind at 1.
    destruct (get_unique_path_spec logs_dir dest_name τ) as (k & -> & _).
    revert τ. change (emits (log_event working_path dest_path (cwd σ) true)
                        (shutil_move src (candidate logs_dir dest_name k) ;;
                         ret (acc ++ [src]))).
    apply emits_bind; [|intros _; apply emits_ret].
    apply emits_shutil_move; (split; [reflexivity|]); exists dest_name, k; auto.
  + apply emits_bind; [|intros _; apply emits_ret].
    apply emits_fold_each. intros [src dest_name] acc Hin. cbn [fst snd].
    apply emits_try_except; [|intros _; apply emits_ret].
    apply emits_bind; [now apply emits_nothing|]. intros present.
    destruct (present && negb (bool_decide (src ∈ acc))); [|apply emits_ret].
    apply emits_bind; [|intros _; apply emits_ret].
    apply emits_os_remove. split; [reflexivity|].
    apply list_elem_of_fmap. now exists (src, dest_name).
Qed.

(** X18.  [_handle_log_files] touches only the seven places where a log
    may lie: with logs enabled it creates [<dest>/WORKING/logs] and moves
    the logs found there under a free name made from their fixed target
    name; with logs disabled it removes the logs found, and then it
    never raises. *)
Theorem log_files_are_saved_or_removed working_path dest_path enable_logs σ :
  let r := _handle_log_files working_path dest_path enable_logs σ in
  (enable_logs = false -> exists σ', r = (Ok tt, σ')) /\
  exists new,
    trace r.2 = trace σ ++ new /\
    Forall (log_event working_path dest_path (cwd σ) enable_logs) new.
Proof.
  cbv zeta. split; [|apply log_files_are_saved_or_removed_aux].
  intros ->.
  assert (forall k : string -> M unit, (bind os_getcwd k) σ = k (cwd σ) σ) as Hcwd
    by reflexivity.
  unfold _handle_log_files. rewrite Hcwd. clear Hcwd. cbv beta zeta.
  match goal with |- exists σ', ?m σ = _ => assert (returns m) as Hm end.
  { apply returns_bind; [|intros _; apply returns_ret].
    apply returns_fold_each. intros loc acc.
    apply returns_try_except; [|intros _; apply returns_ret].
    apply in_time_bind; [intros τ; discriminate|]. intros present.
    destruct (present && negb (bool_decide (loc.1 ∈ acc))); [|apply in_time_ret].
    apply in_time_bind; [apply in_time_os_remove | intros _; apply in_time_ret]. }
  destruct (Hm σ) as ([] & σ' & ->). now exists σ'.
Qed.
End LogFiles.

Section WorkingDirectory.
Import PyStr Fs OrganiseFiles OrganiseMore.
Local Open Scope fs_scope.

Variable P : event -> Prop.
Hypothesis P_copied : forall src dst, P (Copied src dst).
Hypothesis P_removed : forall p, P (Removed p).
Hypothesis P_madedirs : forall p, P (MadeDirs p).
Hypothesis P_removeddir : forall p, P (RemovedDir p).

Lemma emits_move_block {A} (dest : M string) src (a : A) :
  emits P dest ->
  emits P (d <- dest ;; shutil_copy2 src d ;; os_remove src ;; ret a).
Proof.
  intros Hd. apply emits_bind; [exact Hd|]. intros d.
  apply emits_bind; [now apply emits_shutil_copy2|]. intros _.
  apply emits_bind; [now apply emits_os_remove | intros _; apply emits_ret].
Qed.

Lemma emits_destination corrupted_dir other filename (c : bool) :
  emits P (if c then os_makedirs corrupted_dir ;; _get_unique_path corrupted_dir filename
           else _get_unique_path other filename).
Proof.
  destruct c; [|apply emits_get_unique_path].
  apply emits_bind; [now apply emits_os_makedirs|]. intros _.
  apply emits_get_unique_path.
Qed.

Lemma emits_organize_files_by_type working_path dest_path enable_logs :
  emits P (organize_files_by_type working_path dest_path enable_logs).
Proof.
  unfold organize_files_by_type. apply emits_try_except; [|intros _; apply emits_ret].
  apply emits_bind.
  { unfold find_photorec_dirs. apply emits_bind; [apply emits_os_listdir|].
    intros items. apply emits_fold_each. intros item acc _.
    apply emits_bind; [now apply emits_nothing|]. intros d.
    destruct (d && startswith item "recovered_files"); apply emits_ret. }
  intros [|d photorec_dirs]; [apply emits_ret|].
  apply emits_bind; [now apply emits_nothing|]. intros σ.
  apply emits_bind; [|intros processed; apply emits_bind; [|intros _; apply emits_ret]].
  - generalize (S (S (length (working_files σ)))) 0%nat. intros fuel.
    induction fuel as [|fuel IH]; intros processed; cbn [organize_loop].
    { now apply emits_nothing. }
    apply emits_bind.
    { unfold scan. apply emits_fold_each. intros dir_path v _.
      apply emits_bind; [now apply emits_nothing|]. intros walk.
      apply emits_fold_each. intros s v' _. apply emits_fold_each. intros file v'' _.
      unfold scan_file. destruct (is_report file).
      - apply emits_bind; [|intros _; apply emits_ret].
        apply emits_swallow. now apply emits_os_remove.
      - destruct (contains "." file && negb (startswith file ".")); [|apply emits_ret].
        destruct (truthy (extension_of file) && negb (bool_decide (is_Some v''.1)));
          apply emits_ret. }
    intros [[current_ext|] files_no_ext].
    + apply emits_bind; [|intros n; apply IH].
      unfold _process_files_with_extension.
      apply emits_bind; [now apply emits_os_makedirs|]. intros _.
      apply emits_fold_each. intros dir_path n _.
      apply emits_bind; [now apply emits_nothing|]. intros walk.
      apply emits_fold_each. intros s n' _. apply emits_fold_each. intros file n'' _.
      unfold move_file_with_extension.
      destruct (endswith (lower file) ("." +:+ current_ext)); [|apply emits_ret].
      apply emits_move_block, emits_destination.
    + destruct files_no_ext as [|f files_no_ext]; [apply emits_ret|].
      apply emits_bind; [|intros n; apply IH].
      unfold _process_files_without_extension.
      apply emits_bind; [now apply emits_os_makedirs|]. intros _.
      apply emits_fold_each. intros file_path n _.
      unfold move_file_without_extension.
      apply emits_move_block, emits_destination.
  - unfold _cleanup_empty_dirs. apply emits_for_each. intros dir_path _.
    apply emits_bind; [now apply emits_nothing|]. intros walk.
    apply emits_bind.
    + apply emits_for_each. intros s _. apply emits_for_each. intros dirname _.
      apply emits_swallow. now apply emits_os_rmdir.
    + intros _. apply emits_swallow. now apply emits_os_rmdir.
Qed.
End WorkingDirectory.

Section WorkingDirectoryTheorem.
Import PyStr Fs OrganiseFiles OrganiseMore.
Local Open Scope fs_scope.

Lemma not_rmtree_split new1 new2 pre p post :
  Forall not_rmtree new1 -> new1 ++ new2 = pre ++ RemovedTree p :: post ->
  exists pre', pre = new1 ++ pre' /\ new2 = pre' ++ RemovedTree p :: post.
Proof.
  intros Hnew. revert pre. induction Hnew as [|e new1 He _ IH]; intros pre Heq.
  - now exists pre.
  - destruct pre as [|x pre]; cbn in Heq.
    + injection Heq as -> _. destruct He.
    + injection Heq as -> Heq. destruct (IH pre Heq) as (pre' & -> & ->).
      now exists pre'.
Qed.

Lemma rmtree_last_bind {A} working_dir (m : M A) (k : A -> M bool) :
  emits not_rmtree m ->
  (forall a σ, exists new, trace (k a σ).2 = trace σ ++ new /\
                           rmtree_last working_dir new (k a σ).1) ->
  forall σ, exists new, trace (bind m k σ).2 = trace σ ++ new /\
                        rmtree_last working_dir new (bind m k σ).1.
Proof.
  intros Hm Hk σ. unfold bind. destruct (Hm σ) as (new1 & Ht1 & Hnew1).
  destruct (m σ) as [[a|e|] σ1]; cbn [fst snd] in *.
  - destruct (Hk a σ1) as (new2 & Ht2 & Hlast). exists (new1 ++ new2). split.
    + now rewrite Ht2, Ht1, app_assoc.
    + intros pre p post Heq.
      destruct (not_rmtree_split _ _ _ _ _ Hnew1 Heq) as (pre' & -> & Heq').
      exact (Hlast pre' p post Heq').
  - exists new1. split; [exact Ht1|]. intros pre p post ->.
    apply Forall_app in Hnew1 as [_ Hbad]. inversion Hbad as [|? ? Hno _]. destruct Hno.
  - exists new1. split; [exact Ht1|]. intros pre p post ->.
    apply Forall_app in Hnew1 as [_ Hbad]. inversion Hbad as [|? ? Hno _]. destruct Hno.
Qed.

(** X19.  [organize_and_cleanup] removes a tree at most once and as its
    last act, and then the tree is the working directory it was given
    and the result is [True]: the working directory is never removed
    when the organising failed or raised, and with no working directory
    (the destination serves as one) nothing is removed as a tree. *)
Theorem working_directory_removed_only_after_success working_dir dest_path save_image
    enable_logs remove_duplicates device_path controller E σ :
  let r := organize_and_cleanup working_dir dest_path save_image enable_logs
             remove_duplicates device_path controller E σ in
  exists new,
    trace r.2 = trace σ ++ new /\
    forall pre p post, new = pre ++ RemovedTree p :: post ->
      post = [] /\ working_dir = Some p /\ truthy p = true /\ r.1 = Ok true.
Proof.
  cbv zeta. unfold organize_and_cleanup.
  apply (rmtree_last_bind working_dir).
  { unfold image_step. destruct save_image.
    - eapply emits_weaken; [|apply move_image_files_emits]. now intros [].
    - unfold _cleanup_image_files. apply emits_swallow.
      apply emits_bind; [apply emits_os_listdir|]. intros names.
      apply emits_for_each. intros filename _.
      destruct (is_image_or_map filename); [now apply emits_os_remove | apply emits_ret]. }
  intros _. apply (rmtree_last_bind working_dir).
  { destruct remove_duplicates; [|apply emits_ret]. unfold dedup_step.
    destruct (Duplicates.remove_duplicates_with_rdfind _ _ _) as [log r].
    apply emits_bind.
    - destruct (Duplicates.launched log); now apply emits_rdfind_disk.
    - intros _. destruct r; [apply emits_ret | now apply emits_nothing]. }
  intros _. unfold after_dedup. apply (rmtree_last_bind working_dir).
  { intros τ.
    destruct (log_files_are_saved_or_removed_aux (or_else working_dir dest_path) dest_path
                enable_logs τ) as (new & Ht & Hnew).
    exists new. split; [exact Ht|]. eapply Forall_impl; [exact Hnew|]. now intros []. }
  intros _. apply (rmtree_last_bind working_dir).
  { now apply emits_organize_files_by_type. }
  intros success τ. unfold bind.
  destruct (success && from_option truthy false working_dir) eqn:Hgo.
  - apply andb_true_iff in Hgo as [-> Hwd].
    destruct working_dir as [w|]; [|discriminate Hwd]. cbn [from_option default] in *.
    unfold try_except, shutil_rmtree. destruct (String.eqb _ (wd τ)); cbn.
    + exists [RemovedTree w]. split; [reflexivity|]. intros pre p post Heq.
      destruct pre as [|x pre]; [|destruct pre; discriminate Heq].
      injection Heq as <- <-. now repeat split.
    + exists []. split; [now rewrite app_nil_r|]. intros pre p post Heq.
      now destruct pre.
  - cbn. exists []. split; [now rewrite app_nil_r|]. intros pre p post Heq.
    now destruct pre.
Qed.
End WorkingDirectoryTheorem.

Section CleanupImages.
Import PyStr Fs OrganiseFiles OrganiseMore.
Local Open Scope fs_scope.

(** X24.  [_cleanup_image_files] never raises, and all it does is
    remove entries of the working directory named [*.img] or [*.map]:
    nothing else is removed, and nothing is moved, copied or created. *)
Theorem cleanup_removes_only_images working_dir σ :
  let r := _cleanup_image_files working_dir σ in
  r.1 = Ok tt /\
  exists new,
    trace r.2 = trace σ ++ new /\
    forall e, e ∈ new ->
      exists filename,
        is_image_or_map filename = true /\
        e = Removed (OsPath.join working_dir filename).
Proof.
  cbv zeta. split.
  - assert (exists σ', _cleanup_image_files working_dir σ = (Ok tt, σ')) as [σ' ->];
      [|reflexivity].
    unfold _cleanup_image_files. apply swallow_total.
    apply in_time_bind; [apply in_time_os_listdir|]. intros names.
    apply in_time_for_each. intros filename.
    destruct (is_image_or_map filename); [apply in_time_os_remove | apply in_time_ret].
  - assert (emits (fun e => exists filename,
                       is_image_or_map filename = true /\
                       e = Removed (OsPath.join working_dir filename))
              (_cleanup_image_files working_dir)) as Hm.
    { unfold _cleanup_image_files. apply emits_swallow.
      apply emits_bind; [apply emits_os_listdir|]. intros names.
      apply emits_for_each. intros filename _.
      destruct (is_image_or_map filename) eqn:Himg; [|apply emits_ret].
      apply emits_os_remove. now exists filename. }
    destruct (Hm σ) as (new & Ht & Hnew). exists new. split; [exact Ht|].
    now apply Forall_forall.
Qed.
End CleanupImages.

(** ** More on the organiser: the loop ends *)

Section WalkFacts.
Import PyStr Fs OrganiseFiles OrganiseMore.
Local Open Scope fs_scope.
Local Open Scope nat_scope.

Lemma os_walk_walk_of p σ : os_walk p σ = (Ok (walk_of σ p), σ).
Proof. reflexivity. Qed.

Lemma walk_of_same σ τ d :
  entries τ = entries σ -> wd τ = wd σ -> walk_of τ d = walk_of σ d.
Proof. intros He Hw. unfold walk_of. now rewrite He, Hw. Qed.

Lemma walk_of_without σ q d : walk_of (without σ q) d = map (strip q) (walk_of σ d).
Proof.
  unfold walk_of, without. cbn [wd entries].
  induction (entries σ) as [|[n e] es IH]; [reflexivity|].
  cbn [flat_map]. rewrite flat_map_app, map_app, IH. f_equal.
  unfold remove_from_entry. cbn [fst snd]. destruct e as [|walk].
  - destruct (String.eqb (OsPath.join (wd σ) n) q); reflexivity.
  - cbn [flat_map fst snd]. rewrite app_nil_r.
    destruct (String.eqb (OsPath.join (wd σ) n) d); reflexivity.
Qed.

Lemma listed_in_working_files σ d root file :
  listed σ d root file -> OsPath.join root file ∈ working_files σ.
Proof.
  intros (s & Hs & <- & Hf). unfold working_files.
  apply list_elem_of_In, in_flat_map in Hs as ([n e] & Hin & Hs).
  cbn [fst snd] in Hs. destruct e as [|walk]; [destruct Hs|].
  destruct (String.eqb (OsPath.join (wd σ) n) d); [|destruct Hs].
  apply list_elem_of_In, in_flat_map. exists (n, Directory walk). split; [exact Hin|].
  unfold entry_files. cbn [snd]. apply in_flat_map. exists s. split; [exact Hs|].
  unfold step_files. apply in_map. now apply list_elem_of_In.
Qed.

Lemma report_path_differs root file q :
  contains OsPath.sep file = false -> is_report file = false ->
  is_report (OsPath.basename q) = true -> OsPath.join root file <> q.
Proof.
  intros Hclean Hno Hrep <-. rewrite (basename_join root file Hclean) in Hrep.
  congruence.
Qed.

Lemma listed_without σ q d root file :
  contains OsPath.sep file = false -> is_report file = false ->
  is_report (OsPath.basename q) = true ->
  listed σ d root file -> listed (without σ q) d root file.
Proof.
  intros Hclean Hno Hrep (s & Hs & <- & Hf). exists (strip q s).
  split; [|split; [reflexivity|]].
  - rewrite walk_of_without. apply list_elem_of_fmap. now exists s.
  - unfold strip. cbn [snd]. apply list_elem_of_In, filter_In.
    split; [now apply list_elem_of_In|]. unfold keep_other.
    apply negb_true_iff, String.eqb_neq. now apply report_path_differs.
Qed.

Lemma working_files_without_le σ q :
  length (working_files (without σ q)) <= length (working_files σ).
Proof. rewrite working_files_without. apply filter_length_le. Qed.

Lemma filter_length_lt {X} (f : X -> bool) l x :
  In x l -> f x = false -> length (List.filter f l) < length l.
Proof.
  induction l as [|y l IH]; intros Hin Hf; [destruct Hin|]. cbn [List.filter].
  destruct Hin as [->|Hin].
  - rewrite Hf. pose proof (filter_length_le f l). cbn [length]. lia.
  - specialize (IH Hin Hf). destruct (f y); cbn [length]; lia.
Qed.

Lemma working_files_without_lt σ q :
  q ∈ working_files σ ->
  length (working_files (without σ q)) < length (working_files σ).
Proof.
  intros Hin. rewrite working_files_without.
  apply (filter_length_lt _ _ q); [now apply list_elem_of_In|].
  now rewrite String.eqb_refl.
Qed.

Lemma wf_names_without σ q : wf_names σ -> wf_names (without σ q).
Proof. apply wf_entries_remove. Qed.
End WalkFacts.

Section ExtensionFacts.
Import PyStr Fs OrganiseFiles OrganiseMore.

Lemma splitext_ext_head p :
  (OsPath.splitext p).2 = "" \/ exists r, (OsPath.splitext p).2 = String "." r.
Proof.
  unfold OsPath.splitext. destruct (OsPath.split_last_sep p) as [head tail].
  destruct (rsplit OsPath.extsep tail) as [[stem ext]|] eqn:Hext; [|now left].
  destruct (has_other OsPath.extsep stem); [|now left].
  right. exact (rsplit_head _ _ _ _ Hext).
Qed.

(** A file that gives the scan its extension is a file of the pass for
    that extension. *)
Lemma matches_extension_of file :
  truthy (extension_of file) = true -> matches (extension_of file) file = true.
Proof.
  unfold matches, extension_of. intros Hext.
  destruct (splitext_ext_head file) as [Hnil|[r Hr]].
  - rewrite Hnil in Hext. discriminate.
  - rewrite Hr. cbn [drop1]. apply endswith_spec.
    exists (lower (OsPath.splitext file).1).
    rewrite <- (splitext_app file) at 1. rewrite lower_app, Hr. reflexivity.
Qed.
End ExtensionFacts.

Section InTimeOrganiser.
Import PyStr Fs OrganiseFiles OrganiseMore.
Local Open Scope fs_scope.

Lemma in_time_returns {A} (m : M A) : returns m -> in_time m.
Proof. intros H σ. destruct (H σ) as (a & σ' & ->). discriminate. Qed.

Lemma returns_get_unique_path directory filename :
  returns (_get_unique_path directory filename).
Proof.
  intros σ. destruct (get_unique_path_spec directory filename σ) as (k & -> & _).
  now eexists _, _.
Qed.

Lemma in_time_shutil_copy2 src dst : in_time (shutil_copy2 src dst).
Proof. intros σ. unfold shutil_copy2. case_bool_decide; discriminate. Qed.

Lemma in_time_os_rmdir p : in_time (os_rmdir p).
Proof. intros σ. unfold os_rmdir. destruct (removable σ p); discriminate. Qed.

Lemma returns_os_walk p : returns (os_walk p).
Proof. intros σ. now eexists _, _. Qed.

Lemma returns_scan_file root file v : returns (scan_file root file v).
Proof.
  unfold scan_file. destruct (is_report file).
  - apply returns_bind; [|intros _; apply returns_ret].
    apply returns_try_except; [apply in_time_os_remove | intros _; apply returns_ret].
  - destruct (contains "." file && negb (startswith file ".")); [|apply returns_ret].
    destruct (truthy (extension_of file) && negb (bool_decide (is_Some v.1)));
      apply returns_ret.
Qed.

Lemma returns_scan photorec_dirs : returns (scan photorec_dirs).
Proof.
  unfold scan. apply returns_fold_each. intros dir_path v.
  apply returns_bind; [apply returns_os_walk|]. intros walk.
  apply returns_fold_each. intros s v'. apply returns_fold_each. intros file v''.
  apply returns_scan_file.
Qed.

Lemma in_time_move_block {A} (dest : M string) src (a : A) :
  in_time dest -> in_time (d <- dest ;; shutil_copy2 src d ;; os_remove src ;; ret a).
Proof.
  intros Hd. apply in_time_bind; [exact Hd|]. intros d.
  apply in_time_bind; [apply in_time_shutil_copy2|]. intros _.
  apply in_time_bind; [apply in_time_os_remove | intros _; apply in_time_ret].
Qed.

Lemma in_time_destination corrupted_dir other filename (c : bool) :
  in_time (if c then os_makedirs corrupted_dir ;; _get_unique_path corrupted_dir filename
           else _get_unique_path other filename).
Proof.
  destruct c; [|apply in_time_returns, returns_get_unique_path].
  apply in_time_bind; [apply in_time_os_makedirs|]. intros _.
  apply in_time_returns, returns_get_unique_path.
Qed.

Lemma in_time_process_files_with_extension photorec_dirs extension dest_path :
  in_time (_process_files_with_extension photorec_dirs extension dest_path).
Proof.
  unfold _process_files_with_extension.
  apply in_time_bind; [apply in_time_os_makedirs|]. intros _.
  apply in_time_fold_each. intros dir_path n.
  apply in_time_bind; [apply in_time_returns, returns_os_walk|]. intros walk.
  apply in_time_fold_each. intros s n'. apply in_time_fold_each. intros file n''.
  unfold move_file_with_extension.
  destruct (endswith (lower file) ("." +:+ extension)); [|apply in_time_ret].
  apply in_time_move_block, in_time_destination.
Qed.

Lemma in_time_process_files_without_extension files dest_path :
  in_time (_process_files_without_extension files dest_path).
Proof.
  unfold _process_files_without_extension.
  apply in_time_bind; [apply in_time_os_makedirs|]. intros _.
  apply in_time_fold_each. intros file_path n.
  unfold move_file_without_extension.
  apply in_time_move_block, in_time_destination.
Qed.

Lemma returns_cleanup_empty_dirs photorec_dirs : returns (_cleanup_empty_dirs photorec_dirs).
Proof.
  unfold _cleanup_empty_dirs.
  assert (forall {X} (l : list X) (body : X -> M unit),
            (forall x, returns (body x)) -> returns (for_each l body)) as Hfor.
  { intros X l body Hb. induction l as [|x l IH]; cbn [for_each]; [apply returns_ret|].
    apply returns_bind; [apply Hb | intros _; exact IH]. }
  apply Hfor. intros dir_path.
  apply returns_bind; [apply returns_os_walk|]. intros walk.
  apply returns_bind.
  - apply Hfor. intros s. apply Hfor. intros dirname.
    apply returns_try_except; [apply in_time_os_rmdir | intros _; apply returns_ret].
  - intros _.
    apply returns_try_except; [apply in_time_os_rmdir | intros _; apply returns_ret].
Qed.

Lemma in_time_find_photorec_dirs working_path : in_time (find_photorec_dirs working_path).
Proof.
  unfold find_photorec_dirs. apply in_time_bind; [apply in_time_os_listdir|].
  intros items. apply in_time_fold_each. intros item acc.
  apply in_time_bind; [intros σ; discriminate|]. intros d.
  destruct (d && startswith item "recovered_files"); apply in_time_ret.
Qed.
End InTimeOrganiser.

Section ScanFacts.
Import PyStr Fs OrganiseFiles OrganiseMore.
Local Open Scope fs_scope.
Local Open Scope nat_scope.

Variables (photorec_dirs : list string) (σ0 : state).
Local Abbreviation any := (fun _ : state => True).

Lemma scan_inv_without v σ q :
  is_report (OsPath.basename q) = true ->
  scan_inv photorec_dirs σ0 v σ -> scan_inv photorec_dirs σ0 v (without σ q).
Proof.
  intros Hrep (Hwf & Hlen & Hfiles & Hext). split; [now apply wf_names_without|].
  split; [pose proof (working_files_without_le σ q); lia|]. split.
  - eapply Forall_impl; [exact Hfiles|]. intros p [Hin Hno]. split; [|exact Hno].
    rewrite working_files_without. apply list_elem_of_In, filter_In.
    split; [now apply list_elem_of_In|].
    apply negb_true_iff, String.eqb_neq. intros ->. congruence.
  - intros ext Hv. destruct (Hext ext Hv) as (d & root & f & Hd & Hl & Hm & Hno & Hc).
    exists d, root, f. repeat split; try assumption. now apply listed_without.
Qed.

Lemma still_listed_without walk d σ q :
  (forall (s : walk_step) f, s ∈ walk -> f ∈ s.2 -> contains OsPath.sep f = false) ->
  is_report (OsPath.basename q) = true ->
  still_listed walk d σ -> still_listed walk d (without σ q).
Proof.
  intros Hclean Hrep Hk s f Hs Hf Hno.
  apply listed_without; [exact (Hclean s f Hs Hf) | exact Hno | exact Hrep|].
  now apply Hk.
Qed.

Lemma hoare_scan_file walk d (s : walk_step) file v :
  d ∈ photorec_dirs -> s ∈ walk -> file ∈ s.2 ->
  (forall (s : walk_step) f, s ∈ walk -> f ∈ s.2 -> contains OsPath.sep f = false) ->
  hoare (fun σ => scan_inv photorec_dirs σ0 v σ /\ still_listed walk d σ)
    (scan_file s.1.1 file v)
    (fun v' σ => scan_inv photorec_dirs σ0 v' σ /\ still_listed walk d σ) any.
Proof.
  intros Hd Hs Hf Hclean σ [Hinv Hk].
  pose proof (Hclean s file Hs Hf) as Hc.
  unfold scan_file. destruct (is_report file) eqn:Hrep.
  - unfold bind, try_except, os_remove. case_bool_decide; cbn [ret].
    + fold (without σ (OsPath.join s.1.1 file)).
      assert (is_report (OsPath.basename (OsPath.join s.1.1 file)) = true) as Hq
        by now rewrite basename_join.
      split; [now apply scan_inv_without | now apply still_listed_without].
    + now split.
  - pose proof (Hk s file Hs Hf Hrep) as Hl.
    destruct (contains "." file && negb (startswith file ".")).
    + destruct (truthy (extension_of file) && negb (bool_decide (is_Some v.1))) eqn:Hext;
        cbn [ret]; [|now split].
      split; [|exact Hk]. destruct Hinv as (Hwf & Hlen & Hfiles & _).
      split; [exact Hwf|]. split; [exact Hlen|]. split; [exact Hfiles|].
      cbn [fst]. intros ext [= <-]. exists d, s.1.1, file.
      apply andb_true_iff in Hext as [Hext _].
      repeat split; try assumption. now apply matches_extension_of.
    + cbn [ret]. split; [|exact Hk]. destruct Hinv as (Hwf & Hlen & Hfiles & Hext).
      split; [exact Hwf|]. split; [exact Hlen|]. split; [|exact Hext].
      cbn [snd]. apply Forall_app. split; [exact Hfiles|]. repeat constructor.
      * exact (listed_in_working_files σ d s.1.1 file Hl).
      * now rewrite basename_join.
Qed.

Lemma hoare_scan :
  hoare (fun σ => σ = σ0 /\ wf_names σ0) (scan photorec_dirs)
        (scan_inv photorec_dirs σ0) any.
Proof.
  unfold scan.
  apply (hoare_conseq _ (scan_inv photorec_dirs σ0 (None, [])) _
           (scan_inv photorec_dirs σ0) _ any any);
    [| |intros a σ H; exact H|intros σ H; exact H].
  - apply (hoare_fold_acc (scan_inv photorec_dirs σ0) any).
    intros d v Hd σ Hinv. unfold bind. rewrite os_walk_walk_of.
    assert (forall (s : walk_step) f, s ∈ walk_of σ d -> f ∈ s.2 ->
                                      contains OsPath.sep f = false) as Hclean.
    { intros s f Hs Hf. destruct Hinv as [Hwf _]. exact (walk_of_clean σ d s f Hwf Hs Hf). }
    assert (still_listed (walk_of σ d) d σ) as Hk.
    { intros s f Hs Hf _. now exists s. }
    generalize dependent σ. intros σ. generalize (walk_of σ d) at 1 2 3 as walk.
    intros walk Hinv Hclean Hk.
    pose proof (hoare_fold_acc
                  (fun v σ => scan_inv photorec_dirs σ0 v σ /\ still_listed walk d σ) any
                  walk
                  (fun (s : walk_step) v => fold_each s.2 v (scan_file s.1.1))) as Hfold.
    specialize (Hfold ltac:(
      intros s v' Hs;
      apply (hoare_fold_acc
               (fun v σ => scan_inv photorec_dirs σ0 v σ /\ still_listed walk d σ) any);
      intros file v'' Hf; now apply (hoare_scan_file walk d s file v'')) v σ
      (conj Hinv Hk)).
    match type of Hfold with
    | (let (_, _) := ?m in _) =>
        match goal with |- (let (_, _) := ?m' in _) => change m' with m end;
        destruct m as [[v'|e|] σ']
    end; [exact (proj1 Hfold) | exact I | exact I].
  - intros σ [-> Hwf]. split; [exact Hwf|]. split; [lia|]. split; [constructor|].
    discriminate.
Qed.
End ScanFacts.

Section HoareHits.
Import Fs OrganiseFiles.
Local Open Scope fs_scope.
Local Open Scope nat_scope.

Context {X : Type} (J : nat -> state -> Prop) (E : state -> Prop) (hit : X -> Prop).

(** A counting loop: the count never goes down, and it is positive at
    the end when the body counts some element that is hit. *)
Lemma hoare_fold_hit (l : list X) (body : X -> nat -> M nat) :
  (forall x n, x ∈ l ->
     hoare (J n) (body x n) (fun n' σ => J n' σ /\ n <= n' /\ (hit x -> 0 < n')) E) ->
  forall n,
    hoare (J n) (fold_each l n body)
      (fun n' σ => J n' σ /\ n <= n' /\ ((exists x, x ∈ l /\ hit x) -> 0 < n')) E.
Proof.
  induction l as [|x l IH]; intros Hbody n; cbn [fold_each].
  - apply hoare_ret. intros σ HJ. split; [exact HJ|]. split; [lia|].
    intros (x & Hx & _). inversion Hx.
  - apply (hoare_bind _ _ _ (fun n1 σ => J n1 σ /\ n <= n1 /\ (hit x -> 0 < n1))).
    + apply Hbody, list_elem_of_here.
    + intros n1 σ (HJ & Hle & Hhit).
      assert (forall y m, y ∈ l ->
                hoare (J m) (body y m)
                  (fun n' σ => J n' σ /\ m <= n' /\ (hit y -> 0 < n')) E) as Hbody'
        by (intros y m Hy; apply Hbody; now apply list_elem_of_further).
      specialize (IH Hbody' n1 σ HJ).
      destruct (fold_each l n1 body σ) as [[n'|e|] σ']; [|exact IH..].
      destruct IH as (HJ' & Hle' & Hhit'). split; [exact HJ'|]. split; [lia|].
      intros (y & [->|Hy]%elem_of_cons & Hh).
      * specialize (Hhit Hh). lia.
      * apply Hhit'. now exists y.
Qed.
End HoareHits.

Section PassFacts.
Import PyStr Fs OrganiseFiles OrganiseMore.
Local Open Scope fs_scope.
Local Open Scope nat_scope.

Variable σ1 : state.
Local Abbreviation any := (fun _ : state => True).

Lemma destination_cases corrupted_dir other filename (c : bool) σ :
  let m := if c then os_makedirs corrupted_dir ;; _get_unique_path corrupted_dir filename
           else _get_unique_path other filename in
  (exists e, m σ = (Raise e, σ)) \/
  (exists dst τ, m σ = (Ok dst, τ) /\ entries τ = entries σ /\ wd τ = wd σ /\
                 path_exists τ dst = false).
Proof.
  cbv zeta. destruct c.
  - unfold bind.
    destruct (os_makedirs_cases corrupted_dir σ)
      as [[-> _]|[[e ->]|(τ & -> & _ & He & Hw & _)]].
    + destruct (get_unique_path_spec corrupted_dir filename σ) as (k & -> & Hfree & _).
      right. eexists _, _. split; [reflexivity|]. repeat split; assumption || reflexivity.
    + left. now exists e.
    + destruct (get_unique_path_spec corrupted_dir filename τ) as (k & -> & Hfree & _).
      right. eexists _, _. split; [reflexivity|]. repeat split; assumption || reflexivity.
  - destruct (get_unique_path_spec other filename σ) as (k & -> & Hfree & _).
    right. eexists _, _. split; [reflexivity|]. repeat split; assumption || reflexivity.
Qed.

Lemma move_block_cases {A} corrupted_dir other filename (c : bool) src (a : A) σ :
  let r := (dest <- (if c then os_makedirs corrupted_dir ;;
                               _get_unique_path corrupted_dir filename
                     else _get_unique_path other filename) ;;
            shutil_copy2 src dest ;; os_remove src ;; ret a) σ in
  (exists e τ, r = (Raise e, τ)) \/
  (exists dst τ, entries τ = entries σ /\ wd τ = wd σ /\
                 r = (Ok a, without (with_copy τ src dst) src)).
Proof.
  intros r.
  assert (exists m, m = r /\
            m = (dest <- (if c then os_makedirs corrupted_dir ;;
                                    _get_unique_path corrupted_dir filename
                          else _get_unique_path other filename) ;;
                 shutil_copy2 src dest ;; os_remove src ;; ret a) σ)
    as (m & Hr & Hm) by now eexists.
  clearbody r. subst r. unfold bind at 1 in Hm.
  destruct (destination_cases corrupted_dir other filename c σ)
    as [[e Hd]|(dst & τ & Hd & He & Hw & Hfree)]; rewrite Hd in Hm.
  - left. eexists _, _. exact Hm.
  - rewrite (copy_then_remove src dst a τ Hfree) in Hm. case_bool_decide.
    + right. now exists dst, τ.
    + left. eexists _, _. exact Hm.
Qed.

Lemma pass_inv_same n σ τ :
  entries τ = entries σ -> wd τ = wd σ -> pass_inv σ1 n σ -> pass_inv σ1 n τ.
Proof.
  intros He Hw (Hwf & H0 & Hpos). split; [unfold wf_names; now rewrite He|]. split.
  - intros Hn. destruct (H0 Hn) as [He1 Hw1]. split; congruence.
  - intros Hn. unfold working_files. rewrite He, Hw. now apply Hpos.
Qed.

(** After a move the count is positive and the tree has lost a file. *)
Lemma pass_inv_moved n σ τ src dst :
  entries τ = entries σ -> wd τ = wd σ ->
  (n = 0 -> src ∈ working_files σ1) ->
  pass_inv σ1 n σ -> pass_inv σ1 (n + 1) (without (with_copy τ src dst) src).
Proof.
  intros He Hw Hsrc (Hwf & H0 & Hpos).
  assert (working_files (with_copy τ src dst) = working_files σ) as Hsame
    by (unfold working_files; cbn [entries wd with_copy]; now rewrite He, Hw).
  split; [|split; [lia|intros _]].
  - apply wf_names_without. unfold wf_names. cbn [entries with_copy]. now rewrite He.
  - destruct n as [|n].
    + destruct (H0 eq_refl) as [He1 Hw1].
      assert (working_files σ = working_files σ1) as Hσ
        by (unfold working_files; now rewrite He1, Hw1).
      pose proof (working_files_without_lt (with_copy τ src dst) src) as Hlt.
      rewrite Hsame, Hσ in Hlt. apply Hlt. now apply Hsrc.
    + pose proof (working_files_without_le (with_copy τ src dst) src) as Hle.
      rewrite Hsame in Hle. specialize (Hpos ltac:(lia)). lia.
Qed.

Lemma hoare_move_file_with_extension filetype_dir corrupted_dir extension d root file n :
  (n = 0 -> listed σ1 d root file) ->
  hoare (pass_inv σ1 n)
    (move_file_with_extension filetype_dir corrupted_dir extension root file n)
    (fun n' σ => pass_inv σ1 n' σ /\ n <= n' /\ (matches extension file = true -> 0 < n'))
    any.
Proof.
  intros Hl σ Hinv. unfold move_file_with_extension. fold (matches extension file).
  destruct (matches extension file); cbn [ret].
  - destruct (move_block_cases corrupted_dir filetype_dir file (is_corrupted_name file)
                (OsPath.join root file) (n + 1) σ)
      as [(e & τ & ->)|(dst & τ & He & Hw & ->)]; [exact I|].
    split; [|split; [lia | intros _; lia]].
    apply (pass_inv_moved n σ τ _ dst He Hw); [|exact Hinv].
    intros Hn. exact (listed_in_working_files σ1 d root file (Hl Hn)).
  - split; [exact Hinv|]. split; [lia | discriminate].
Qed.

Lemma hoare_move_file_without_extension no_ext_dir corrupted_dir file_path n :
  file_path ∈ working_files σ1 ->
  hoare (pass_inv σ1 n)
    (move_file_without_extension no_ext_dir corrupted_dir file_path n)
    (fun n' σ => pass_inv σ1 n' σ /\ n <= n' /\ (True -> 0 < n')) any.
Proof.
  intros Hin σ Hinv. unfold move_file_without_extension.
  destruct (move_block_cases corrupted_dir no_ext_dir (OsPath.basename file_path)
              (is_corrupted_name (OsPath.basename file_path)) file_path (n + 1) σ)
    as [(e & τ & ->)|(dst & τ & He & Hw & ->)]; [exact I|].
  split; [|split; [lia | intros _; lia]].
  now apply (pass_inv_moved n σ τ _ dst He Hw).
Qed.

Lemma hoare_os_makedirs_pass p n :
  hoare (pass_inv σ1 n) (os_makedirs p) (fun _ => pass_inv σ1 n) any.
Proof.
  intros σ Hinv.
  destruct (os_makedirs_cases p σ) as [[-> _]|[[e ->]|(τ & -> & _ & He & Hw & _)]];
    [exact Hinv | exact I | now apply (pass_inv_same n σ τ)].
Qed.

(** A pass over files without extension that ends well has moved some
    file of the tree. *)
Lemma hoare_process_files_without_extension f files dest_path :
  Forall (fun p => p ∈ working_files σ1) (f :: files) ->
  hoare (pass_inv σ1 0) (_process_files_without_extension (f :: files) dest_path)
    (fun n σ => wf_names σ /\ length (working_files σ) < length (working_files σ1)) any.
Proof.
  intros Hfiles. unfold _process_files_without_extension.
  apply (hoare_bind _ _ _ (fun _ => pass_inv σ1 0)); [apply hoare_os_makedirs_pass|].
  intros _.
  eapply hoare_conseq;
    [apply (hoare_fold_hit (pass_inv σ1) any (fun _ => True))
    |intros σ H; exact H| |intros σ H; exact H].
  - intros p n Hp. apply hoare_move_file_without_extension.
    rewrite Forall_forall in Hfiles. now apply Hfiles.
  - intros n σ ((Hwf & _ & Hpos) & _ & Hhit). split; [exact Hwf|]. apply Hpos, Hhit.
    exists f. split; [apply list_elem_of_here | exact I].
Qed.

(** A pass for an extension that some listed file has, and that ends
    well, has moved some file of the tree. *)
Lemma hoare_process_files_with_extension photorec_dirs extension dest_path :
  (exists d root f, d ∈ photorec_dirs /\ listed σ1 d root f /\
                    matches extension f = true) ->
  hoare (pass_inv σ1 0) (_process_files_with_extension photorec_dirs extension dest_path)
    (fun n σ => wf_names σ /\ length (working_files σ) < length (working_files σ1)) any.
Proof.
  intros (d0 & root0 & f0 & Hd0 & Hl0 & Hm0). unfold _process_files_with_extension.
  apply (hoare_bind _ _ _ (fun _ => pass_inv σ1 0)); [apply hoare_os_makedirs_pass|].
  intros _.
  eapply hoare_conseq;
    [apply (hoare_fold_hit (pass_inv σ1) any
              (fun d => exists root f, listed σ1 d root f /\ matches extension f = true))
    |intros σ H; exact H| |intros σ H; exact H].
  - intros d n Hd σ Hinv. unfold bind. rewrite os_walk_walk_of.
    assert (n = 0 -> walk_of σ d = walk_of σ1 d) as Hwalk.
    { intros Hn. destruct Hinv as (_ & H0 & _). destruct (H0 Hn) as [He Hw].
      now apply walk_of_same. }
    assert (forall root f, listed σ1 d root f -> n = 0 -> listed σ d root f) as Hsame.
    { intros root f (s & Hs & Hr & Hf) Hn. exists s. now rewrite (Hwalk Hn). }
    assert (forall (s : walk_step) f, s ∈ walk_of σ d -> f ∈ s.2 -> n = 0 ->
                                      listed σ1 d s.1.1 f) as Hlisted.
    { intros s f Hs Hf Hn. exists s. now rewrite <- (Hwalk Hn). }
    assert (forall root f, listed σ1 d root f -> n = 0 ->
              exists s : walk_step, s ∈ walk_of σ d /\ f ∈ s.2) as Hfound.
    { intros root f Hl Hn. destruct (Hsame root f Hl Hn) as (s & Hs & _ & Hf). eauto. }
    clear Hwalk Hsame. generalize dependent (walk_of σ d). intros walk Hlisted Hfound.
    pose (J := fun m τ => pass_inv σ1 m τ /\ n <= m).
    assert (forall (s : walk_step) m, s ∈ walk ->
              hoare (J m)
                (fold_each s.2 m
                   (move_file_with_extension (OsPath.join dest_path extension)
                      (OsPath.join dest_path "corrupted") extension s.1.1))
                (fun n' τ => J n' τ /\ m <= n' /\
                             ((exists f, f ∈ s.2 /\ matches extension f = true) -> 0 < n'))
                any) as Hstep.
    { intros s m Hs.
      apply (hoare_fold_hit J any (fun f => matches extension f = true)).
      intros f k Hf. unfold J. apply hoare_pure. intros Hle.
      eapply hoare_conseq;
        [apply (hoare_move_file_with_extension _ _ extension d s.1.1 f k)
        |intros τ H; exact H| |intros τ H; exact H].
      - intros Hk. apply (Hlisted s f Hs Hf). lia.
      - intros n' τ (Hinv' & Hle' & Hhit).
        split; [split; [exact Hinv' | lia]|]. split; [exact Hle' | exact Hhit]. }
    pose proof (hoare_fold_hit J any
                  (fun s : walk_step => exists f, f ∈ s.2 /\ matches extension f = true)
                  walk _ Hstep n σ (conj Hinv (Nat.le_refl n))) as Hfold.
    match type of Hfold with
    | (let (_, _) := ?m in _) =>
        match goal with |- (let (_, _) := ?m' in _) => change m' with m end;
        destruct m as [[n'|e|] σ']
    end; [|exact I..].
    destruct Hfold as ([Hinv' _] & Hle & Hhit). split; [exact Hinv'|]. split; [exact Hle|].
    intros (root & f & Hl & Hm). destruct (Nat.eq_dec n 0) as [Hn|Hn]; [|lia].
    destruct (Hfound root f Hl Hn) as (s & Hs & Hf). apply Hhit. exists s.
    split; [exact Hs|]. now exists f.
  - intros n σ ((Hwf & _ & Hpos) & _ & Hhit). split; [exact Hwf|]. apply Hpos, Hhit.
    exists d0. split; [exact Hd0|]. now exists root0, f0.
Qed.
End PassFacts.

Section LoopEnds.
Import PyStr Fs OrganiseFiles OrganiseMore.
Local Open Scope fs_scope.
Local Open Scope nat_scope.

Lemma pass_inv_start σ : wf_names σ -> pass_inv σ 0 σ.
Proof. intros Hwf. split; [exact Hwf|]. split; [now split | lia]. Qed.

(** With more fuel than there are files under the working directory the
    loop of [organize_files_by_type] ends: every turn that goes on has
    moved a file out of the tree. *)
Lemma organize_loop_ends photorec_dirs dest_path fuel : forall processed σ,
  wf_names σ -> length (working_files σ) < fuel ->
  (organize_loop fuel photorec_dirs dest_path processed σ).1 <> OutOfFuel.
Proof.
  induction fuel as [|fuel IH]; intros processed σ Hwf Hlen; [lia|].
  cbn [organize_loop]. unfold bind at 1.
  pose proof (hoare_scan photorec_dirs σ σ (conj eq_refl Hwf)) as Hscan.
  destruct (returns_scan photorec_dirs σ) as (v & σ1 & Hrun). rewrite Hrun in Hscan |- *.
  destruct Hscan as (Hwf1 & Hlen1 & Hfiles & Hext).
  destruct v as [[ext|] files]; cbn [fst snd] in *.
  - unfold bind.
    pose proof (in_time_process_files_with_extension photorec_dirs ext dest_path σ1)
      as Htime.
    destruct (Hext ext eq_refl) as (d & root & f & Hd & Hl & Hm & _).
    pose proof (hoare_process_files_with_extension σ1 photorec_dirs ext dest_path
                  ltac:(now exists d, root, f) σ1 (pass_inv_start σ1 Hwf1)) as Hpass.
    destruct (_process_files_with_extension photorec_dirs ext dest_path σ1)
      as [[n|e|] σ2]; [|discriminate | now destruct Htime].
    destruct Hpass as [Hwf2 Hlen2]. apply IH; [exact Hwf2 | lia].
  - destruct files as [|f files]; [discriminate|]. unfold bind.
    pose proof (in_time_process_files_without_extension (f :: files) dest_path σ1)
      as Htime.
    assert (Forall (fun p => p ∈ working_files σ1) (f :: files)) as Hin
      by (eapply Forall_impl; [exact Hfiles | now intros p [? _]]).
    pose proof (hoare_process_files_without_extension σ1 f files dest_path Hin σ1
                  (pass_inv_start σ1 Hwf1)) as Hpass.
    destruct (_process_files_without_extension (f :: files) dest_path σ1)
      as [[n|e|] σ2]; [|discriminate | now destruct Htime].
    destruct Hpass as [Hwf2 Hlen2]. apply IH; [exact Hwf2 | lia].
Qed.

Lemma find_photorec_dirs_reads working_path σ :
  (find_photorec_dirs working_path σ).2 = σ.
Proof.
  unfold find_photorec_dirs, bind at 1, os_listdir.
  destruct (String.eqb working_path (wd σ)); [|reflexivity].
  match goal with |- (fold_each ?l ?a ?b σ).2 = σ =>
    assert (forall item acc, exists acc', b item acc σ = (Ok acc', σ)) as Hb;
    [|assert (forall l' acc, (fold_each l' acc b σ).2 = σ) as H; [|apply H]]
  end.
  - intros item acc. unfold bind, os_path_isdir.
    match goal with |- context [if ?c then _ else _] => destruct c end;
      eexists; reflexivity.
  - induction l' as [|item items IH]; intros acc; [reflexivity|].
    cbn [fold_each]. unfold bind at 1.
    destruct (Hb item acc) as [acc' Hacc]. cbv beta in Hacc. rewrite Hacc. apply IH.
Qed.

(** X20.  On a tree whose file names are ASCII text,
    [organize_files_by_type] returns [True] or [False]: it does not
    raise, and its [while True] loop ends, since every turn that does
    not end it moves at least one file out of the recovered tree.  (The
    names are ASCII so that a name found with an extension also ends in
    that extension once lowered, which is what makes a turn move it.) *)
Theorem organize_files_by_type_returns σ working_path dest_path enable_logs :
  wf_names σ ->
  ascii_names σ ->
  exists b σ', organize_files_by_type working_path dest_path enable_logs σ = (Ok b, σ').
Proof.
  intros Hwf _. unfold organize_files_by_type, try_except, bind at 1.
  pose proof (find_photorec_dirs_reads working_path σ) as Hstate.
  pose proof (in_time_find_photorec_dirs working_path σ) as Htime.
  destruct (find_photorec_dirs working_path σ) as [[dirs|e|] τ]; cbn [fst snd] in *;
    subst τ; [|now eexists _, _ | now destruct Htime].
  destruct dirs as [|d dirs]; [now eexists _, _|].
  unfold bind at 1, get. unfold bind at 1.
  pose proof (organize_loop_ends (d :: dirs) dest_path (S (S (length (working_files σ))))
                0 σ Hwf ltac:(lia)) as Hloop.
  destruct (organize_loop _ _ _ _ σ) as [[n|e|] σ1]; cbn [fst] in Hloop;
    [|now eexists _, _ | now destruct Hloop].
  unfold bind.
  destruct (returns_cleanup_empty_dirs (d :: dirs) σ1) as ([] & σ2 & ->).
  now eexists _, _.
Qed.

Lemma organize_files_by_type_returns_witness :
  exists b σ',
    organize_files_by_type "/w" "/dest" false
      (Fixtures.working_tree ["report.xml"; "f1.jpg"; "notes."; "b7"; "f2"])
    = (Ok b, σ').
Proof.
  apply (organize_files_by_type_returns
           (Fixtures.working_tree ["report.xml"; "f1.jpg"; "notes."; "b7"; "f2"])
           "/w" "/dest" false); repeat constructor.
Defined.
End LoopEnds.

(** ** More on the organiser: what a successful run leaves behind *)

Section ScanComplete.
Import PyStr Fs OrganiseFiles OrganiseMore.
Local Open Scope fs_scope.
Local Open Scope nat_scope.

Local Abbreviation any := (fun _ : state => True).

Lemma listed_without_inv σ q d root file :
  listed (without σ q) d root file -> listed σ d root file.
Proof.
  intros (s' & Hs' & Hr & Hf). rewrite walk_of_without in Hs'.
  apply list_elem_of_fmap in Hs' as (s & -> & Hs). exists s.
  split; [exact Hs|]. split; [exact Hr|].
  unfold strip in Hf. cbn [snd] in Hf.
  apply list_elem_of_In, filter_In in Hf as [Hf _]. now apply list_elem_of_In.
Qed.

Lemma not_listed_without σ d root file :
  ~ listed (without σ (OsPath.join root file)) d root file.
Proof.
  intros (s' & Hs' & Hr & Hf). rewrite walk_of_without in Hs'.
  apply list_elem_of_fmap in Hs' as (s & -> & Hs).
  unfold strip in Hr, Hf. cbn [fst snd] in Hr, Hf.
  apply list_elem_of_In, filter_In in Hf as [_ Hf]. unfold keep_other in Hf.
  rewrite Hr, String.eqb_refl in Hf. discriminate.
Qed.

(** What the scan of one file does to the state. *)
Lemma scan_file_state root file v σ :
  exists v' σ', scan_file root file v σ = (Ok v', σ') /\
    (σ' = σ \/ (is_report file = true /\ σ' = without σ (OsPath.join root file))) /\
    (is_report file = true -> v' = v /\ forall d, ~ listed σ' d root file) /\
    (idle v' -> idle v /\ (is_report file = false -> passed_over file)) /\
    (~ idle v -> ~ idle v').
Proof.
  unfold scan_file, idle. destruct (is_report file) eqn:Hrep.
  - unfold bind, try_except, os_remove. case_bool_decide as Hin; cbn [ret].
    + fold (without σ (OsPath.join root file)). eexists _, _. split; [reflexivity|].
      split; [right; now split|]. split; [|split; [intros ->; now split | tauto]].
      intros _. split; [reflexivity|]. intros d. apply not_listed_without.
    + eexists _, _. split; [reflexivity|]. split; [now left|].
      split; [|split; [intros ->; now split | tauto]].
      intros _. split; [reflexivity|]. intros d Hl. apply Hin.
      unfold all_files. apply elem_of_union_r, elem_of_list_to_set.
      exact (listed_in_working_files σ d root file Hl).
  - fold (has_dot file). destruct (has_dot file) eqn:Hdot.
    + destruct (truthy (extension_of file)) eqn:Hext.
      * destruct v as [[ext|] files]; cbn [fst andb negb bool_decide ret].
        -- rewrite bool_decide_eq_true_2 by eauto. cbn [negb andb ret].
           eexists _, _. split; [reflexivity|]. split; [now left|].
           split; [discriminate|]. split; [discriminate | tauto].
        -- rewrite bool_decide_eq_false_2 by (intros [? [=]]). cbn [negb andb ret].
           eexists _, _. split; [reflexivity|]. split; [now left|].
           split; [discriminate|]. split; [discriminate | discriminate].
      * cbn [andb ret]. eexists _, _. split; [reflexivity|]. split; [now left|].
        split; [discriminate|]. split; [|tauto].
        intros ->. split; [reflexivity|]. intros _. split; [exact Hdot|].
        now destruct (extension_of file).
    + cbn [ret]. eexists _, _. split; [reflexivity|]. split; [now left|].
      split; [discriminate|]. split.
      * intros [= _ Hnil]. now destruct v.2.
      * intros _ [= _ Hnil]. now destruct v.2.
Qed.

Lemma scan_file_examined Ex root file v σ :
  examined_ok Ex v σ ->
  exists v' σ', scan_file root file v σ = (Ok v', σ') /\
    (forall d r f, listed σ' d r f -> listed σ d r f) /\
    examined_ok (fun d r f => Ex d r f \/ (r = root /\ f = file)) v' σ'.
Proof.
  intros Hex.
  destruct (scan_file_state root file v σ)
    as (v' & σ' & Hrun & Hstate & Hrep & Hidle & _).
  exists v', σ'. split; [exact Hrun|].
  assert (forall d r f, listed σ' d r f -> listed σ d r f) as Hsub.
  { intros d r f Hl. destruct Hstate as [->|[_ ->]]; [exact Hl|].
    now apply listed_without_inv in Hl. }
  split; [exact Hsub|].
  intros Hv' d r f [HEx|[-> ->]] Hl.
  - destruct (Hidle Hv') as [Hv _]. apply (Hex Hv d r f HEx). now apply Hsub.
  - destruct (is_report file) eqn:Hr.
    + destruct (Hrep eq_refl) as [_ Hno]. now destruct (Hno d).
    + now apply (Hidle Hv').
Qed.

Lemma scan_files_examined root files : forall Ex v σ,
  examined_ok Ex v σ ->
  exists v' σ', fold_each files v (scan_file root) σ = (Ok v', σ') /\
    (forall d r f, listed σ' d r f -> listed σ d r f) /\
    examined_ok (fun d r f => Ex d r f \/ (r = root /\ f ∈ files)) v' σ'.
Proof.
  induction files as [|file files IH]; intros Ex v σ Hex; cbn [fold_each].
  - exists v, σ. split; [reflexivity|]. split; [auto|].
    intros Hv d r f [HEx|[_ Hin]] Hl; [now apply (Hex Hv d r f) | inversion Hin].
  - unfold bind.
    destruct (scan_file_examined Ex root file v σ Hex) as (v1 & σ1 & -> & Hsub1 & Hex1).
    destruct (IH _ v1 σ1 Hex1) as (v2 & σ2 & -> & Hsub2 & Hex2).
    exists v2, σ2. split; [reflexivity|]. split; [auto|].
    intros Hv d r f HEx Hl. apply (Hex2 Hv d r f); [|exact Hl].
    destruct HEx as [HEx|[-> [->|Hin]%elem_of_cons]]; auto.
Qed.

Lemma scan_walk_examined (walk : list walk_step) : forall Ex v σ,
  examined_ok Ex v σ ->
  exists v' σ',
    fold_each walk v (fun (s : walk_step) v => fold_each s.2 v (scan_file s.1.1)) σ
    = (Ok v', σ') /\
    (forall d r f, listed σ' d r f -> listed σ d r f) /\
    examined_ok (fun d r f => Ex d r f \/
                              exists s : walk_step, s ∈ walk /\ s.1.1 = r /\ f ∈ s.2)
                v' σ'.
Proof.
  induction walk as [|s walk IH]; intros Ex v σ Hex; cbn [fold_each].
  - exists v, σ. split; [reflexivity|]. split; [auto|].
    intros Hv d r f [HEx|(s & Hin & _)] Hl; [now apply (Hex Hv d r f) | inversion Hin].
  - unfold bind.
    destruct (scan_files_examined s.1.1 s.2 Ex v σ Hex) as (v1 & σ1 & -> & Hsub1 & Hex1).
    destruct (IH _ v1 σ1 Hex1) as (v2 & σ2 & -> & Hsub2 & Hex2).
    exists v2, σ2. split; [reflexivity|]. split; [auto|].
    intros Hv d r f HEx Hl. apply (Hex2 Hv d r f); [|exact Hl].
    destruct HEx as [HEx|(s' & [->|Hin]%elem_of_cons & Hr & Hf)]; eauto 6.
Qed.

Lemma scan_dirs_examined (dirs : list string) : forall done v σ,
  (idle v -> all_passed_over done σ) ->
  exists v' σ',
    fold_each dirs v (fun dir_path v =>
      walk <- os_walk dir_path ;;
      fold_each walk v (fun (s : walk_step) v => fold_each s.2 v (scan_file s.1.1))) σ
    = (Ok v', σ') /\
    (idle v' -> all_passed_over (done ++ dirs) σ').
Proof.
  induction dirs as [|dir dirs IH]; intros done v σ Hdone; cbn [fold_each].
  - exists v, σ. split; [reflexivity|]. now rewrite app_nil_r.
  - unfold bind at 1. unfold bind at 1. rewrite os_walk_walk_of.
    destruct (scan_walk_examined (walk_of σ dir) (fun d _ _ => d ∈ done) v σ)
      as (v1 & σ1 & -> & Hsub & Hex).
    { intros Hv d r f Hd Hl. exact (Hdone Hv d r f Hd Hl). }
    destruct (IH (done ++ [dir]) v1 σ1) as (v2 & σ2 & -> & Hall).
    { intros Hv d r f [Hd|Hd%list_elem_of_singleton]%elem_of_app Hl.
      - apply (Hex Hv d r f); [now left | exact Hl].
      - subst d. apply (Hex Hv dir r f); [|exact Hl]. right.
        destruct (Hsub dir r f Hl) as (s & Hs & Hr & Hf). now exists s. }
    exists v2, σ2. split; [reflexivity|]. now rewrite <- app_assoc in Hall.
Qed.

(** A scan that finds nothing to do leaves only names it passes over. *)
Lemma scan_idle photorec_dirs σ σ' :
  scan photorec_dirs σ = (Ok (None, []), σ') -> all_passed_over photorec_dirs σ'.
Proof.
  intros Hrun. unfold scan in Hrun.
  destruct (scan_dirs_examined photorec_dirs [] (None, []) σ)
    as (v' & τ & Hrun' & Hall).
  { intros _ d r f Hd. inversion Hd. }
  pose proof (eq_trans (eq_sym Hrun') Hrun) as Heq. injection Heq as -> ->.
  now apply Hall.
Qed.
End ScanComplete.

Section LeftBehind.
Import PyStr Fs OrganiseFiles OrganiseMore.
Local Open Scope fs_scope.
Local Open Scope nat_scope.

Lemma organize_loop_idle photorec_dirs dest_path fuel : forall processed σ n σ',
  organize_loop fuel photorec_dirs dest_path processed σ = (Ok n, σ') ->
  all_passed_over photorec_dirs σ'.
Proof.
  induction fuel as [|fuel IH]; intros processed σ n σ'; cbn [organize_loop];
    [discriminate|].
  unfold bind at 1. destruct (scan photorec_dirs σ) as [[v|e|] τ] eqn:Hscan;
    [|discriminate..].
  destruct v as [[ext|] files].
  - unfold bind.
    destruct (_process_files_with_extension photorec_dirs ext dest_path τ)
      as [[m|e|] τ2]; [apply IH | discriminate..].
  - destruct files as [|f files].
    + intros [= <- <-]. now apply (scan_idle photorec_dirs σ).
    + unfold bind.
      destruct (_process_files_without_extension (f :: files) dest_path τ)
        as [[m|e|] τ2]; [apply IH | discriminate..].
Qed.

Lemma walk_of_rmdir σ p d (s' : walk_step) :
  s' ∈ flat_map (fun e : string * entry =>
           match e.2 with
           | Directory walk => if String.eqb (OsPath.join (wd σ) e.1) d then walk else []
           | RegularFile => []
           end) (flat_map (rmdir_in_entry (wd σ) p) (entries σ)) ->
  exists s : walk_step, s ∈ walk_of σ d /\ s.1.1 = s'.1.1 /\ s.2 = s'.2.
Proof.
  unfold walk_of. induction (entries σ) as [|[n e] es IH]; cbn [flat_map];
    [intros H; inversion H|].
  rewrite flat_map_app. intros [Hin|Hin]%elem_of_app.
  - destruct e as [|walk]; unfold rmdir_in_entry in Hin; cbn [fst snd flat_map] in Hin.
    + inversion Hin.
    + destruct (String.eqb (OsPath.join (wd σ) n) p); cbn [flat_map fst snd] in Hin;
        [inversion Hin|].
      rewrite app_nil_r in Hin. cbn [fst snd].
      destruct (String.eqb (OsPath.join (wd σ) n) d); [|inversion Hin].
      unfold rmdir_in_walk in Hin.
      apply list_elem_of_fmap in Hin as (s & -> & Hs).
      apply list_elem_of_In, filter_In in Hs as [Hs _].
      exists s. split; [|now split]. apply elem_of_app. left. now apply list_elem_of_In.
  - destruct (IH Hin) as (s & Hs & Hr & Hf). exists s. split; [|now split].
    apply elem_of_app. now right.
Qed.

Lemma cleanup_keeps_passed_over dirs photorec_dirs σ :
  all_passed_over dirs σ -> all_passed_over dirs (_cleanup_empty_dirs photorec_dirs σ).2.
Proof.
  intros Hall.
  assert (hoare (all_passed_over dirs) (_cleanup_empty_dirs photorec_dirs)
            (fun _ => all_passed_over dirs) (all_passed_over dirs)) as H.
  { assert (forall p, hoare (all_passed_over dirs)
                        (try_except (os_rmdir p) (fun _ => ret tt))
                        (fun _ => all_passed_over dirs) (all_passed_over dirs)) as Hrm.
    { intros p τ Hτ. unfold try_except, os_rmdir.
      destruct (removable τ p); cbn [ret]; [|exact Hτ].
      intros d root f Hd (s' & Hs' & Hr & Hf).
      destruct (walk_of_rmdir τ p d s' Hs') as (s & Hs & Hr' & Hf').
      apply (Hτ d root f Hd). exists s. split; [exact Hs|]. split; congruence. }
    unfold _cleanup_empty_dirs. apply hoare_for_each. intros dir_path _.
    apply (hoare_bind _ _ _ (fun _ => all_passed_over dirs)); [now intros τ Hτ|].
    intros walk. apply (hoare_bind _ _ _ (fun _ => all_passed_over dirs)).
    - apply hoare_for_each. intros s _. apply hoare_for_each. intros dirname _.
      apply Hrm.
    - intros _. apply Hrm. }
  specialize (H σ Hall).
  destruct (_cleanup_empty_dirs photorec_dirs σ) as [[[]|e|] σ']; exact H.
Qed.

Lemma lower_nil s : lower s = "" -> s = "".
Proof. now destruct s. Qed.

(** A name the scan passes over ends in a dot. *)
Lemma passed_over_trailing_dot file :
  contains OsPath.sep file = false -> passed_over file -> endswith file "." = true.
Proof.
  intros Hclean [Hdot Hext]. unfold has_dot in Hdot.
  apply andb_true_iff in Hdot as [Hdot Hlead%negb_true_iff].
  unfold extension_of, OsPath.splitext, OsPath.split_last_sep in Hext.
  apply rsplit_none_iff in Hclean. rewrite Hclean in Hext.
  destruct (rsplit OsPath.extsep file) as [[stem ext]|] eqn:Hsplit.
  - destruct (rsplit_head _ _ _ _ Hsplit) as [r ->].
    apply rsplit_app in Hsplit.
    destruct (has_other OsPath.extsep stem) eqn:Hother.
    + cbn [snd drop1] in Hext. apply lower_nil in Hext. subst r.
      apply endswith_spec. now exists stem.
    + destruct stem as [|c stem]; subst file.
      * rewrite str_app_nil_l in Hlead. discriminate.
      * cbn [has_other] in Hother. apply orb_false_iff in Hother as [Hc _].
        apply negb_false_iff, Ascii.eqb_eq in Hc. subst c.
        rewrite str_app_cons in Hlead. discriminate.
  - apply rsplit_none_iff in Hsplit. unfold OsPath.extsep in Hsplit. congruence.
Qed.


End LeftBehind.

(** ** Starting the imaging helper *)

Section ImageFacts.
Import PyStr Proc Image.
Local Open Scope nat_scope.

Lemma started_subset W cmds : forall i c,
  c ∈ ImageHelper.started W i cmds -> c ∈ cmds.
Proof.
  induction cmds as [|c0 cmds IH]; intros i c; cbn [ImageHelper.started];
    [intros H; inversion H|].
  destruct (ImageHelper.startsb (W i)); [|intros H; inversion H].
  intros [->|Hin]%elem_of_cons; [apply list_elem_of_here|].
  apply list_elem_of_further.
  destruct (ImageHelper.step_result (W i)); [now apply (IH (S i)) | inversion Hin].
Qed.


End ImageFacts.
